(** * The notes store (state/store.js): a shallow embedding

    The store is a single state container with four asynchronous actions
    ([loadNotes], [addNote], [updateNote], [deleteNote]), one synchronous
    action ([selectNote]) and selectors ([selectedNote], [sortedNotes],
    [isLoading], [getError]).

    Embedding choices.
    - JavaScript values that cross the store boundary (action arguments,
      parsed JSON payloads) are values of [JsVal].  Numbers are the
      integer-valued doubles, the two infinities and [NaN].  A string is
      a Rocq [string]; where its UTF-16 code units matter, in the
      comparison and the lower-casing of titles by [sortedNotes], they
      are given by the engine ([StringEngine]), as is [toLowerCase].
      [uid] upper-cases digits in base 36, which are ASCII.
    - A note held by the store is a record whose [id] is a string and whose
      other fields may be absent ([None] stands for a missing, [undefined]
      or [null] property), so that the defaults the source applies
      ([a.title || ''], [existing.createdAt ?? Date.now()]) keep their
      meaning.
    - An action is a computation in a state-and-exception monad over
      [World]: the store state, the item kept in localStorage, the log of
      snapshots handed to the subscribers, the log of fetch calls and the
      read positions of the clock and of the random source.  [Returned r]
      is a promise resolved with [r] (or a plain return), [Thrown e] a
      promise rejected with [e].  A computation runs one action from its
      call to the settling of its promise, without interleaving with
      another action.
    - The environment ([Env]) fixes what the module reads from outside:
      the configured API base, whether [window] exists, the answers of
      [fetch], of [Date.now()] and of [Math.random()], whether the storage
      accepts a write, and the built-in coercions [String] and [Number] on
      values that are not already of the target type.
    - Console output, request headers and the subscriber callbacks
      themselves are left out; an emission is recorded as the snapshot the
      subscribers receive. *)

From Stdlib Require Import ZArith List String Ascii Bool Lia.
From Stdlib Require Import Permutation Sorted DecimalString.
Import ListNotations.

Local Open Scope string_scope.
Local Open Scope Z_scope.

(** ** JavaScript values *)

Set Warnings "-register-all".

Inductive JsNum : Type :=
| NaN
| Num (z : Z)
| PosInf
| NegInf.

Inductive JsVal : Type :=
| VUndefined
| VNull
| VBool (b : bool)
| VNum (n : JsNum)
| VStr (s : string)
| VArr (items : list JsVal)
| VObj (fields : list (string * JsVal)).

(** A thrown value: an [Error] (or a subclass) with its [message]. *)
Inductive Exn : Type :=
| JsError (message : string).

Definition message (e : Exn) : string :=
  match e with JsError m => m end.

Definition nonEmpty (s : string) : bool :=
  match s with EmptyString => false | String _ _ => true end.

(** [!!v] *)
Definition truthy (v : JsVal) : bool :=
  match v with
  | VUndefined | VNull => false
  | VBool b => b
  | VNum NaN => false
  | VNum (Num z) => negb (z =? 0)
  | VNum PosInf | VNum NegInf => true
  | VStr s => nonEmpty s
  | VArr _ | VObj _ => true
  end.

(** [v == null] *)
Definition nullish (v : JsVal) : bool :=
  match v with
  | VUndefined | VNull => true
  | _ => false
  end.

(** [a ?? b] *)
Definition coalesce (a b : JsVal) : JsVal :=
  if nullish a then b else a.

Fixpoint lookupField (k : string) (fields : list (string * JsVal)) : option JsVal :=
  match fields with
  | [] => None
  | (k', v) :: rest => if String.eqb k k' then Some v else lookupField k rest
  end.

(** [v.k] for a [v] that is neither [null] nor [undefined]; the keys read
    by the store (id, title, content, updatedAt, createdAt, notes, ...)
    are own properties of plain objects only. *)
Definition getProp (v : JsVal) (k : string) : JsVal :=
  match v with
  | VObj fields =>
      match lookupField k fields with
      | Some x => x
      | None => VUndefined
      end
  | _ => VUndefined
  end.

(** [v?.k] *)
Definition getPropOpt (v : JsVal) (k : string) : JsVal :=
  if nullish v then VUndefined else getProp v k.

(** [n && typeof n === 'object'] *)
Definition objectLike (v : JsVal) : bool :=
  match v with
  | VArr _ | VObj _ => true
  | _ => false
  end.

(** ** Strings *)

Definition upperAscii (c : ascii) : ascii :=
  let n := nat_of_ascii c in
  if (Nat.leb 97 n && Nat.leb n 122)%bool then ascii_of_nat (n - 32) else c.

Fixpoint mapString (f : ascii -> ascii) (s : string) : string :=
  match s with
  | EmptyString => EmptyString
  | String c r => String (f c) (mapString f r)
  end.

(** [s.toUpperCase()] for a string of ASCII characters. *)
Definition toUpperCase : string -> string := mapString upperAscii.

(** What the JavaScript engine knows of a string beyond its identity: its
    lower-casing and its sequence of UTF-16 code units. *)
Record StringEngine : Type := mkStringEngine {
  toLowerCase : string -> string;     (* s.toLowerCase() *)
  codeUnits : string -> list N        (* the UTF-16 code units of s *)
}.

(** The lexicographic comparison of two sequences of code units. *)
Fixpoint unitsCompare (x y : list N) : comparison :=
  match x, y with
  | [], [] => Eq
  | [], _ :: _ => Lt
  | _ :: _, [] => Gt
  | a :: x', b :: y' =>
      match (a ?= b)%N with
      | Eq => unitsCompare x' y'
      | c => c
      end
  end.

Definition unitsLeb (x y : list N) : bool :=
  match unitsCompare x y with Gt => false | _ => true end.

(** [s1 < s2] on strings. *)
Definition stringLt (eng : StringEngine) (s1 s2 : string) : bool :=
  match unitsCompare (codeUnits eng s1) (codeUnits eng s2) with
  | Lt => true
  | _ => false
  end.

Definition slash : ascii := "/"%char.

(** [s.replace(/^\/+/, '')] *)
Fixpoint stripLeadingSlashes (s : string) : string :=
  match s with
  | String c r => if Ascii.eqb c slash then stripLeadingSlashes r else s
  | EmptyString => EmptyString
  end.

(** [s.replace(/\/+$/, '')] *)
Fixpoint stripTrailingSlashes (s : string) : string :=
  match s with
  | EmptyString => EmptyString
  | String c r =>
      match stripTrailingSlashes r with
      | EmptyString => if Ascii.eqb c slash then EmptyString else String c EmptyString
      | r' => String c r'
      end
  end.

(** Digits of [n] in base 36, most significant first ([n.toString(36)]
    for a natural number). *)
Definition digit36 (d : N) : ascii :=
  if (d <? 10)%N then ascii_of_N (48 + d) else ascii_of_N (87 + d).

Fixpoint digits36 (fuel : nat) (n : N) (acc : string) : string :=
  match fuel with
  | O => acc
  | S fuel' =>
      let acc' := String (digit36 (n mod 36)) acc in
      if (n <? 36)%N then acc' else digits36 fuel' (n / 36) acc'
  end.

Definition toString36 (z : Z) : string :=
  let n := Z.to_N (Z.abs z) in
  let body := digits36 (S (N.to_nat (N.log2 n))) n EmptyString in
  if z <? 0 then String "-"%char body else body.

Definition decimal (z : Z) : string :=
  NilZero.string_of_int (Z.to_int z).

(** ** Notes and the store state *)

(** A note as the store holds it.  [None] in a field stands for a property
    that is missing, [undefined] or [null]. *)
Record Note : Type := mkNote {
  id : string;
  title : option string;
  content : option string;
  updatedAt : option JsNum;
  createdAt : option JsNum
}.

Record State : Type := mkState {
  notes : list Note;
  selectedNoteId : option string;
  loading : bool;
  error : option string
}.

Definition defaultState : State :=
  mkState [] None false None.

(** The argument of [_setState]: the properties the patch object carries. *)
Record Patch : Type := mkPatch {
  p_notes : option (list Note);
  p_selectedNoteId : option (option string);
  p_loading : option bool;
  p_error : option (option string)
}.

Definition orElse {A : Type} (o : option A) (d : A) : A :=
  match o with Some a => a | None => d end.

(** [{ ...state, ...patch }] *)
Definition applyPatch (s : State) (p : Patch) : State :=
  mkState (orElse (p_notes p) (notes s))
          (orElse (p_selectedNoteId p) (selectedNoteId s))
          (orElse (p_loading p) (loading s))
          (orElse (p_error p) (error s)).

(** [n.id === v] for a note id, which is a string. *)
Definition idIs (v : JsVal) (n : Note) : bool :=
  match v with
  | VStr s => String.eqb (id n) s
  | _ => false
  end.

(** [state.selectedNoteId === v] *)
Definition selectedIs (v : JsVal) (sel : option string) : bool :=
  match sel, v with
  | Some s, VStr s' => String.eqb s s'
  | None, VNull => true
  | _, _ => false
  end.

(** ** Serialised snapshots

    The item kept under the localStorage key is represented by what
    [JSON.parse] makes of it. *)

Inductive StoredItem : Type :=
| Garbage                (* the empty string, or a string JSON.parse rejects *)
| Json (v : JsVal).

Definition LS_KEY : string := "notes_store_v1".

Definition jsonOptStr (o : option string) : JsVal :=
  match o with Some s => VStr s | None => VNull end.

Definition optField (k : string) (o : option JsVal) : list (string * JsVal) :=
  match o with Some v => [(k, v)] | None => [] end.

(** [JSON.stringify] writes [NaN] and the infinities as [null]. *)
Definition jsonNum (n : JsNum) : JsVal :=
  match n with Num _ => VNum n | NaN | PosInf | NegInf => VNull end.

(** [JSON.stringify] leaves out the properties that are [undefined]. *)
Definition encodeNote (n : Note) : JsVal :=
  VObj ([("id", VStr (id n))]
        ++ optField "title" (option_map VStr (title n))
        ++ optField "content" (option_map VStr (content n))
        ++ optField "updatedAt" (option_map jsonNum (updatedAt n))
        ++ optField "createdAt" (option_map jsonNum (createdAt n))).

Definition encodeState (s : State) : JsVal :=
  VObj [("notes", VArr (map encodeNote (notes s)));
        ("selectedNoteId", jsonOptStr (selectedNoteId s));
        ("loading", VBool (loading s));
        ("error", jsonOptStr (error s))].

(** Reading a snapshot back.  The store state is typed, so a blob restores
    to a state only when its properties have the types the store writes;
    [None] marks a blob outside the typed state. *)

Definition decodeOptStr (o : option JsVal) (d : option string) : option (option string) :=
  match o with
  | None => Some d
  | Some (VStr s) => Some (Some s)
  | Some VNull => Some None
  | Some _ => None
  end.

Definition decodeOptNum (o : option JsVal) : option (option JsNum) :=
  match o with
  | None | Some VNull => Some None
  | Some (VNum n) => Some (Some n)
  | Some _ => None
  end.

Definition decodeNote (v : JsVal) : option Note :=
  match v with
  | VObj fields =>
      match lookupField "id" fields,
            decodeOptStr (lookupField "title" fields) None,
            decodeOptStr (lookupField "content" fields) None,
            decodeOptNum (lookupField "updatedAt" fields),
            decodeOptNum (lookupField "createdAt" fields) with
      | Some (VStr i), Some t, Some c, Some u, Some k => Some (mkNote i t c u k)
      | _, _, _, _, _ => None
      end
  | _ => None
  end.

Fixpoint decodeNotes (items : list JsVal) : option (list Note) :=
  match items with
  | [] => Some []
  | v :: rest =>
      match decodeNote v, decodeNotes rest with
      | Some n, Some ns => Some (n :: ns)
      | _, _ => None
      end
  end.

(** [{ ...defaultState, ...persisted }] *)
Definition decodeState (persisted : JsVal) : option State :=
  let fields := match persisted with VObj fs => fs | _ => [] end in
  let ns :=
    match lookupField "notes" fields with
    | None => Some (notes defaultState)
    | Some (VArr items) => decodeNotes items
    | Some _ => None
    end in
  let ld :=
    match lookupField "loading" fields with
    | None => Some (loading defaultState)
    | Some (VBool b) => Some b
    | Some _ => None
    end in
  match ns,
        decodeOptStr (lookupField "selectedNoteId" fields) (selectedNoteId defaultState),
        ld,
        decodeOptStr (lookupField "error" fields) (error defaultState) with
  | Some n, Some s, Some l, Some e => Some (mkState n s l e)
  | _, _, _, _ => None
  end.

(** [readFromLocalStorage()]: [None] is the [null] result. *)
Definition readFromLocalStorage (item : option StoredItem) : option JsVal :=
  match item with
  | None => None
  | Some Garbage => None
  | Some (Json parsed) =>
      if (truthy parsed && objectLike parsed)%bool then Some parsed else None
  end.

(** ** Environment and world *)

Record FetchRequest : Type := mkRequest {
  req_url : string;
  req_method : string;
  req_body : option JsVal        (* the value given to JSON.stringify *)
}.

Inductive FetchResult : Type :=
| NetworkFailure (e : Exn)       (* fetch() rejects *)
| Response (ok : bool) (status : Z)
           (text : option string)   (* resp.text(); None when it rejects *)
           (json : option JsVal).   (* resp.json(); None when it rejects *)

Record Env : Type := mkEnv {
  API_BASE : string;
  hasWindow : bool;                               (* typeof window !== 'undefined' *)
  fetch : nat -> FetchRequest -> FetchResult;     (* answer to the k-th fetch call *)
  dateNow : nat -> Z;                             (* k-th Date.now() *)
  randomSuffix : nat -> string;                   (* k-th Math.random().toString(36).substring(2, 8) *)
  setItemAccepts : JsVal -> bool;                 (* localStorage.setItem does not throw *)
  toStringOther : JsVal -> string;                (* String(v), v not a string *)
  toNumberOther : JsVal -> JsNum;                 (* Number(v), v not a number *)
  encodeURIComponent : string -> string
}.

Record World : Type := mkWorld {
  st : State;                        (* this._state *)
  localStorage : option StoredItem;  (* the item under LS_KEY *)
  emitted : list State;              (* snapshots given to the subscribers, oldest first *)
  requests : list FetchRequest;      (* fetch calls, oldest first *)
  clockReads : nat;
  randomReads : nat
}.

Definition setSt (s : State) (w : World) : World :=
  mkWorld s (localStorage w) (emitted w) (requests w) (clockReads w) (randomReads w).

Definition setLocalStorage (i : option StoredItem) (w : World) : World :=
  mkWorld (st w) i (emitted w) (requests w) (clockReads w) (randomReads w).

(** ** The computation monad *)

Inductive Outcome (A : Type) : Type :=
| Returned (a : A)
| Thrown (e : Exn).
Arguments Returned {A} a.
Arguments Thrown {A} e.

Definition M (A : Type) : Type := World -> Outcome A * World.

Definition ret {A : Type} (a : A) : M A :=
  fun w => (Returned a, w).

Definition bind {A B : Type} (m : M A) (k : A -> M B) : M B :=
  fun w =>
    match m w with
    | (Returned a, w') => k a w'
    | (Thrown e, w') => (Thrown e, w')
    end.

Definition throw {A : Type} (e : Exn) : M A :=
  fun w => (Thrown e, w).

(** [try { m } catch (e) { h e }] *)
Definition tryCatch {A : Type} (m : M A) (h : Exn -> M A) : M A :=
  fun w =>
    match m w with
    | (Returned a, w') => (Returned a, w')
    | (Thrown e, w') => h e w'
    end.

(** [try { m } finally { f }] *)
Definition tryFinally {A : Type} (m : M A) (f : M unit) : M A :=
  fun w =>
    match m w with
    | (r, w') =>
        match f w' with
        | (Returned _, w'') => (r, w'')
        | (Thrown e, w'') => (Thrown e, w'')
        end
    end.

Declare Scope store_scope.
Delimit Scope store_scope with store.
Notation "x <- m ;; k" := (bind m (fun x => k))
  (at level 61, m at next level, right associativity) : store_scope.
Notation "m ;; k" := (bind m (fun _ => k))
  (at level 61, right associativity) : store_scope.
Local Open Scope store_scope.

Fixpoint mapM {A B : Type} (f : A -> M B) (l : list A) : M (list B) :=
  match l with
  | [] => ret []
  | a :: rest => b <- f a ;; bs <- mapM f rest ;; ret (b :: bs)
  end.

(** A read of [this._state]. *)
Definition thisState : M State :=
  fun w => (Returned (st w), w).

(** [getState()]: a shallow clone of the state, the same value. *)
Definition getState (w : World) : State := st w.

(** ** The store *)

Section Store.

Variable env : Env.

Definition USE_API : bool := nonEmpty (API_BASE env).

(** [String(v)] *)
Definition js_String (v : JsVal) : string :=
  match v with
  | VStr s => s
  | _ => toStringOther env v
  end.

(** [Number(v)] *)
Definition js_Number (v : JsVal) : JsNum :=
  match v with
  | VNum n => n
  | _ => toNumberOther env v
  end.

(** [Date.now()] *)
Definition now : M Z :=
  fun w =>
    (Returned (dateNow env (clockReads w)),
     mkWorld (st w) (localStorage w) (emitted w) (requests w)
             (S (clockReads w)) (randomReads w)).

(** [Math.random().toString(36).substring(2, 8)] *)
Definition random36 : M string :=
  fun w =>
    (Returned (randomSuffix env (randomReads w)),
     mkWorld (st w) (localStorage w) (emitted w) (requests w)
             (clockReads w) (S (randomReads w))).

Definition uid : M string :=
  t <- now ;;
  r <- random36 ;;
  ret (toUpperCase (toString36 t ++ r)).

(** [writeToLocalStorage(state)]: a [setItem] that throws is caught and
    only logged. *)
Definition writeToLocalStorage (s : State) : M unit :=
  fun w =>
    let blob := encodeState s in
    if setItemAccepts env blob
    then (Returned tt, setLocalStorage (Some (Json blob)) w)
    else (Returned tt, w).

(** The loop over the subscribers: each receives [getState()]; what a
    subscriber throws is caught and only logged. *)
Definition notifySubscribers : M unit :=
  fun w =>
    (Returned tt,
     mkWorld (st w) (localStorage w) (emitted w ++ [getState w]) (requests w)
             (clockReads w) (randomReads w)).

Definition _emit : M unit :=
  (if (negb USE_API && hasWindow env)%bool
   then s <- thisState ;; writeToLocalStorage s
   else ret tt) ;;
  notifySubscribers.

Definition _setState (patch : Patch) : M unit :=
  (fun w => (Returned tt, setSt (applyPatch (st w) patch) w)) ;;
  _emit.

(** [e && e.message ? e.message : 'Unknown error'] *)
Definition failureMessage (e : Exn) : string :=
  if nonEmpty (message e) then message e else "Unknown error".

(** [_runAsync(actionName, fn)].  The variable that [fn] assigns in the
    caller's scope ([created], [updated], [ok]) is the value [fn] returns
    here: no step of a body can fail after that assignment.  The result is
    [None] when the variable keeps its initial value. *)
Definition _runAsync {A : Type} (actionName : string) (fn : M A) : M (option A) :=
  _setState (mkPatch None None (Some true) (Some None)) ;;
  tryFinally
    (tryCatch
       (a <- fn ;; ret (Some a))
       (fun e =>
          let message := failureMessage e in
          _setState (mkPatch None None None (Some (Some message))) ;;
          ret None))
    (_setState (mkPatch None None (Some false) None)).

(** The URL [apiFetch] builds for [path]. *)
Definition apiUrl (path : string) : string :=
  stripTrailingSlashes (API_BASE env) ++ "/" ++ stripLeadingSlashes path.

(** What [apiFetch] makes of the answer of [fetch]: the rejection is passed
    on, a response that is not [ok] is thrown with its text, the JSON body
    is returned, [null] when it cannot be read. *)
Definition responseResult (r : FetchResult) : Outcome JsVal :=
  match r with
  | NetworkFailure e => Thrown e
  | Response ok status text json =>
      if negb ok then
        let text := orElse text "" in
        Thrown (JsError (if nonEmpty text then text
                         else "Request failed with status " ++ decimal status))
      else
        Returned (orElse json VNull)
  end.

(** [apiFetch(path, options)] with [options = { method, body }]. *)
Definition apiFetch (path method : string) (body : option JsVal) : M JsVal :=
  let req := mkRequest (apiUrl path) method body in
  fun w =>
    (responseResult (fetch env (List.length (requests w)) req),
     mkWorld (st w) (localStorage w) (emitted w) (requests w ++ [req])
             (clockReads w) (randomReads w)).

(** [String(v ?? uid())] *)
Definition stringOrUid (v : JsVal) : M string :=
  if nullish v then uid else ret (js_String v).

(** [Number(v ?? Date.now())] *)
Definition numberOrNow (v : JsVal) : M JsNum :=
  if nullish v then t <- now ;; ret (Num t) else ret (js_Number v).

(** The object built for one entry of the server's list. *)
Definition normalizeListed (n : JsVal) : M Note :=
  i <- stringOrUid (getProp n "id") ;;
  let t := js_String (coalesce (getProp n "title") (VStr "")) in
  let c := js_String (coalesce (getProp n "content") (VStr "")) in
  u <- numberOrNow (getProp n "updatedAt") ;;
  k <- numberOrNow (getProp n "createdAt") ;;
  ret (mkNote i (Some t) (Some c) (Some u) (Some k)).

Definition loadNotes_body : M unit :=
  if negb USE_API then
    _emit
  else
    data <- apiFetch "/notes" "GET" None ;;
    match data with
    | VArr items =>
        ns <- mapM normalizeListed (filter objectLike items) ;;
        _setState (mkPatch (Some ns) None None None)
    | _ => throw (JsError "Invalid response from server.")
    end.

Definition loadNotes : M unit :=
  _runAsync "loadNotes" loadNotes_body ;; ret tt.

Definition optStrVal (o : option string) : JsVal :=
  match o with Some s => VStr s | None => VUndefined end.

(** The record [addNote] assigns to [created]. *)
Definition createNote (title content : JsVal) : M Note :=
  let base_title := js_String title in
  let base_content := js_String content in
  if USE_API then
    data <- apiFetch "/notes" "POST"
              (Some (VObj [("title", VStr base_title); ("content", VStr base_content)])) ;;
    i <- stringOrUid (getPropOpt data "id") ;;
    let t := js_String (coalesce (getPropOpt data "title") (VStr base_title)) in
    let c := js_String (coalesce (getPropOpt data "content") (VStr base_content)) in
    u <- numberOrNow (getPropOpt data "updatedAt") ;;
    k <- numberOrNow (getPropOpt data "createdAt") ;;
    ret (mkNote i (Some t) (Some c) (Some u) (Some k))
  else
    t <- now ;;
    i <- uid ;;
    ret (mkNote i (Some base_title) (Some base_content) (Some (Num t)) (Some (Num t))).

Definition addNote_body (title content : JsVal) : M Note :=
  created <- createNote title content ;;
  s <- thisState ;;
  _setState (mkPatch (Some (notes s ++ [created])%list) (Some (Some (id created))) None None) ;;
  ret created.

(** The engine's wording of the TypeError raised when the parameter
    pattern [{ title = '', content = '' }] meets [null]. *)
Definition destructureNullMessage : string :=
  "Cannot destructure property 'title' of 'object null' as it is null.".

(** [x = d] in a parameter or a pattern: the default replaces [undefined]
    only. *)
Definition withDefault (v d : JsVal) : JsVal :=
  match v with VUndefined => d | _ => v end.

Definition addNote (arg : JsVal) : M (option Note) :=
  match withDefault arg (VObj []) with
  | VNull => throw (JsError destructureNullMessage)
  | fields =>
      let title := withDefault (getProp fields "title") (VStr "") in
      let content := withDefault (getProp fields "content") (VStr "") in
      _runAsync "addNote" (addNote_body title content)
  end.

(** The engine's wording of the TypeError raised by [o.k] on [null]. *)
Definition readNullMessage (k : string) : string :=
  "Cannot read properties of null (reading '" ++ k ++ "')".

(** [o.k] where [o] may be [null]. *)
Definition member (o : JsVal) (k : string) : M JsVal :=
  if nullish o then throw (JsError (readNullMessage k)) else ret (getProp o k).

(** The record [updateNote] assigns to [updated], from the note found and
    the two properties of [payload]. *)
Definition reviseNote (idv : JsVal) (existing : Note)
    (payload_title payload_content : option string) : M Note :=
  if USE_API then
    data <- apiFetch ("/notes/" ++ encodeURIComponent env (js_String idv)) "PUT"
              (Some (VObj (optField "title" (option_map VStr payload_title)
                           ++ optField "content" (option_map VStr payload_content)))) ;;
    let i := js_String (coalesce (getPropOpt data "id") idv) in
    let t := js_String (coalesce (getPropOpt data "title") (optStrVal payload_title)) in
    let c := js_String (coalesce (getPropOpt data "content") (optStrVal payload_content)) in
    u <- numberOrNow (getPropOpt data "updatedAt") ;;
    k <- (let v := getPropOpt data "createdAt" in
          if nullish v then
            match createdAt existing with
            | Some n => ret n
            | None => t <- now ;; ret (Num t)
            end
          else ret (js_Number v)) ;;
    ret (mkNote i (Some t) (Some c) (Some u) (Some k))
  else
    t <- now ;;
    ret (mkNote (id existing) payload_title payload_content
                (Some (Num t)) (createdAt existing)).

Definition updateNote_body (idv updates : JsVal) : M Note :=
  s <- thisState ;;
  match find (idIs idv) (notes s) with
  | None => throw (JsError "Note not found")
  | Some existing =>
      ut <- member updates "title" ;;
      let payload_title :=
        match ut with VUndefined => title existing | v => Some (js_String v) end in
      uc <- member updates "content" ;;
      let payload_content :=
        match uc with VUndefined => content existing | v => Some (js_String v) end in
      updated <- reviseNote idv existing payload_title payload_content ;;
      s' <- thisState ;;
      _setState (mkPatch (Some (map (fun n => if idIs idv n then updated else n) (notes s')))
                         None None None) ;;
      ret updated
  end.

Definition updateNote (idv updates : JsVal) : M (option Note) :=
  if negb (truthy idv) then throw (JsError "updateNote requires an id")
  else _runAsync "updateNote" (updateNote_body idv (withDefault updates (VObj []))).

(** [notes[0]?.id ?? null] *)
Definition firstId (l : list Note) : option string :=
  match l with
  | n :: _ => Some (id n)
  | [] => None
  end.

(** [if (USE_API) { await apiFetch(`/notes/${encodeURIComponent(id)}`, { method: 'DELETE' }) }] *)
Definition removeRemote (idv : JsVal) : M unit :=
  if USE_API
  then apiFetch ("/notes/" ++ encodeURIComponent env (js_String idv)) "DELETE" None ;; ret tt
  else ret tt.

Definition deleteNote_body (idv : JsVal) : M bool :=
  s <- thisState ;;
  if negb (existsb (idIs idv) (notes s)) then throw (JsError "Note not found")
  else
    removeRemote idv ;;
    s' <- thisState ;;
    let notes' := filter (fun n => negb (idIs idv n)) (notes s') in
    let selected :=
      if selectedIs idv (selectedNoteId s') then firstId notes' else selectedNoteId s' in
    _setState (mkPatch (Some notes') (Some selected) None None) ;;
    ret true.

Definition deleteNote (idv : JsVal) : M bool :=
  if negb (truthy idv) then throw (JsError "deleteNote requires an id")
  else ok <- _runAsync "deleteNote" (deleteNote_body idv) ;; ret (orElse ok false).

(** A value that is [===] to a note id is a string. *)
Definition asId (v : JsVal) : option string :=
  match v with VStr s => Some s | _ => None end.

Definition selectNote (idv : JsVal) : M unit :=
  if nullish idv then
    _setState (mkPatch None (Some None) None None)
  else
    s <- thisState ;;
    if negb (existsb (idIs idv) (notes s)) then
      _setState (mkPatch None None None (Some (Some "Note not found")))
    else
      _setState (mkPatch None (Some (asId idv)) None None).

(** [initialState], computed once when the module is loaded, from the item
    found under [LS_KEY]. *)
Definition initialState (item : option StoredItem) : option State :=
  if (negb USE_API && hasWindow env)%bool then
    match readFromLocalStorage item with
    | Some persisted => decodeState persisted
    | None => Some defaultState
    end
  else Some defaultState.

(** [new NotesStore(initial)] in a world whose storage holds [item]. *)
Definition newStore (initial : State) (item : option StoredItem) : World :=
  mkWorld initial item [] [] 0 0.

(** The storage step of [_emit]. *)
Definition persistWorld (w : World) : World :=
  if (negb USE_API && hasWindow env)%bool then
    if setItemAccepts env (encodeState (st w))
    then setLocalStorage (Some (Json (encodeState (st w)))) w
    else w
  else w.

Definition emitWorld (w : World) : World :=
  let w' := persistWorld w in
  mkWorld (st w') (localStorage w') (emitted w' ++ [st w']) (requests w')
          (clockReads w') (randomReads w').

Definition setStateWorld (p : Patch) (w : World) : World :=
  emitWorld (setSt (applyPatch (st w) p) w).

(** The three state updates of [_runAsync]. *)
Definition entered (w : World) : World :=
  setStateWorld (mkPatch None None (Some true) (Some None)) w.

Definition failed (e : Exn) (w : World) : World :=
  setStateWorld (mkPatch None None None (Some (Some (failureMessage e)))) w.

Definition settled (w : World) : World :=
  setStateWorld (mkPatch None None (Some false) None) w.

End Store.

(** ** Selectors *)

Definition selectedNote (s : State) : option Note :=
  match selectedNoteId s with
  | Some i => if nonEmpty i then find (fun n => String.eqb (id n) i) (notes s) else None
  | None => None
  end.

(** [x || 0] for a timestamp: [0] replaces a missing time, [0] and
    [NaN]. *)
Definition timeOr0 (t : option JsNum) : JsNum :=
  match t with
  | Some (Num z) => Num z
  | Some PosInf => PosInf
  | Some NegInf => NegInf
  | Some NaN | None => Num 0
  end.

(** [x - y] on numbers. *)
Definition js_sub (x y : JsNum) : JsNum :=
  match x, y with
  | NaN, _ | _, NaN => NaN
  | Num a, Num b => Num (a - b)
  | PosInf, PosInf | NegInf, NegInf => NaN
  | PosInf, _ | _, NegInf => PosInf
  | NegInf, _ | _, PosInf => NegInf
  end.

(** [x !== 0] on numbers. *)
Definition notZero (x : JsNum) : bool :=
  match x with
  | Num z => negb (z =? 0)
  | NaN | PosInf | NegInf => true
  end.

(** [(x || '').toLowerCase()] for a title *)
Definition titleKey (eng : StringEngine) (t : option string) : string :=
  toLowerCase eng (orElse t "").

(** The function given to [sort]. *)
Definition comparator (eng : StringEngine) (a b : Note) : JsNum :=
  let t := js_sub (timeOr0 (updatedAt b)) (timeOr0 (updatedAt a)) in
  if notZero t then t
  else
    let ta := titleKey eng (title a) in
    let tb := titleKey eng (title b) in
    if stringLt eng ta tb then Num (-1)
    else if stringLt eng tb ta then Num 1
    else Num 0.

(** What [sort] makes of the value its comparator returns: [NaN] counts
    as [+0], and only the sign of the other values matters. *)
Definition compareValue (v : JsNum) : Z :=
  match v with
  | NaN => 0
  | Num z => z
  | PosInf => 1
  | NegInf => -1
  end.

(** The comparator as [sort] reads it. *)
Definition noteOrder (eng : StringEngine) (a b : Note) : Z :=
  compareValue (comparator eng a b).

(** [Array.prototype.sort(cmp)] is a stable sort: the elements end up in
    an order the comparator accepts and those it rates equal keep their
    relative order.  It is modelled by the stable insertion sort; theorem
    [stable_sorted_unique] below shows that no other stable sort differs. *)
Fixpoint insertBy {A : Type} (cmp : A -> A -> Z) (x : A) (l : list A) : list A :=
  match l with
  | [] => [x]
  | y :: rest => if cmp x y <=? 0 then x :: l else y :: insertBy cmp x rest
  end.

Definition sortBy {A : Type} (cmp : A -> A -> Z) (l : list A) : list A :=
  fold_right (insertBy cmp) [] l.

Definition sortedNotes (eng : StringEngine) (s : State) : list Note :=
  sortBy (noteOrder eng) (notes s).

Definition isLoading (s : State) : bool := loading s.

Definition getError (s : State) : option string := error s.

(** ** The actions as one family

    [perform] runs an action to the settling of its promise: [Returned r]
    is a promise resolved with [r], [Thrown e] a promise rejected with
    [e]. *)

Inductive Action : Type :=
| LoadNotes
| AddNote (arg : JsVal)
| UpdateNote (idv updates : JsVal)
| DeleteNote (idv : JsVal).

Inductive Settled : Type :=
| SUnit
| SNote (o : option Note)
| SBool (b : bool).

Definition perform (env : Env) (a : Action) : M Settled :=
  match a with
  | LoadNotes => loadNotes env ;; ret SUnit
  | AddNote arg => r <- addNote env arg ;; ret (SNote r)
  | UpdateNote idv updates => r <- updateNote env idv updates ;; ret (SNote r)
  | DeleteNote idv => r <- deleteNote env idv ;; ret (SBool r)
  end.

(** The checks an action makes on its arguments before it calls
    [_runAsync]. *)
Definition accepted (a : Action) : bool :=
  match a with
  | LoadNotes => true
  | AddNote arg => match arg with VNull => false | _ => true end
  | UpdateNote idv _ => truthy idv
  | DeleteNote idv => truthy idv
  end.

(** What the promise resolves to when the delegated function fails: the
    variable the action returns keeps its initial value. *)
Definition failureValue (a : Action) : Settled :=
  match a with
  | LoadNotes => SUnit
  | AddNote _ => SNote None
  | UpdateNote _ _ => SNote None
  | DeleteNote _ => SBool false
  end.

(** The message of the error an action rejects with when its arguments
    are not accepted. *)
Definition rejectionMessage (a : Action) : string :=
  match a with
  | LoadNotes => ""
  | AddNote _ => destructureNullMessage
  | UpdateNote _ _ => "updateNote requires an id"
  | DeleteNote _ => "deleteNote requires an id"
  end.

(** [title] and [content] as the parameter pattern of [addNote] binds
    them. *)
Definition submittedTitle (arg : JsVal) : JsVal :=
  withDefault (getProp (withDefault arg (VObj [])) "title") (VStr "").

Definition submittedContent (arg : JsVal) : JsVal :=
  withDefault (getProp (withDefault arg (VObj [])) "content") (VStr "").

(** The function an action hands to [_runAsync], its result dropped. *)
Definition delegated (env : Env) (a : Action) : M unit :=
  match a with
  | LoadNotes => loadNotes_body env
  | AddNote arg =>
      addNote_body env (submittedTitle arg) (submittedContent arg) ;; ret tt
  | UpdateNote idv updates =>
      updateNote_body env idv (withDefault updates (VObj [])) ;; ret tt
  | DeleteNote idv => deleteNote_body env idv ;; ret tt
  end.


(** ** Requests and their answers *)

Definition listRequest (env : Env) : FetchRequest :=
  mkRequest (apiUrl env "/notes") "GET" None.


Definition deleteRequest (env : Env) (idv : JsVal) : FetchRequest :=
  mkRequest (apiUrl env ("/notes/" ++ encodeURIComponent env (js_String env idv)))
            "DELETE" None.

(** What [apiFetch] yields for [req] when it is the next request issued
    from world [w]. *)
Definition answerTo (env : Env) (w : World) (req : FetchRequest) : Outcome JsVal :=
  responseResult (fetch env (List.length (requests w)) req).

(** The world after [req] has been issued. *)
Definition requested (req : FetchRequest) (w : World) : World :=
  mkWorld (st w) (localStorage w) (emitted w) (requests w ++ [req])
          (clockReads w) (randomReads w).

(** [notes.filter(n => n.id !== id)] *)
Definition remaining (idv : JsVal) (l : list Note) : list Note :=
  filter (fun n => negb (idIs idv n)) l.

(** ** The order of [sortedNotes] *)

(** The comparator accepts [a] before [b]. *)
Definition before {A : Type} (cmp : A -> A -> Z) (a b : A) : Prop :=
  cmp a b <= 0.

(** The comparator rates [k] and [n] equal. *)
Definition tieb {A : Type} (cmp : A -> A -> Z) (k n : A) : bool :=
  cmp k n =? 0.

(** [x < y] and [x <= y] on numbers. *)
Definition timeLt (x y : JsNum) : Prop :=
  match x, y with
  | Num a, Num b => a < b
  | NegInf, Num _ | NegInf, PosInf | Num _, PosInf => True
  | _, _ => False
  end.

Definition timeLe (x y : JsNum) : Prop :=
  match x, y with
  | Num a, Num b => a <= b
  | NegInf, Num _ | NegInf, PosInf | NegInf, NegInf => True
  | Num _, PosInf | PosInf, PosInf => True
  | _, _ => False
  end.

(** The time is a finite number. *)
Definition isFinite (x : JsNum) : bool :=
  match x with Num _ => true | _ => false end.

(** What the comparator looks at in a note: the time used for
    [updatedAt] and, when that time is finite, the code units of the
    lower-cased title.  Two infinite times of the same sign subtract to
    [NaN], which the comparator returns before it looks at the titles. *)
Definition noteKey (eng : StringEngine) (n : Note) : JsNum * list N :=
  let t := timeOr0 (updatedAt n) in
  (t, if isFinite t then codeUnits eng (titleKey eng (title n)) else []).

(** Later time first; at equal times, the smaller or equal sequence of
    code units first. *)
Definition keyLe (x y : JsNum * list N) : Prop :=
  timeLt (fst y) (fst x) \/ (fst x = fst y /\ unitsLeb (snd x) (snd y) = true).

(** Later [updatedAt] first; at equal finite [updatedAt], the title that
    is lexicographically smaller or equal once lower-cased first; at equal
    infinite [updatedAt], either note. *)
Definition precedes (eng : StringEngine) (a b : Note) : Prop :=
  timeLt (timeOr0 (updatedAt b)) (timeOr0 (updatedAt a)) \/
  (timeOr0 (updatedAt a) = timeOr0 (updatedAt b) /\
   (isFinite (timeOr0 (updatedAt a)) = true ->
    unitsLeb (codeUnits eng (titleKey eng (title a)))
             (codeUnits eng (titleKey eng (title b))) = true)).

(** The comparator rates [k] and [n] equal. *)
Definition tiedWith (eng : StringEngine) (k n : Note) : bool :=
  noteOrder eng k n =? 0.

(** ** The canonical shape *)


(** All five properties are present and the two times are numbers that
    JSON can carry. *)
Definition isCanonical (n : Note) : bool :=
  match title n, content n, updatedAt n, createdAt n with
  | Some _, Some _, Some (Num _), Some (Num _) => true
  | _, _, _, _ => false
  end.

(** No time of [n] is [NaN] or infinite: JSON would turn it into
    [null]. *)
Definition noNaN (n : Note) : bool :=
  match updatedAt n, createdAt n with
  | (None | Some (Num _)), (None | Some (Num _)) => true
  | _, _ => false
  end.

(** A serialised entry of the canonical shape. *)
Definition canonicalJson (v : JsVal) : Prop :=
  exists i t c u k,
    v = VObj [("id", VStr i); ("title", VStr t); ("content", VStr c);
              ("updatedAt", VNum (Num u)); ("createdAt", VNum (Num k))].


(** ** Independence from the stored item *)

(** Two worlds that differ at most in the item kept in localStorage. *)
Definition sameStore (w1 w2 : World) : Prop :=
  st w1 = st w2 /\ emitted w1 = emitted w2 /\ requests w1 = requests w2 /\
  clockReads w1 = clockReads w2 /\ randomReads w1 = randomReads w2.

(** A computation that never reads the stored item: from two such worlds
    it produces the same outcome and two such worlds again. *)
Definition storageBlind {A : Type} (m : M A) : Prop :=
  forall w1 w2, sameStore w1 w2 ->
    fst (m w1) = fst (m w2) /\ sameStore (snd (m w1)) (snd (m w2)).

(** ** Properties of computations used in the proofs *)

(** The computation leaves the state, the stored item and the emission
    log alone. *)
Definition quiet {A : Type} (m : M A) : Prop :=
  forall w r w', m w = (r, w') ->
    st w' = st w /\ localStorage w' = localStorage w /\ emitted w' = emitted w.

(** A failure of the computation leaves the state alone. *)
Definition failsQuietly {A : Type} (m : M A) : Prop :=
  forall w e w', m w = (Thrown e, w') -> st w' = st w.

(** The computation leaves [loading] and [error] alone. *)
Definition keepsFlags {A : Type} (m : M A) : Prop :=
  forall w r w', m w = (r, w') ->
    loading (st w') = loading (st w) /\ error (st w') = error (st w).

(** ** Sample environments

    A browser without a configured API, and one with an API whose every
    request gets the same answer. *)

Definition sampleClock (k : nat) : Z := 1700000000000 + Z.of_nat k.

Definition localEnv : Env :=
  mkEnv "" true
        (fun _ _ => NetworkFailure (JsError "Failed to fetch"))
        sampleClock (fun _ => "k3x9qa") (fun _ => true)
        (fun _ => "[object Object]") (fun _ => NaN) (fun s => s).

Definition remoteEnv (answer : FetchResult) : Env :=
  mkEnv "https://notes.example/api/" true
        (fun _ _ => answer)
        sampleClock (fun _ => "k3x9qa") (fun _ => true)
        (fun _ => "[object Object]") (fun _ => NaN) (fun s => s).

(** No API and no [window] (the module loaded outside a browser). *)
Definition noWindowEnv : Env :=
  mkEnv "" false
        (fun _ _ => NetworkFailure (JsError "Failed to fetch"))
        sampleClock (fun _ => "k3x9qa") (fun _ => true)
        (fun _ => "[object Object]") (fun _ => NaN) (fun s => s).

(** No API, a browser whose storage refuses every write (quota reached,
    storage disabled). *)
Definition fullStorageEnv : Env :=
  mkEnv "" true
        (fun _ _ => NetworkFailure (JsError "Failed to fetch"))
        sampleClock (fun _ => "k3x9qa") (fun _ => false)
        (fun _ => "[object Object]") (fun _ => NaN) (fun s => s).

Definition emptyWorld : World := newStore defaultState None.

(** The notes of Scenario B, the first one selected. *)
Definition scenarioB : State :=
  mkState [mkNote "1" None None (Some (Num 100)) None;
           mkNote "2" None None (Some (Num 200)) None]
          (Some "1") false None.

Definition worldB : World := newStore scenarioB None.

(** The item a local store in state [scenarioB] has written. *)
Definition storedB : option StoredItem := Some (Json (encodeState scenarioB)).

(** ** A sample engine

    It reads a Rocq string as UTF-8 text.  Its lower-casing is
    JavaScript's on the letters of the Basic Latin and Latin-1 Supplement
    blocks (A to Z, and U+00C0 to U+00DE without the multiplication sign),
    and leaves every other character alone. *)

Definition inRange (lo hi n : nat) : bool := (Nat.leb lo n && Nat.leb n hi)%bool.

Fixpoint lowerUtf8 (s : string) : string :=
  match s with
  | EmptyString => EmptyString
  | String c r =>
      let n := nat_of_ascii c in
      if inRange 65 90 n then String (ascii_of_nat (n + 32)) (lowerUtf8 r)
      else if Nat.eqb n 195 then
        match r with
        | String d r' =>
            let m := nat_of_ascii d in
            if (inRange 128 158 m && negb (Nat.eqb m 151))%bool
            then String c (String (ascii_of_nat (m + 32)) (lowerUtf8 r'))
            else String c (lowerUtf8 r)
        | EmptyString => String c EmptyString
        end
      else String c (lowerUtf8 r)
  end.

(** The code points of a sequence of UTF-8 bytes; U+FFFD stands for a
    sequence cut short. *)
Fixpoint utf8CodePoints (l : list N) : list N :=
  match l with
  | [] => []
  | b1 :: r1 =>
      if (b1 <? 128)%N then b1 :: utf8CodePoints r1
      else
        match r1 with
        | [] => [65533%N]
        | b2 :: r2 =>
            if (b1 <? 224)%N
            then ((b1 - 192) * 64 + (b2 - 128))%N :: utf8CodePoints r2
            else
              match r2 with
              | [] => [65533%N]
              | b3 :: r3 =>
                  if (b1 <? 240)%N
                  then ((b1 - 224) * 4096 + (b2 - 128) * 64 + (b3 - 128))%N
                       :: utf8CodePoints r3
                  else
                    match r3 with
                    | [] => [65533%N]
                    | b4 :: r4 =>
                        ((b1 - 240) * 262144 + (b2 - 128) * 4096
                         + (b3 - 128) * 64 + (b4 - 128))%N :: utf8CodePoints r4
                    end
              end
        end
  end.

(** The UTF-16 code units of a code point: itself, or a surrogate pair. *)
Definition utf16Units (cp : N) : list N :=
  if (cp <? 65536)%N then [cp]
  else [(55296 + (cp - 65536) / 1024)%N; (56320 + (cp - 65536) mod 1024)%N].

Definition utf8CodeUnits (s : string) : list N :=
  flat_map utf16Units (utf8CodePoints (map N_of_ascii (list_ascii_of_string s))).

Definition utf8Engine : StringEngine := mkStringEngine lowerUtf8 utf8CodeUnits.

(** Two notes with the same [updatedAt] [t]; by title, case ignored, the
    second ('apple') comes before the first ('Banana'). *)
Definition titledAt (t : JsNum) : State :=
  mkState [mkNote "1" (Some "Banana") (Some "") (Some t) (Some (Num 1));
           mkNote "2" (Some "apple") (Some "") (Some t) (Some (Num 2))]
          None false None.

(** ** Callers: the keyboard shortcuts of pages/NotesIndex.js

    The three branches of the key handler that act on the store.  The
    key test, [preventDefault] and the sidebar routing are left out; the
    answer of [window.confirm] is a parameter. *)

(** Ctrl/Cmd + N:
    [created = await store.addNote({ title: 'Untitled', content: '' });
     if (created?.id) store.selectNote(created.id)] *)
Definition shortcutAdd (env : Env) : M unit :=
  created <- addNote env (VObj [("title", VStr "Untitled"); ("content", VStr "")]) ;;
  match created with
  | Some n => if nonEmpty (id n) then selectNote env (VStr (id n)) else ret tt
  | None => ret tt
  end.

(** Ctrl/Cmd + S:
    [note = store.selectedNote();
     if (note) await store.updateNote(note.id, { title: note.title, content: note.content })] *)
Definition shortcutSave (env : Env) : M unit :=
  s <- thisState ;;
  match selectedNote s with
  | Some note =>
      updateNote env (VStr (id note))
        (VObj [("title", optStrVal (title note)); ("content", optStrVal (content note))]) ;;
      ret tt
  | None => ret tt
  end.

(** Delete:
    [current = store.selectedNote();
     if (current) { ok = window.confirm(...); if (ok) await store.deleteNote(current.id) }] *)
Definition shortcutDelete (env : Env) (confirmed : bool) : M unit :=
  s <- thisState ;;
  match selectedNote s with
  | Some current =>
      if confirmed then deleteNote env (VStr (id current)) ;; ret tt else ret tt
  | None => ret tt
  end.

(** ** Further notions used in the properties *)

(** [selectedNoteId] is null or the id of a note of the store. *)
Definition selectionValid (s : State) : Prop :=
  match selectedNoteId s with
  | None => True
  | Some i => In i (map id (notes s))
  end.

(** The actions that keep the selection valid whatever the backend
    answers. *)
Definition keepsSelection (a : Action) : bool :=
  match a with
  | AddNote _ | DeleteNote _ => true
  | LoadNotes | UpdateNote _ _ => false
  end.

(** [updates.k !== undefined ? String(updates.k) : old] *)
Definition payloadField (env : Env) (updates : JsVal) (k : string)
    (old : option string) : option string :=
  let v := getProp updates k in
  match v with
  | VUndefined => old
  | _ => Some (js_String env v)
  end.

(** The string ends with a slash. *)
Fixpoint endsWithSlash (s : string) : bool :=
  match s with
  | EmptyString => false
  | String c EmptyString => Ascii.eqb c slash
  | String _ r => endsWithSlash r
  end.

(** The string starts with a slash. *)
Definition startsWithSlash (s : string) : bool :=
  match s with
  | String c _ => Ascii.eqb c slash
  | EmptyString => false
  end.

(** The character is a lower-case ASCII letter. *)
Definition isLowerAscii (c : ascii) : bool :=
  (Nat.leb 97 (nat_of_ascii c) && Nat.leb (nat_of_ascii c) 122)%bool.

Fixpoint allChars (p : ascii -> bool) (s : string) : bool :=
  match s with
  | EmptyString => true
  | String c r => (p c && allChars p r)%bool
  end.

(** A computation that emits exactly one snapshot, the state it ends in,
    when it returns, and none when it throws. *)
Definition emitsOnce {A : Type} (m : M A) : Prop :=
  forall w r w', m w = (r, w') ->
    match r with
    | Returned _ => emitted w' = (emitted w ++ [st w'])%list
    | Thrown _ => emitted w' = emitted w
    end.


(** Every run of the computation relates the world it starts in to the
    world it ends in by [R]. *)
Definition within (R : World -> World -> Prop) {A : Type} (m : M A) : Prop :=
  forall w r w', m w = (r, w') -> R w w'.

(** [n] slashes. *)
Fixpoint slashes (n : nat) : string :=
  match n with
  | O => EmptyString
  | S k => String slash (slashes k)
  end.

(** What is asked of an action for the ids of [notes] to stay distinct:
    nothing of [deleteNote]; of [addNote], that the id of the note it
    resolves to is not that of a note already held; of [loadNotes] and
    [updateNote], that no API is configured. *)
Definition keepsIdsDistinct (env : Env) (a : Action) (w : World) (r : Outcome Settled)
    : Prop :=
  match a with
  | DeleteNote _ => True
  | AddNote _ =>
      forall n, r = Returned (SNote (Some n)) -> ~ In (id n) (map id (notes (st w)))
  | LoadNotes | UpdateNote _ _ => USE_API env = false
  end.

(** * Properties *)

(** [uid()] at the millisecond 1700000000000 starts with this prefix. *)
Example toString36_time :
  toUpperCase (toString36 1700000000000) = "LOYW3V28".
Proof. vm_compute. reflexivity. Qed.

(** ** Facts about the monad and the state updates *)

Section StoreFacts.

Variable env : Env.

Lemma st_persistWorld (w : World) : st (persistWorld env w) = st w.
Proof.
  unfold persistWorld.
  destruct (negb (USE_API env) && hasWindow env)%bool; [|reflexivity].
  destruct (setItemAccepts env _); reflexivity.
Qed.

Lemma requests_persistWorld (w : World) :
  requests (persistWorld env w) = requests w.
Proof.
  unfold persistWorld.
  destruct (negb (USE_API env) && hasWindow env)%bool; [|reflexivity].
  destruct (setItemAccepts env _); reflexivity.
Qed.

Lemma _emit_eq (w : World) : _emit env w = (Returned tt, emitWorld env w).
Proof.
  unfold _emit, emitWorld, persistWorld, bind, thisState, writeToLocalStorage,
    notifySubscribers, ret, getState.
  destruct (negb (USE_API env) && hasWindow env)%bool; [|reflexivity].
  destruct (setItemAccepts env _); reflexivity.
Qed.

Lemma _setState_eq (p : Patch) (w : World) :
  _setState env p w = (Returned tt, setStateWorld env p w).
Proof.
  unfold _setState, bind. apply _emit_eq.
Qed.

Lemma st_emitWorld (w : World) : st (emitWorld env w) = st w.
Proof. unfold emitWorld. simpl. apply st_persistWorld. Qed.

Lemma requests_emitWorld (w : World) : requests (emitWorld env w) = requests w.
Proof. unfold emitWorld. simpl. apply requests_persistWorld. Qed.

Lemma st_setStateWorld (p : Patch) (w : World) :
  st (setStateWorld env p w) = applyPatch (st w) p.
Proof. unfold setStateWorld. rewrite st_emitWorld. reflexivity. Qed.

Lemma requests_setStateWorld (p : Patch) (w : World) :
  requests (setStateWorld env p w) = requests w.
Proof. unfold setStateWorld. rewrite requests_emitWorld. reflexivity. Qed.

Lemma _runAsync_returned {A : Type} (name : string) (fn : M A) (w w2 : World) (a : A) :
  fn (entered env w) = (Returned a, w2) ->
  _runAsync env name fn w = (Returned (Some a), settled env w2).
Proof.
  intros Hfn.
  unfold _runAsync, bind at 1. rewrite _setState_eq.
  unfold tryFinally, tryCatch, bind. fold (entered env w). rewrite Hfn.
  unfold ret. rewrite _setState_eq. reflexivity.
Qed.

Lemma _runAsync_thrown {A : Type} (name : string) (fn : M A) (w w2 : World) (e : Exn) :
  fn (entered env w) = (Thrown e, w2) ->
  _runAsync env name fn w = (Returned None, settled env (failed env e w2)).
Proof.
  intros Hfn.
  unfold _runAsync, bind at 1. rewrite _setState_eq.
  unfold tryFinally, tryCatch, bind. fold (entered env w). rewrite Hfn.
  rewrite _setState_eq. unfold ret. rewrite _setState_eq. reflexivity.
Qed.

(** [_runAsync] never rejects. *)
Lemma _runAsync_total {A : Type} (name : string) (fn : M A) (w : World) :
  exists r wf, _runAsync env name fn w = (Returned r, wf).
Proof.
  destruct (fn (entered env w)) as [[a|e] w2] eqn:Hfn.
  - eexists _, _. apply _runAsync_returned. exact Hfn.
  - eexists _, _. apply (_runAsync_thrown name fn w w2 e). exact Hfn.
Qed.

(** *** Computations that leave the state alone *)

Lemma quiet_ret {A : Type} (a : A) : quiet (ret a).
Proof. intros w r w' H. inversion H. auto. Qed.

Lemma quiet_throw {A : Type} (e : Exn) : quiet (@throw A e).
Proof. intros w r w' H. inversion H. auto. Qed.

Lemma quiet_bind {A B : Type} (m : M A) (k : A -> M B) :
  quiet m -> (forall a, quiet (k a)) -> quiet (bind m k).
Proof.
  intros Hm Hk w r w' H. unfold bind in H.
  destruct (m w) as [[a|e] w1] eqn:E.
  - destruct (Hm _ _ _ E) as (H1 & H2 & H3).
    destruct (Hk a _ _ _ H) as (H4 & H5 & H6).
    repeat split; congruence.
  - inversion H; subst. exact (Hm _ _ _ E).
Qed.

Lemma quiet_thisState : quiet thisState.
Proof. intros w r w' H. inversion H. auto. Qed.

Lemma quiet_now : quiet (now env).
Proof. intros w r w' H. inversion H. auto. Qed.

Lemma quiet_random36 : quiet (random36 env).
Proof. intros w r w' H. inversion H. auto. Qed.

Lemma quiet_uid : quiet (uid env).
Proof.
  unfold uid. apply quiet_bind; [apply quiet_now|]. intros t.
  apply quiet_bind; [apply quiet_random36|]. intros r. apply quiet_ret.
Qed.

Lemma quiet_apiFetch (path method : string) (body : option JsVal) :
  quiet (apiFetch env path method body).
Proof. intros w r w' H. inversion H. auto. Qed.

Lemma quiet_member (o : JsVal) (k : string) : quiet (member o k).
Proof.
  unfold member. destruct (nullish o); [apply quiet_throw | apply quiet_ret].
Qed.

Lemma quiet_stringOrUid (v : JsVal) : quiet (stringOrUid env v).
Proof.
  unfold stringOrUid. destruct (nullish v); [apply quiet_uid | apply quiet_ret].
Qed.

Lemma quiet_numberOrNow (v : JsVal) : quiet (numberOrNow env v).
Proof.
  unfold numberOrNow. destruct (nullish v); [|apply quiet_ret].
  apply quiet_bind; [apply quiet_now|]. intros t. apply quiet_ret.
Qed.

Lemma quiet_normalizeListed (n : JsVal) : quiet (normalizeListed env n).
Proof.
  unfold normalizeListed.
  apply quiet_bind; [apply quiet_stringOrUid|]. intros i.
  apply quiet_bind; [apply quiet_numberOrNow|]. intros u.
  apply quiet_bind; [apply quiet_numberOrNow|]. intros k.
  apply quiet_ret.
Qed.

Lemma quiet_mapM {A B : Type} (f : A -> M B) (l : list A) :
  (forall a, quiet (f a)) -> quiet (mapM f l).
Proof.
  intros Hf. induction l as [|a l IH]; simpl.
  - apply quiet_ret.
  - apply quiet_bind; [apply Hf|]. intros b.
    apply quiet_bind; [apply IH|]. intros bs. apply quiet_ret.
Qed.

(** *** Computations whose failure leaves the state alone *)

Lemma quiet_failsQuietly {A : Type} (m : M A) : quiet m -> failsQuietly m.
Proof. intros Hm w e w' H. exact (proj1 (Hm _ _ _ H)). Qed.

Lemma failsQuietly_bind {A B : Type} (m : M A) (k : A -> M B) :
  quiet m -> (forall a, failsQuietly (k a)) -> failsQuietly (bind m k).
Proof.
  intros Hm Hk w e w' H. unfold bind in H.
  destruct (m w) as [[a|e0] w1] eqn:E.
  - destruct (Hm _ _ _ E) as (H1 & _). rewrite <- H1. exact (Hk a _ _ _ H).
  - inversion H; subst. exact (proj1 (Hm _ _ _ E)).
Qed.

Lemma failsQuietly_setState_ret {A : Type} (p : Patch) (a : A) :
  failsQuietly (_setState env p ;; ret a).
Proof.
  intros w e w' H. unfold bind in H. rewrite _setState_eq in H. discriminate H.
Qed.

Lemma failsQuietly_setState (p : Patch) : failsQuietly (_setState env p).
Proof. intros w e w' H. rewrite _setState_eq in H. discriminate H. Qed.

Lemma failsQuietly_emit : failsQuietly (_emit env).
Proof. intros w e w' H. rewrite _emit_eq in H. discriminate H. Qed.

Lemma failsQuietly_drop {A : Type} (m : M A) :
  failsQuietly m -> failsQuietly (m ;; ret tt).
Proof.
  intros Hm w e w' H. unfold bind in H.
  destruct (m w) as [[a|e0] w1] eqn:E.
  - discriminate H.
  - inversion H; subst. exact (Hm _ _ _ E).
Qed.

Lemma failsQuietly_loadNotes_body : failsQuietly (loadNotes_body env).
Proof.
  unfold loadNotes_body. destruct (negb (USE_API env)).
  - apply failsQuietly_emit.
  - apply failsQuietly_bind; [apply quiet_apiFetch|]. intros data.
    destruct data; try (apply quiet_failsQuietly, quiet_throw).
    apply failsQuietly_bind.
    + apply quiet_mapM. apply quiet_normalizeListed.
    + intros ns. apply failsQuietly_setState.
Qed.

Lemma quiet_createNote (t c : JsVal) : quiet (createNote env t c).
Proof.
  unfold createNote. cbv zeta. destruct (USE_API env).
  - apply quiet_bind; [apply quiet_apiFetch|]. intros data.
    apply quiet_bind; [apply quiet_stringOrUid|]. intros i.
    apply quiet_bind; [apply quiet_numberOrNow|]. intros u.
    apply quiet_bind; [apply quiet_numberOrNow|]. intros k.
    apply quiet_ret.
  - apply quiet_bind; [apply quiet_now|]. intros n.
    apply quiet_bind; [apply quiet_uid|]. intros i. apply quiet_ret.
Qed.

Lemma failsQuietly_addNote_body (t c : JsVal) : failsQuietly (addNote_body env t c).
Proof.
  unfold addNote_body.
  apply failsQuietly_bind; [apply quiet_createNote|]. intros created.
  apply failsQuietly_bind; [apply quiet_thisState|]. intros s.
  apply failsQuietly_setState_ret.
Qed.

Lemma quiet_reviseNote (idv : JsVal) (existing : Note) (pt pc : option string) :
  quiet (reviseNote env idv existing pt pc).
Proof.
  unfold reviseNote. cbv zeta. destruct (USE_API env).
  - apply quiet_bind; [apply quiet_apiFetch|]. intros data.
    apply quiet_bind; [apply quiet_numberOrNow|]. intros u.
    apply quiet_bind.
    + destruct (nullish (getPropOpt data "createdAt")); [|apply quiet_ret].
      destruct (createdAt existing); [apply quiet_ret|].
      apply quiet_bind; [apply quiet_now|]. intros n. apply quiet_ret.
    + intros k. apply quiet_ret.
  - apply quiet_bind; [apply quiet_now|]. intros n. apply quiet_ret.
Qed.

Lemma failsQuietly_updateNote_body (idv updates : JsVal) :
  failsQuietly (updateNote_body env idv updates).
Proof.
  unfold updateNote_body.
  apply failsQuietly_bind; [apply quiet_thisState|]. intros s.
  destruct (find (idIs idv) (notes s)) as [existing|].
  - apply failsQuietly_bind; [apply quiet_member|]. intros ut. cbv zeta.
    apply failsQuietly_bind; [apply quiet_member|]. intros uc.
    apply failsQuietly_bind; [apply quiet_reviseNote|]. intros updated.
    apply failsQuietly_bind; [apply quiet_thisState|]. intros s'.
    apply failsQuietly_setState_ret.
  - apply quiet_failsQuietly, quiet_throw.
Qed.

Lemma quiet_removeRemote (idv : JsVal) : quiet (removeRemote env idv).
Proof.
  unfold removeRemote. destruct (USE_API env); [|apply quiet_ret].
  apply quiet_bind; [apply quiet_apiFetch|]. intros _. apply quiet_ret.
Qed.

Lemma failsQuietly_deleteNote_body (idv : JsVal) :
  failsQuietly (deleteNote_body env idv).
Proof.
  unfold deleteNote_body.
  apply failsQuietly_bind; [apply quiet_thisState|]. intros s.
  destruct (negb (existsb (idIs idv) (notes s))).
  - apply quiet_failsQuietly, quiet_throw.
  - apply failsQuietly_bind; [apply quiet_removeRemote|]. intros _.
    apply failsQuietly_bind; [apply quiet_thisState|]. intros s'. cbv zeta.
    apply failsQuietly_setState_ret.
Qed.

Lemma failsQuietly_delegated (a : Action) : failsQuietly (delegated env a).
Proof.
  destruct a; simpl.
  - apply failsQuietly_loadNotes_body.
  - apply failsQuietly_drop, failsQuietly_addNote_body.
  - apply failsQuietly_drop, failsQuietly_updateNote_body.
  - apply failsQuietly_drop, failsQuietly_deleteNote_body.
Qed.

(** *** From the delegated function to the settled action *)

Lemma drop_thrown {A : Type} (m : M A) (w w2 : World) (e : Exn) :
  (m ;; ret tt) w = (Thrown e, w2) -> m w = (Thrown e, w2).
Proof.
  unfold bind. destruct (m w) as [[a|e0] w1]; intros H.
  - discriminate H.
  - inversion H; subst. reflexivity.
Qed.

Lemma drop_returned {A : Type} (m : M A) (w w2 : World) :
  (m ;; ret tt) w = (Returned tt, w2) -> exists a, m w = (Returned a, w2).
Proof.
  unfold bind. destruct (m w) as [[a|e0] w1]; intros H.
  - inversion H; subst. exists a. reflexivity.
  - discriminate H.
Qed.

Lemma addNote_accepted (arg : JsVal) :
  arg <> VNull ->
  addNote env arg =
  _runAsync env "addNote" (addNote_body env (submittedTitle arg) (submittedContent arg)).
Proof.
  intros Harg. destruct arg; try reflexivity. contradiction Harg. reflexivity.
Qed.

Lemma addNote_null (w : World) :
  addNote env VNull w = (Thrown (JsError destructureNullMessage), w).
Proof. reflexivity. Qed.

Lemma updateNote_accepted (idv updates : JsVal) :
  truthy idv = true ->
  updateNote env idv updates =
  _runAsync env "updateNote" (updateNote_body env idv (withDefault updates (VObj []))).
Proof. intros H. unfold updateNote. rewrite H. reflexivity. Qed.

Lemma updateNote_falsy (idv updates : JsVal) (w : World) :
  truthy idv = false ->
  updateNote env idv updates w = (Thrown (JsError "updateNote requires an id"), w).
Proof. intros H. unfold updateNote. rewrite H. reflexivity. Qed.

Lemma deleteNote_accepted (idv : JsVal) :
  truthy idv = true ->
  deleteNote env idv =
  (ok <- _runAsync env "deleteNote" (deleteNote_body env idv) ;; ret (orElse ok false)).
Proof. intros H. unfold deleteNote. rewrite H. reflexivity. Qed.

Lemma deleteNote_falsy (idv : JsVal) (w : World) :
  truthy idv = false ->
  deleteNote env idv w = (Thrown (JsError "deleteNote requires an id"), w).
Proof. intros H. unfold deleteNote. rewrite H. reflexivity. Qed.

Lemma accepted_AddNote (arg : JsVal) : accepted (AddNote arg) = true -> arg <> VNull.
Proof. intros H E. subst arg. discriminate H. Qed.

(** What the promise of a failed action resolves to. *)
Lemma perform_failure (a : Action) (w w2 : World) (e : Exn) :
  accepted a = true ->
  delegated env a (entered env w) = (Thrown e, w2) ->
  perform env a w = (Returned (failureValue a), settled env (failed env e w2)).
Proof.
  intros Hacc Hfail. destruct a; simpl in *.
  - unfold loadNotes, bind.
    rewrite (_runAsync_thrown "loadNotes" _ w w2 e Hfail). reflexivity.
  - apply drop_thrown in Hfail.
    rewrite (addNote_accepted arg (accepted_AddNote arg Hacc)). unfold bind.
    rewrite (_runAsync_thrown "addNote" _ w w2 e Hfail). reflexivity.
  - apply drop_thrown in Hfail.
    rewrite (updateNote_accepted idv updates Hacc). unfold bind.
    rewrite (_runAsync_thrown "updateNote" _ w w2 e Hfail). reflexivity.
  - apply drop_thrown in Hfail.
    rewrite (deleteNote_accepted idv Hacc). unfold bind.
    rewrite (_runAsync_thrown "deleteNote" _ w w2 e Hfail). reflexivity.
Qed.

Lemma perform_success (a : Action) (w w2 : World) :
  accepted a = true ->
  delegated env a (entered env w) = (Returned tt, w2) ->
  exists r, perform env a w = (Returned r, settled env w2).
Proof.
  intros Hacc Hok. destruct a; simpl in *.
  - unfold loadNotes, bind.
    rewrite (_runAsync_returned "loadNotes" _ w w2 tt Hok). eexists. reflexivity.
  - apply drop_returned in Hok. destruct Hok as [n Hok].
    rewrite (addNote_accepted arg (accepted_AddNote arg Hacc)). unfold bind.
    rewrite (_runAsync_returned "addNote" _ w w2 n Hok). eexists. reflexivity.
  - apply drop_returned in Hok. destruct Hok as [n Hok].
    rewrite (updateNote_accepted idv updates Hacc). unfold bind.
    rewrite (_runAsync_returned "updateNote" _ w w2 n Hok). eexists. reflexivity.
  - apply drop_returned in Hok. destruct Hok as [b Hok].
    rewrite (deleteNote_accepted idv Hacc). unfold bind.
    rewrite (_runAsync_returned "deleteNote" _ w w2 b Hok). eexists. reflexivity.
Qed.

Lemma perform_rejected (a : Action) (w : World) :
  accepted a = false ->
  perform env a w = (Thrown (JsError (rejectionMessage a)), w).
Proof.
  intros Hrej. destruct a; simpl in *.
  - discriminate Hrej.
  - destruct arg; try discriminate Hrej. reflexivity.
  - unfold bind. rewrite (updateNote_falsy idv updates w Hrej). reflexivity.
  - unfold bind. rewrite (deleteNote_falsy idv w Hrej). reflexivity.
Qed.

Lemma st_settled_failed (e : Exn) (w w2 : World) :
  st w2 = st (entered env w) ->
  st (settled env (failed env e w2)) =
  mkState (notes (st w)) (selectedNoteId (st w)) false (Some (failureMessage e)).
Proof.
  intros H. unfold settled, failed.
  rewrite !st_setStateWorld, H. unfold entered. rewrite st_setStateWorld.
  reflexivity.
Qed.

Lemma find_none_of_existsb {A : Type} (f : A -> bool) (l : list A) :
  existsb f l = false -> find f l = None.
Proof.
  induction l as [|x l IH]; simpl; [reflexivity|].
  destruct (f x); simpl; [discriminate | exact IH].
Qed.

Lemma updateNote_body_absent (idv updates : JsVal) (w : World) :
  existsb (idIs idv) (notes (st w)) = false ->
  updateNote_body env idv updates w = (Thrown (JsError "Note not found"), w).
Proof.
  intros H. unfold updateNote_body, bind, thisState.
  rewrite (find_none_of_existsb _ _ H). reflexivity.
Qed.

(** *** The bodies of addNote and deleteNote when they return *)

Lemma apiFetch_eq (path method : string) (body : option JsVal) (w : World) :
  apiFetch env path method body w =
  (answerTo env w (mkRequest (apiUrl env path) method body),
   requested (mkRequest (apiUrl env path) method body) w).
Proof. reflexivity. Qed.

Lemma commit_eq {A : Type} (P : State -> Patch) (a : A) (w : World) :
  (s <- thisState ;; _setState env (P s) ;; ret a) w =
  (Returned a, setStateWorld env (P (st w)) w).
Proof.
  unfold bind at 1. unfold thisState. unfold bind. rewrite _setState_eq. reflexivity.
Qed.

Lemma addNote_body_returned (t c : JsVal) (w w2 : World) (n : Note) :
  addNote_body env t c w = (Returned n, w2) ->
  exists w1,
    createNote env t c w = (Returned n, w1) /\
    st w2 = mkState (notes (st w) ++ [n]) (Some (id n)) (loading (st w)) (error (st w)).
Proof.
  unfold addNote_body. unfold bind at 1.
  destruct (createNote env t c w) as [[n'|e] w1] eqn:Hc; intros H.
  - rewrite (commit_eq (fun s => mkPatch (Some (notes s ++ [n'])%list)
                                          (Some (Some (id n'))) None None)) in H.
    inversion H; subst. exists w1. split; [reflexivity|].
    rewrite st_setStateWorld.
    destruct (quiet_createNote t c _ _ _ Hc) as (Hst & _). rewrite Hst. reflexivity.
  - discriminate H.
Qed.


Lemma deleteNote_body_returned (idv : JsVal) (w w2 : World) (b : bool) :
  deleteNote_body env idv w = (Returned b, w2) ->
  b = true /\
  existsb (idIs idv) (notes (st w)) = true /\
  st w2 = mkState (remaining idv (notes (st w)))
                  (if selectedIs idv (selectedNoteId (st w))
                   then firstId (remaining idv (notes (st w)))
                   else selectedNoteId (st w))
                  (loading (st w)) (error (st w)).
Proof.
  unfold deleteNote_body. unfold bind at 1. unfold thisState at 1.
  destruct (existsb (idIs idv) (notes (st w))) eqn:Hex; cbn [negb]; [|discriminate].
  unfold bind at 1.
  destruct (removeRemote env idv w) as [[[]|e] w1] eqn:Hreq; intros H; [|discriminate H].
  destruct (quiet_removeRemote idv _ _ _ Hreq) as (Hst & _).
  rewrite (commit_eq (fun s' =>
             mkPatch (Some (filter (fun n => negb (idIs idv n)) (notes s')))
                     (Some (if selectedIs idv (selectedNoteId s')
                            then firstId (filter (fun n => negb (idIs idv n)) (notes s'))
                            else selectedNoteId s')) None None)) in H.
  inversion H; subst. rewrite st_setStateWorld, Hst.
  repeat split.
Qed.

Lemma removeRemote_ok (idv : JsVal) (w : World) :
  (USE_API env = false \/
   exists data, answerTo env w (deleteRequest env idv) = Returned data) ->
  exists w1, removeRemote env idv w = (Returned tt, w1).
Proof.
  intros Hbackend. unfold removeRemote.
  destruct (USE_API env) eqn:Hapi.
  - destruct Hbackend as [Hl | [data Hdata]]; [discriminate Hl|].
    unfold bind. rewrite apiFetch_eq.
    unfold deleteRequest in Hdata. rewrite Hdata. eexists. reflexivity.
  - eexists. reflexivity.
Qed.

Lemma deleteNote_body_present (idv : JsVal) (w : World) :
  existsb (idIs idv) (notes (st w)) = true ->
  (USE_API env = false \/
   exists data, answerTo env w (deleteRequest env idv) = Returned data) ->
  exists w2, deleteNote_body env idv w = (Returned true, w2).
Proof.
  intros Hex Hbackend.
  unfold deleteNote_body. unfold bind at 1. unfold thisState at 1.
  rewrite Hex. cbn [negb]. unfold bind at 1.
  destruct (removeRemote_ok idv w Hbackend) as [w1 Hw1]. rewrite Hw1.
  rewrite (commit_eq (fun s' =>
             mkPatch (Some (filter (fun n => negb (idIs idv n)) (notes s')))
                     (Some (if selectedIs idv (selectedNoteId s')
                            then firstId (filter (fun n => negb (idIs idv n)) (notes s'))
                            else selectedNoteId s')) None None)).
  eexists. reflexivity.
Qed.

Lemma st_entered (w : World) :
  st (entered env w) = mkState (notes (st w)) (selectedNoteId (st w)) true None.
Proof. unfold entered. rewrite st_setStateWorld. reflexivity. Qed.

Lemma requests_entered (w : World) : requests (entered env w) = requests w.
Proof. unfold entered. apply requests_setStateWorld. Qed.

Lemma answerTo_entered (w : World) (req : FetchRequest) :
  answerTo env (entered env w) req = answerTo env w req.
Proof. unfold answerTo. rewrite requests_entered. reflexivity. Qed.

Lemma st_settled (w : World) :
  st (settled env w) =
  mkState (notes (st w)) (selectedNoteId (st w)) false (error (st w)).
Proof. unfold settled. rewrite st_setStateWorld. reflexivity. Qed.

Lemma existsb_remaining (idv : JsVal) (l : list Note) :
  existsb (idIs idv) (remaining idv l) = false.
Proof.
  induction l as [|n l IH]; simpl; [reflexivity|].
  destruct (idIs idv n) eqn:E; simpl; [exact IH|].
  rewrite E. exact IH.
Qed.

Lemma remaining_split (s : string) (l : list Note) :
  NoDup (map id l) ->
  In s (map id l) ->
  exists l1 n l2,
    l = (l1 ++ n :: l2)%list /\ id n = s /\ remaining (VStr s) l = (l1 ++ l2)%list.
Proof.
  induction l as [|x l IH]; simpl; intros Hnd Hin; [contradiction|].
  inversion Hnd as [|? ? Hx Hnd']; subst.
  destruct (String.eqb (id x) s) eqn:E.
  - apply String.eqb_eq in E. exists [], x, l. repeat split; [exact E|].
    simpl. clear IH Hin Hnd Hnd'.
    induction l as [|y l IH]; simpl; [reflexivity|].
    destruct (String.eqb (id y) s) eqn:Ey.
    + apply String.eqb_eq in Ey. exfalso. apply Hx. left. congruence.
    + simpl. f_equal. apply IH. intros Hin. apply Hx. right. exact Hin.
  - destruct Hin as [Hin|Hin].
    + apply String.eqb_neq in E. contradiction.
    + destruct (IH Hnd' Hin) as (l1 & n & l2 & Hl & Hn & Hr).
      exists (x :: l1), n, l2. simpl. rewrite Hr, Hl. auto.
Qed.

Lemma existsb_idIs_In (s : string) (l : list Note) :
  existsb (idIs (VStr s)) l = true <-> In s (map id l).
Proof.
  induction l as [|x l IH]; simpl.
  - split; [discriminate | contradiction].
  - rewrite Bool.orb_true_iff, IH, String.eqb_eq. tauto.
Qed.

Lemma selectedIs_VStr (s : string) (sel : option string) :
  selectedIs (VStr s) sel = true <-> sel = Some s.
Proof.
  destruct sel as [s'|]; simpl.
  - rewrite String.eqb_eq. split; congruence.
  - split; discriminate.
Qed.

Lemma truthy_VStr (s : string) : s <> "" -> truthy (VStr s) = true.
Proof. destruct s; [contradiction|reflexivity]. Qed.

(** *** Steps that always return *)




Lemma createNote_local (t c : JsVal) (w : World) :
  USE_API env = false ->
  exists n w1,
    createNote env t c w = (Returned n, w1) /\
    title n = Some (js_String env t) /\
    content n = Some (js_String env c) /\
    updatedAt n = Some (Num (dateNow env (clockReads w))) /\
    createdAt n = updatedAt n.
Proof.
  intros Hapi. unfold createNote. cbv zeta. rewrite Hapi.
  eexists _, _. split; [reflexivity|]. simpl. auto.
Qed.




Lemma loadNotes_body_local (w : World) :
  USE_API env = false ->
  loadNotes_body env w = (Returned tt, emitWorld env w).
Proof.
  intros Hapi. unfold loadNotes_body. rewrite Hapi. apply _emit_eq.
Qed.


(** *** Local mode keeps the notes canonical *)

Lemma forallb_app_one {A : Type} (f : A -> bool) (l : list A) (x : A) :
  forallb f l = true -> f x = true -> forallb f (l ++ [x]) = true.
Proof.
  intros Hl Hx. rewrite forallb_app, Hl. simpl. rewrite Hx. reflexivity.
Qed.

Lemma forallb_filter {A : Type} (f g : A -> bool) (l : list A) :
  forallb f l = true -> forallb f (filter g l) = true.
Proof.
  rewrite !forallb_forall. intros H x Hx. apply filter_In in Hx. apply H, Hx.
Qed.

Lemma forallb_replace {A : Type} (f g : A -> bool) (l : list A) (y : A) :
  forallb f l = true -> f y = true ->
  forallb f (map (fun x => if g x then y else x) l) = true.
Proof.
  intros Hl Hy. induction l as [|x l IH]; simpl; [reflexivity|].
  simpl in Hl. apply Bool.andb_true_iff in Hl. destruct Hl as [Hx Hl].
  rewrite (IH Hl). destruct (g x); [rewrite Hy | rewrite Hx]; reflexivity.
Qed.

Lemma addNote_body_local_canonical (t c : JsVal) (w w2 : World) (r : Outcome Note) :
  USE_API env = false ->
  forallb isCanonical (notes (st w)) = true ->
  addNote_body env t c w = (r, w2) ->
  forallb isCanonical (notes (st w2)) = true.
Proof.
  intros Hapi Hcan Hbody. destruct r as [n|e].
  - destruct (addNote_body_returned t c w w2 n Hbody) as (w1 & Hc & Hst).
    destruct (createNote_local t c w Hapi) as (n' & w1' & Hc' & Ht & Hco & Hu & Hk).
    rewrite Hc in Hc'. inversion Hc'; subst n' w1'.
    rewrite Hst. simpl. apply forallb_app_one; [exact Hcan|].
    unfold isCanonical. rewrite Ht, Hco, Hk, Hu. reflexivity.
  - rewrite (failsQuietly_addNote_body t c _ _ _ Hbody). exact Hcan.
Qed.

Lemma updateNote_body_local_canonical (idv updates : JsVal) (w w2 : World)
    (r : Outcome Note) :
  USE_API env = false ->
  forallb isCanonical (notes (st w)) = true ->
  updateNote_body env idv updates w = (r, w2) ->
  forallb isCanonical (notes (st w2)) = true.
Proof.
  intros Hapi Hcan. unfold updateNote_body. unfold bind at 1. unfold thisState at 1.
  destruct (find (idIs idv) (notes (st w))) as [existing|] eqn:Hfind.
  2:{ intros H. inversion H; subst. exact Hcan. }
  assert (Hex : isCanonical existing = true).
  { apply find_some in Hfind. destruct Hfind as [Hin _].
    rewrite forallb_forall in Hcan. apply Hcan, Hin. }
  unfold member. destruct (nullish updates).
  { intros H. inversion H; subst. exact Hcan. }
  unfold bind at 1. unfold ret at 1. cbv zeta. unfold bind at 1. unfold ret at 1.
  unfold bind at 1. unfold reviseNote. rewrite Hapi.
  unfold bind at 1. unfold now at 1. unfold ret at 1.
  match goal with
  | |- (s' <- thisState ;; _setState env (mkPatch (Some (map ?f (notes s'))) None None None) ;;
        ret ?u) ?w' = _ -> _ =>
      rewrite (commit_eq (fun s' => mkPatch (Some (map f (notes s'))) None None None) u w')
  end.
  intros H. inversion H; subst. rewrite st_setStateWorld. simpl.
  apply forallb_replace; [exact Hcan|].
  unfold isCanonical in *. simpl.
  destruct (title existing), (content existing), (updatedAt existing) as [[|?| |]|],
    (createdAt existing) as [[|?| |]|]; try discriminate Hex.
  destruct (getProp updates "title"), (getProp updates "content"); reflexivity.
Qed.

Lemma deleteNote_body_canonical (idv : JsVal) (w w2 : World) (r : Outcome bool) :
  forallb isCanonical (notes (st w)) = true ->
  deleteNote_body env idv w = (r, w2) ->
  forallb isCanonical (notes (st w2)) = true.
Proof.
  intros Hcan Hbody. destruct r as [b|e].
  - destruct (deleteNote_body_returned idv w w2 b Hbody) as (_ & _ & Hst).
    rewrite Hst. simpl. apply forallb_filter. exact Hcan.
  - rewrite (failsQuietly_deleteNote_body idv _ _ _ Hbody). exact Hcan.
Qed.

Lemma drop_result {A : Type} (m : M A) (w w2 : World) (r : Outcome unit) :
  (m ;; ret tt) w = (r, w2) -> exists r', m w = (r', w2).
Proof.
  unfold bind. destruct (m w) as [[a|e] w1]; intros H; inversion H; subst;
    eexists; reflexivity.
Qed.

Lemma delegated_local_canonical (a : Action) (w w2 : World) (r : Outcome unit) :
  USE_API env = false ->
  forallb isCanonical (notes (st w)) = true ->
  delegated env a w = (r, w2) ->
  forallb isCanonical (notes (st w2)) = true.
Proof.
  intros Hapi Hcan Hd. destruct a; simpl in Hd.
  - rewrite (loadNotes_body_local w Hapi) in Hd. inversion Hd; subst.
    rewrite st_emitWorld. exact Hcan.
  - apply drop_result in Hd. destruct Hd as [r' Hd].
    exact (addNote_body_local_canonical _ _ _ _ _ Hapi Hcan Hd).
  - apply drop_result in Hd. destruct Hd as [r' Hd].
    exact (updateNote_body_local_canonical _ _ _ _ _ Hapi Hcan Hd).
  - apply drop_result in Hd. destruct Hd as [r' Hd].
    exact (deleteNote_body_canonical _ _ _ _ Hcan Hd).
Qed.

(** Every accepted action ends with the state update of [settled]. *)
Lemma perform_settles (a : Action) (w : World) :
  accepted a = true ->
  exists r o w2 w3,
    perform env a w = (Returned r, settled env w3) /\
    delegated env a (entered env w) = (o, w2) /\
    notes (st w3) = notes (st w2).
Proof.
  intros Hacc.
  destruct (delegated env a (entered env w)) as [[[]|e] w2] eqn:Hd.
  - destruct (perform_success a w w2 Hacc Hd) as [r Hr].
    exists r, (Returned tt), w2, w2. auto.
  - exists (failureValue a), (Thrown e), w2, (failed env e w2).
    split; [apply perform_failure; assumption|]. split; [reflexivity|].
    unfold failed. rewrite st_setStateWorld. reflexivity.
Qed.

Lemma localStorage_setStateWorld (p : Patch) (w : World) :
  USE_API env = false ->
  hasWindow env = true ->
  setItemAccepts env (encodeState (st (setStateWorld env p w))) = true ->
  localStorage (setStateWorld env p w) =
  Some (Json (encodeState (st (setStateWorld env p w)))).
Proof.
  intros Hapi Hwin. rewrite st_setStateWorld.
  unfold setStateWorld, emitWorld, persistWorld. rewrite Hapi, Hwin. simpl.
  intros Hacc. rewrite Hacc. reflexivity.
Qed.

Lemma encodeNote_canonical (n : Note) :
  isCanonical n = true -> canonicalJson (encodeNote n).
Proof.
  unfold isCanonical, canonicalJson, encodeNote.
  destruct (title n) as [t|], (content n) as [c|], (updatedAt n) as [[|u| |]|],
    (createdAt n) as [[|k| |]|]; try discriminate.
  intros _. exists (id n), t, c, u, k. reflexivity.
Qed.

Lemma decodeNote_encodeNote (n : Note) :
  noNaN n = true -> decodeNote (encodeNote n) = Some n.
Proof.
  destruct n as [i [t|] [c|] [[|u| |]|] [[|k| |]|]]; simpl; intros H;
    try discriminate H; reflexivity.
Qed.

Lemma decodeNotes_encode (l : list Note) :
  forallb noNaN l = true -> decodeNotes (map encodeNote l) = Some l.
Proof.
  induction l as [|n l IH]; [reflexivity|].
  cbn [forallb map decodeNotes]. intros H.
  apply Bool.andb_true_iff in H. destruct H as [Hn Hl].
  rewrite (decodeNote_encodeNote n Hn), (IH Hl). reflexivity.
Qed.

Lemma decodeState_encodeState (s : State) :
  forallb noNaN (notes s) = true -> decodeState (encodeState s) = Some s.
Proof.
  intros H. destruct s as [ns sel ld err]. unfold decodeState, encodeState.
  cbn [lookupField String.eqb Ascii.eqb Bool.eqb notes selectedNoteId loading error].
  simpl in H. rewrite (decodeNotes_encode ns H).
  destruct sel, err; reflexivity.
Qed.

(** *** No action reads the stored item *)

Lemma sameStore_setLocalStorage (i : option StoredItem) (w : World) :
  sameStore (setLocalStorage i w) w.
Proof. unfold sameStore. simpl. auto. Qed.

Lemma blind_ret {A : Type} (a : A) : storageBlind (ret a).
Proof. intros w1 w2 H. simpl. auto. Qed.

Lemma blind_throw {A : Type} (e : Exn) : storageBlind (@throw A e).
Proof. intros w1 w2 H. simpl. auto. Qed.

Lemma blind_bind {A B : Type} (m : M A) (k : A -> M B) :
  storageBlind m -> (forall a, storageBlind (k a)) -> storageBlind (bind m k).
Proof.
  intros Hm Hk w1 w2 H. unfold bind.
  destruct (Hm w1 w2 H) as [Hr Hw].
  destruct (m w1) as [r1 w1'], (m w2) as [r2 w2']. simpl in Hr, Hw. subst r2.
  destruct r1 as [a|e]; [apply Hk; exact Hw | simpl; auto].
Qed.

Lemma blind_tryCatch {A : Type} (m : M A) (h : Exn -> M A) :
  storageBlind m -> (forall e, storageBlind (h e)) -> storageBlind (tryCatch m h).
Proof.
  intros Hm Hh w1 w2 H. unfold tryCatch.
  destruct (Hm w1 w2 H) as [Hr Hw].
  destruct (m w1) as [r1 w1'], (m w2) as [r2 w2']. simpl in Hr, Hw. subst r2.
  destruct r1 as [a|e]; [simpl; auto | apply Hh; exact Hw].
Qed.

Lemma blind_tryFinally {A : Type} (m : M A) (f : M unit) :
  storageBlind m -> storageBlind f -> storageBlind (tryFinally m f).
Proof.
  intros Hm Hf w1 w2 H. unfold tryFinally.
  destruct (Hm w1 w2 H) as [Hr Hw].
  destruct (m w1) as [r1 w1'], (m w2) as [r2 w2']. simpl in Hr, Hw. subst r2.
  destruct (Hf w1' w2' Hw) as [Hr' Hw'].
  destruct (f w1') as [q1 v1], (f w2') as [q2 v2]. simpl in Hr', Hw'. subst q2.
  destruct q1; simpl; auto.
Qed.

Lemma blind_thisState : storageBlind thisState.
Proof. intros w1 w2 H. unfold thisState. simpl. split; [|exact H]. f_equal. apply H. Qed.

Lemma blind_now : storageBlind (now env).
Proof.
  intros w1 w2 (H1 & H2 & H3 & H4 & H5). unfold now, sameStore. simpl.
  rewrite H4. repeat split; congruence.
Qed.

Lemma blind_random36 : storageBlind (random36 env).
Proof.
  intros w1 w2 (H1 & H2 & H3 & H4 & H5). unfold random36, sameStore. simpl.
  rewrite H5. repeat split; congruence.
Qed.

Lemma blind_apiFetch (path method : string) (body : option JsVal) :
  storageBlind (apiFetch env path method body).
Proof.
  intros w1 w2 (H1 & H2 & H3 & H4 & H5). unfold apiFetch, sameStore. simpl.
  rewrite H3. repeat split; congruence.
Qed.

Lemma sameStore_emitWorld (w1 w2 : World) :
  sameStore w1 w2 -> sameStore (emitWorld env w1) (emitWorld env w2).
Proof.
  intros (H1 & H2 & H3 & H4 & H5). unfold sameStore, emitWorld, persistWorld.
  destruct (negb (USE_API env) && hasWindow env)%bool;
    [destruct (setItemAccepts env (encodeState (st w1))),
              (setItemAccepts env (encodeState (st w2)))|];
    simpl; rewrite H1, H2; repeat split; congruence.
Qed.

Lemma blind_emit : storageBlind (_emit env).
Proof.
  intros w1 w2 H. rewrite !_emit_eq. simpl. split; [reflexivity|].
  apply sameStore_emitWorld. exact H.
Qed.

Lemma blind_setState (p : Patch) : storageBlind (_setState env p).
Proof.
  intros w1 w2 H. rewrite !_setState_eq. simpl. split; [reflexivity|].
  unfold setStateWorld. apply sameStore_emitWorld.
  destruct H as (H1 & H2 & H3 & H4 & H5). unfold sameStore. simpl.
  rewrite H1. repeat split; congruence.
Qed.

Lemma blind_mapM {A B : Type} (f : A -> M B) (l : list A) :
  (forall a, storageBlind (f a)) -> storageBlind (mapM f l).
Proof.
  intros Hf. induction l as [|a l IH]; simpl.
  - apply blind_ret.
  - apply blind_bind; [apply Hf|]. intros b.
    apply blind_bind; [apply IH|]. intros bs. apply blind_ret.
Qed.

(** The five actions are built from the steps above. *)
Lemma blind_actions :
  storageBlind (loadNotes env) /\
  (forall arg, storageBlind (addNote env arg)) /\
  (forall idv updates, storageBlind (updateNote env idv updates)) /\
  (forall idv, storageBlind (deleteNote env idv)) /\
  (forall idv, storageBlind (selectNote env idv)).
Proof.
  split; [|split; [|split; [|split]]]; intros;
    unfold loadNotes, loadNotes_body, addNote, addNote_body, createNote,
      updateNote, updateNote_body, member, reviseNote,
      deleteNote, deleteNote_body, removeRemote, selectNote, _runAsync;
    try (destruct (withDefault arg (VObj [])));
    repeat first
      [ apply blind_ret | apply blind_throw | apply blind_thisState
      | apply blind_now | apply blind_random36 | apply blind_apiFetch
      | apply blind_setState | apply blind_emit
      | apply blind_tryFinally | apply blind_tryCatch; [|intro]
      | apply blind_bind; [|intro]
      | apply blind_mapM; intro;
        unfold normalizeListed, stringOrUid, numberOrNow, uid
      | progress unfold stringOrUid, numberOrNow, uid
      | match goal with
        | |- storageBlind (if ?b then _ else _) => destruct b
        | |- storageBlind (match ?x with _ => _ end) => destruct x
        | |- storageBlind (let _ := _ in _) => cbv zeta
        end ].
Qed.

Lemma blind_perform (a : Action) : storageBlind (perform env a).
Proof.
  destruct blind_actions as (Hload & Hadd & Hupdate & Hdelete & _).
  destruct a; simpl; (apply blind_bind; [|intro; apply blind_ret]).
  - exact Hload.
  - apply Hadd.
  - apply Hupdate.
  - apply Hdelete.
Qed.

Lemma blind_selectNote (idv : JsVal) : storageBlind (selectNote env idv).
Proof. apply blind_actions. Qed.

(** *** Computations that leave [loading] and [error] alone *)

Lemma quiet_keepsFlags {A : Type} (m : M A) : quiet m -> keepsFlags m.
Proof.
  intros Hm w r w' H. destruct (Hm _ _ _ H) as (Hst & _). rewrite Hst. auto.
Qed.

Lemma keepsFlags_bind {A B : Type} (m : M A) (k : A -> M B) :
  keepsFlags m -> (forall a, keepsFlags (k a)) -> keepsFlags (bind m k).
Proof.
  intros Hm Hk w r w' H. unfold bind in H.
  destruct (m w) as [[a|e] w1] eqn:E.
  - destruct (Hm _ _ _ E) as [H1 H2]. destruct (Hk a _ _ _ H) as [H3 H4].
    split; congruence.
  - inversion H; subst. exact (Hm _ _ _ E).
Qed.

Lemma keepsFlags_setState (p : Patch) :
  p_loading p = None -> p_error p = None -> keepsFlags (_setState env p).
Proof.
  intros Hl He w r w' H. rewrite _setState_eq in H. inversion H; subst.
  rewrite st_setStateWorld. unfold applyPatch. rewrite Hl, He. simpl. auto.
Qed.

Lemma keepsFlags_emit : keepsFlags (_emit env).
Proof.
  intros w r w' H. rewrite _emit_eq in H. inversion H; subst.
  rewrite st_emitWorld. auto.
Qed.

Lemma keepsFlags_loadNotes_body : keepsFlags (loadNotes_body env).
Proof.
  unfold loadNotes_body. destruct (negb (USE_API env)).
  - apply keepsFlags_emit.
  - apply keepsFlags_bind; [apply quiet_keepsFlags, quiet_apiFetch|]. intros data.
    destruct data; try (apply quiet_keepsFlags, quiet_throw).
    apply keepsFlags_bind.
    + apply quiet_keepsFlags, quiet_mapM. apply quiet_normalizeListed.
    + intros ns. apply keepsFlags_setState; reflexivity.
Qed.

Lemma keepsFlags_addNote_body (t c : JsVal) : keepsFlags (addNote_body env t c).
Proof.
  unfold addNote_body.
  apply keepsFlags_bind; [apply quiet_keepsFlags, quiet_createNote|]. intros created.
  apply keepsFlags_bind; [apply quiet_keepsFlags, quiet_thisState|]. intros s.
  apply keepsFlags_bind; [apply keepsFlags_setState; reflexivity|]. intros _.
  apply quiet_keepsFlags, quiet_ret.
Qed.

Lemma keepsFlags_updateNote_body (idv updates : JsVal) :
  keepsFlags (updateNote_body env idv updates).
Proof.
  unfold updateNote_body.
  apply keepsFlags_bind; [apply quiet_keepsFlags, quiet_thisState|]. intros s.
  destruct (find (idIs idv) (notes s)) as [existing|].
  - apply keepsFlags_bind; [apply quiet_keepsFlags, quiet_member|]. intros ut. cbv zeta.
    apply keepsFlags_bind; [apply quiet_keepsFlags, quiet_member|]. intros uc.
    apply keepsFlags_bind; [apply quiet_keepsFlags, quiet_reviseNote|]. intros updated.
    apply keepsFlags_bind; [apply quiet_keepsFlags, quiet_thisState|]. intros s'.
    apply keepsFlags_bind; [apply keepsFlags_setState; reflexivity|]. intros _.
    apply quiet_keepsFlags, quiet_ret.
  - apply quiet_keepsFlags, quiet_throw.
Qed.

Lemma keepsFlags_deleteNote_body (idv : JsVal) : keepsFlags (deleteNote_body env idv).
Proof.
  unfold deleteNote_body.
  apply keepsFlags_bind; [apply quiet_keepsFlags, quiet_thisState|]. intros s.
  destruct (negb (existsb (idIs idv) (notes s))).
  - apply quiet_keepsFlags, quiet_throw.
  - apply keepsFlags_bind; [apply quiet_keepsFlags, quiet_removeRemote|]. intros _.
    apply keepsFlags_bind; [apply quiet_keepsFlags, quiet_thisState|]. intros s'. cbv zeta.
    apply keepsFlags_bind; [apply keepsFlags_setState; reflexivity|]. intros _.
    apply quiet_keepsFlags, quiet_ret.
Qed.

Lemma keepsFlags_delegated (a : Action) : keepsFlags (delegated env a).
Proof.
  destruct a; simpl.
  - apply keepsFlags_loadNotes_body.
  - apply keepsFlags_bind; [apply keepsFlags_addNote_body|].
    intros _. apply quiet_keepsFlags, quiet_ret.
  - apply keepsFlags_bind; [apply keepsFlags_updateNote_body|].
    intros _. apply quiet_keepsFlags, quiet_ret.
  - apply keepsFlags_bind; [apply keepsFlags_deleteNote_body|].
    intros _. apply quiet_keepsFlags, quiet_ret.
Qed.

End StoreFacts.

(** ** Failures of the delegated step (C1) *)

(** ** Rejections (C2, C3) *)

(** C2 as stated fails: with a falsy id deleteNote and updateNote reject,
    and nothing is written to [error]. *)
Lemma falsy_id_escapes :
  perform localEnv (DeleteNote VNull) emptyWorld
    = (Thrown (JsError "deleteNote requires an id"), emptyWorld) /\
  perform localEnv (UpdateNote VUndefined (VObj [("title", VStr "x")])) emptyWorld
    = (Thrown (JsError "updateNote requires an id"), emptyWorld) /\
  error (st emptyWorld) = None.
Proof. repeat split. Qed.

(** C2, amended.  An action whose arguments pass the entry check (any
    loadNotes; addNote whose argument is not [null]; updateNote and
    deleteNote with a truthy id) never rejects: its promise resolves, and a
    failure of the delegated step shows only as the string in [error],
    which is [null] when the step succeeds.  An action whose arguments do
    not pass (a falsy id, addNote(null)) rejects with an Error and leaves
    the store untouched. *)
Theorem rejects_only_at_entry_check :
  forall (env : Env) (a : Action) (w : World),
    (accepted a = true ->
       exists r wf,
         perform env a w = (Returned r, wf) /\
         (forall e w2, delegated env a (entered env w) = (Thrown e, w2) ->
                       r = failureValue a /\ error (st wf) = Some (failureMessage e)) /\
         (forall w2, delegated env a (entered env w) = (Returned tt, w2) ->
                     error (st wf) = None))
    /\
    (accepted a = false ->
       perform env a w = (Thrown (JsError (rejectionMessage a)), w)).
Proof.
  intros env a w. split.
  - intros Hacc.
    destruct (delegated env a (entered env w)) as [[[]|e] w2] eqn:Hd.
    + destruct (perform_success env a w w2 Hacc Hd) as [r Hr].
      exists r, (settled env w2). split; [exact Hr|]. split.
      * intros e w3 H. discriminate H.
      * intros w3 H. inversion H; subst w3.
        unfold settled. rewrite st_setStateWorld. simpl.
        rewrite (proj2 (keepsFlags_delegated env a _ _ _ Hd)).
        unfold entered. rewrite st_setStateWorld. reflexivity.
    + exists (failureValue a), (settled env (failed env e w2)).
      split; [apply perform_failure; assumption|]. split.
      * intros e' w3 H. inversion H; subst e' w3. split; [reflexivity|].
        rewrite (st_settled_failed env e w w2 (failsQuietly_delegated env a _ _ _ Hd)).
        reflexivity.
      * intros w3 H. discriminate H.
  - apply perform_rejected.
Qed.

Lemma rejects_only_at_entry_check_witness :
  (exists r wf,
      perform localEnv (DeleteNote (VStr "missing-id")) emptyWorld = (Returned r, wf) /\
      r = SBool false /\ error (st wf) = Some "Note not found") /\
  perform localEnv (DeleteNote (VStr "")) emptyWorld
    = (Thrown (JsError "deleteNote requires an id"), emptyWorld).
Proof.
  split.
  - destruct (proj1 (rejects_only_at_entry_check localEnv
                       (DeleteNote (VStr "missing-id")) emptyWorld) eq_refl)
      as (r & wf & Hp & Hfail & _).
    exists r, wf. split; [exact Hp|].
    apply (Hfail (JsError "Note not found") (entered localEnv emptyWorld)).
    reflexivity.
  - apply (proj2 (rejects_only_at_entry_check localEnv (DeleteNote (VStr "")) emptyWorld)).
    reflexivity.
Defined.

(** C3.  With a falsy id, deleteNote and updateNote fail with the
    argument-check Error before anything else happens: the world is the
    one they were called in, so no request was issued, no snapshot was
    emitted ([loading] was never set) and [notes] and [selectedNoteId] are
    untouched. *)
Theorem falsy_id_fails_before_io :
  forall (env : Env) (idv updates : JsVal) (w : World),
    truthy idv = false ->
    (exists wf,
        deleteNote env idv w = (Thrown (JsError "deleteNote requires an id"), wf) /\
        wf = w /\ requests wf = requests w /\ emitted wf = emitted w /\
        localStorage wf = localStorage w /\ st wf = st w) /\
    (exists wf,
        updateNote env idv updates w = (Thrown (JsError "updateNote requires an id"), wf) /\
        wf = w /\ requests wf = requests w /\ emitted wf = emitted w /\
        localStorage wf = localStorage w /\ st wf = st w).
Proof.
  intros env idv updates w Hid. split; exists w.
  - rewrite (deleteNote_falsy env idv w Hid). repeat split.
  - rewrite (updateNote_falsy env idv updates w Hid). repeat split.
Qed.

Lemma falsy_id_fails_before_io_witness :
  truthy VNull = false /\
  (exists wf,
      deleteNote localEnv VNull emptyWorld
        = (Thrown (JsError "deleteNote requires an id"), wf) /\
      wf = emptyWorld /\ requests wf = requests emptyWorld /\
      emitted wf = emitted emptyWorld /\
      localStorage wf = localStorage emptyWorld /\ st wf = st emptyWorld).
Proof.
  split; [reflexivity|].
  exact (proj1 (falsy_id_fails_before_io localEnv VNull (VObj []) emptyWorld eq_refl)).
Defined.

(** ** deleteNote and addNote (C5, C10) *)

(** C5.  For an id [s] carried by a note of the store, a deleteNote(s)
    that goes through (the id is not the empty string, and in API mode the
    DELETE request is answered with success) resolves to [true] and leaves
    [notes] without the records of that id, the others in their order:
    exactly that one record when ids are unique.  If [s] was the selected
    id, [selectedNoteId] becomes the id of the first remaining note, or
    [null] when none remains; otherwise it is unchanged. *)
Theorem deleteNote_removes_and_reselects :
  forall (env : Env) (s : string) (w : World),
    s <> "" ->
    In s (map id (notes (st w))) ->
    (USE_API env = false \/
     exists data, answerTo env w (deleteRequest env (VStr s)) = Returned data) ->
    exists wf,
      deleteNote env (VStr s) w = (Returned true, wf) /\
      notes (st wf) = filter (fun n => negb (String.eqb (id n) s)) (notes (st w)) /\
      ~ In s (map id (notes (st wf))) /\
      (NoDup (map id (notes (st w))) ->
       exists l1 n l2,
         notes (st w) = (l1 ++ n :: l2)%list /\ id n = s /\
         notes (st wf) = (l1 ++ l2)%list) /\
      (selectedNoteId (st w) = Some s ->
       selectedNoteId (st wf) = firstId (notes (st wf))) /\
      (selectedNoteId (st w) <> Some s ->
       selectedNoteId (st wf) = selectedNoteId (st w)).
Proof.
  intros env s w Hs Hin Hbackend.
  assert (Hex : existsb (idIs (VStr s)) (notes (st (entered env w))) = true).
  { rewrite st_entered. simpl. apply existsb_idIs_In. exact Hin. }
  assert (Hb : USE_API env = false \/
               exists data, answerTo env (entered env w) (deleteRequest env (VStr s))
                            = Returned data).
  { rewrite answerTo_entered. exact Hbackend. }
  destruct (deleteNote_body_present env (VStr s) (entered env w) Hex Hb) as [w2 Hbody].
  destruct (deleteNote_body_returned env _ _ _ _ Hbody) as (_ & _ & Hst).
  rewrite st_entered in Hst. simpl in Hst.
  exists (settled env w2).
  rewrite (deleteNote_accepted env (VStr s) (truthy_VStr s Hs)).
  unfold bind. rewrite (_runAsync_returned env "deleteNote" _ w w2 true Hbody).
  rewrite st_settled, Hst. simpl.
  split; [reflexivity|]. split; [reflexivity|]. split.
  { intros Hin'. apply existsb_idIs_In in Hin'.
    rewrite (existsb_remaining (VStr s)) in Hin'. discriminate Hin'. }
  split.
  { intros Hnd. destruct (remaining_split s _ Hnd Hin) as (l1 & n & l2 & H1 & H2 & H3).
    exists l1, n, l2. auto. }
  split.
  - intros Hsel. rewrite (proj2 (selectedIs_VStr s _) Hsel). reflexivity.
  - intros Hsel. destruct (selectedIs (VStr s) (selectedNoteId (st w))) eqn:E.
    + apply selectedIs_VStr in E. contradiction.
    + reflexivity.
Qed.

Lemma deleteNote_removes_and_reselects_witness :
  (exists wf,
      deleteNote localEnv (VStr "1") worldB = (Returned true, wf) /\
      map id (notes (st wf)) = ["2"] /\
      selectedNoteId (st wf) = Some "2") /\
  (exists wf,
      deleteNote (remoteEnv (Response true 204 None None)) (VStr "2") worldB
        = (Returned true, wf) /\
      map id (notes (st wf)) = ["1"] /\
      selectedNoteId (st wf) = Some "1").
Proof.
  split.
  - assert (Hs : "1" <> "") by discriminate.
    assert (Hin : In "1" (map id (notes (st worldB)))) by (simpl; auto).
    destruct (deleteNote_removes_and_reselects localEnv "1" worldB Hs Hin
                (or_introl eq_refl)) as (wf & Hrun & Hnotes & _ & _ & Hsel & _).
    exists wf. split; [exact Hrun|]. split.
    + rewrite Hnotes. reflexivity.
    + rewrite (Hsel eq_refl), Hnotes. reflexivity.
  - assert (Hs : "2" <> "") by discriminate.
    assert (Hin : In "2" (map id (notes (st worldB)))) by (simpl; auto).
    destruct (deleteNote_removes_and_reselects
                (remoteEnv (Response true 204 None None)) "2" worldB Hs Hin
                (or_intror (ex_intro _ VNull eq_refl)))
      as (wf & Hrun & Hnotes & _ & _ & _ & Hsel).
    exists wf. split; [exact Hrun|]. split.
    + rewrite Hnotes. reflexivity.
    + rewrite Hsel; [reflexivity | discriminate].
Defined.



(** ** addNote (C4) *)




(** ** selectNote (C6) *)

(** C6.  selectNote persists.  On the empty local store (no API, a
    window, a storage that accepts writes, nothing stored yet)
    selectNote(null) leaves the state as it is and writes the snapshot
    under the storage key, through the emission [_setState] ends with,
    although the method is documented as one that does not persist. *)
Lemma selectNote_writes_storage :
  exists wf,
    selectNote localEnv VNull emptyWorld = (Returned tt, wf) /\
    st wf = defaultState /\
    localStorage emptyWorld = None /\
    localStorage wf = Some (Json (encodeState defaultState)).
Proof. eexists. repeat split. Qed.

(** What selectNote does.  It never throws, issues no backend request,
    emits one snapshot and never changes [notes] or [loading].  With
    [null] (or [undefined]) it sets [selectedNoteId] to null and leaves
    [error] as it was.  With any other id that no note carries it leaves
    [selectedNoteId] as it was and sets [error] to 'Note not found'.  With
    the id of a note it sets [selectedNoteId] to that id.  The only
    effect outside the store is the one every emission has: in local mode
    (no API, a window, a storage that accepts the write) the item in
    localStorage becomes the new snapshot; otherwise it is untouched. *)
Theorem selectNote_cases :
  forall (env : Env) (idv : JsVal) (w : World),
    exists wf,
      selectNote env idv w = (Returned tt, wf) /\
      notes (st wf) = notes (st w) /\
      loading (st wf) = loading (st w) /\
      requests wf = requests w /\
      emitted wf = (emitted w ++ [st wf])%list /\
      (nullish idv = true ->
       selectedNoteId (st wf) = None /\ error (st wf) = error (st w)) /\
      (nullish idv = false -> existsb (idIs idv) (notes (st w)) = false ->
       selectedNoteId (st wf) = selectedNoteId (st w) /\
       error (st wf) = Some "Note not found") /\
      (forall s, idv = VStr s -> In s (map id (notes (st w))) ->
       selectedNoteId (st wf) = Some s /\ error (st wf) = error (st w)) /\
      localStorage wf =
        (if (negb (USE_API env) && hasWindow env
             && setItemAccepts env (encodeState (st wf)))%bool
         then Some (Json (encodeState (st wf)))
         else localStorage w).
Proof.
  intros env idv w.
  assert (Hgen : forall p,
             p_notes p = None -> p_loading p = None ->
             let wf := setStateWorld env p w in
             notes (st wf) = notes (st w) /\
             loading (st wf) = loading (st w) /\
             requests wf = requests w /\
             emitted wf = (emitted w ++ [st wf])%list /\
             localStorage wf =
               (if (negb (USE_API env) && hasWindow env
                    && setItemAccepts env (encodeState (st wf)))%bool
                then Some (Json (encodeState (st wf)))
                else localStorage w)).
  { intros p Hn Hl wf. subst wf. rewrite st_setStateWorld, requests_setStateWorld.
    unfold applyPatch. rewrite Hn, Hl. simpl.
    split; [reflexivity|]. split; [reflexivity|]. split; [reflexivity|].
    unfold setStateWorld, emitWorld, persistWorld, applyPatch. rewrite Hn, Hl. simpl.
    destruct (negb (USE_API env) && hasWindow env)%bool; simpl; [|auto].
    destruct (setItemAccepts env _); simpl; auto. }
  unfold selectNote. destruct (nullish idv) eqn:Hnull.
  - rewrite _setState_eq. eexists. split; [reflexivity|].
    destruct (Hgen (mkPatch None (Some None) None None) eq_refl eq_refl)
      as (H1 & H2 & H3 & H4 & H5).
    rewrite st_setStateWorld in *. simpl in *.
    repeat (split; [assumption|]).
    split; [auto|]. split; [discriminate|]. split; [|exact H5].
    intros s Hs. subst idv. discriminate Hnull.
  - unfold bind, thisState.
    destruct (existsb (idIs idv) (notes (st w))) eqn:Hex; cbn [negb].
    + rewrite _setState_eq. eexists. split; [reflexivity|].
      destruct (Hgen (mkPatch None (Some (asId idv)) None None) eq_refl eq_refl)
        as (H1 & H2 & H3 & H4 & H5).
      rewrite st_setStateWorld in *. simpl in *.
      repeat (split; [assumption|]).
      split; [discriminate|]. split; [discriminate|]. split; [|exact H5].
      intros s Hs _. subst idv. auto.
    + rewrite _setState_eq. eexists. split; [reflexivity|].
      destruct (Hgen (mkPatch None None None (Some (Some "Note not found")))
                  eq_refl eq_refl) as (H1 & H2 & H3 & H4 & H5).
      rewrite st_setStateWorld in *. simpl in *.
      repeat (split; [assumption|]).
      split; [discriminate|]. split; [auto|]. split; [|exact H5].
      intros s Hs Hin. subst idv. apply existsb_idIs_In in Hin.
      rewrite Hin in Hex. discriminate Hex.
Qed.

Lemma selectNote_cases_witness :
  (exists wf, selectNote localEnv (VStr "2") worldB = (Returned tt, wf) /\
              selectedNoteId (st wf) = Some "2" /\ error (st wf) = None) /\
  (exists wf, selectNote localEnv (VStr "3") worldB = (Returned tt, wf) /\
              selectedNoteId (st wf) = Some "1" /\
              error (st wf) = Some "Note not found") /\
  (exists wf, selectNote localEnv VNull worldB = (Returned tt, wf) /\
              selectedNoteId (st wf) = None /\ error (st wf) = None).
Proof.
  split; [|split].
  - destruct (selectNote_cases localEnv (VStr "2") worldB)
      as (wf & Hrun & _ & _ & _ & _ & _ & _ & Hsel & _).
    exists wf. split; [exact Hrun|]. apply (Hsel "2" eq_refl). simpl. auto.
  - destruct (selectNote_cases localEnv (VStr "3") worldB)
      as (wf & Hrun & _ & _ & _ & _ & _ & Habs & _).
    exists wf. split; [exact Hrun|]. apply Habs; reflexivity.
  - destruct (selectNote_cases localEnv VNull worldB)
      as (wf & Hrun & _ & _ & _ & _ & Hnull & _).
    exists wf. split; [exact Hrun|]. apply Hnull. reflexivity.
Defined.

(** ** loadNotes (C8) *)




(** ** Stable sorting by a comparator *)

Section StableSort.

Variables (A K : Type).
Variable cmp : A -> A -> Z.
Variable key : A -> K.
Variable le : K -> K -> Prop.

Hypothesis cmp_le : forall a b, cmp a b <= 0 <-> le (key a) (key b).
Hypothesis cmp_tie : forall a b, cmp a b = 0 <-> key a = key b.
Hypothesis le_total : forall a b, le (key a) (key b) \/ le (key b) (key a).
Hypothesis le_trans : forall x y z, le x y -> le y z -> le x z.
Hypothesis le_antisym : forall x y, le x y -> le y x -> x = y.

Lemma tieb_refl (a : A) : tieb cmp a a = true.
Proof. unfold tieb. apply Z.eqb_eq, cmp_tie. reflexivity. Qed.

Lemma tieb_key (k n : A) : tieb cmp k n = true <-> key k = key n.
Proof. unfold tieb. rewrite Z.eqb_eq. apply cmp_tie. Qed.

Lemma insertBy_perm (x : A) (l : list A) : Permutation (x :: l) (insertBy cmp x l).
Proof.
  induction l as [|y l IH]; simpl; [apply Permutation_refl|].
  destruct (cmp x y <=? 0); [apply Permutation_refl|].
  apply perm_trans with (y :: x :: l); [apply perm_swap|].
  apply perm_skip. exact IH.
Qed.

Lemma sortBy_perm (l : list A) : Permutation l (sortBy cmp l).
Proof.
  induction l as [|x l IH]; simpl; [apply perm_nil|].
  apply perm_trans with (x :: sortBy cmp l); [apply perm_skip; exact IH|].
  apply insertBy_perm.
Qed.

Lemma before_trans (a b c : A) : before cmp a b -> before cmp b c -> before cmp a c.
Proof. unfold before. rewrite !cmp_le. apply le_trans. Qed.

Lemma before_total (a b : A) : before cmp a b \/ before cmp b a.
Proof. unfold before. rewrite !cmp_le. apply le_total. Qed.

Lemma insertBy_sorted (x : A) (l : list A) :
  StronglySorted (before cmp) l -> StronglySorted (before cmp) (insertBy cmp x l).
Proof.
  induction l as [|y l IH]; simpl; intros Hs.
  - constructor; constructor.
  - inversion Hs as [|? ? Hl Hy]; subst.
    destruct (cmp x y <=? 0) eqn:E.
    + apply Z.leb_le in E. constructor; [exact Hs|].
      constructor; [exact E|].
      eapply Forall_impl; [|exact Hy]. intros z Hz. exact (before_trans _ _ _ E Hz).
    + apply Z.leb_gt in E. constructor; [apply IH; exact Hl|].
      apply (Permutation_Forall (insertBy_perm x l)).
      constructor; [|exact Hy].
      destruct (before_total y x) as [H|H]; [exact H|]. unfold before in H. lia.
Qed.

Lemma sortBy_sorted (l : list A) : StronglySorted (before cmp) (sortBy cmp l).
Proof.
  induction l as [|x l IH]; simpl; [constructor|].
  apply insertBy_sorted. exact IH.
Qed.

Lemma insertBy_stable (k x : A) (l : list A) :
  filter (tieb cmp k) (insertBy cmp x l) = filter (tieb cmp k) (x :: l).
Proof.
  induction l as [|y l IH]; [reflexivity|].
  cbn [insertBy]. destruct (cmp x y <=? 0) eqn:E; [reflexivity|].
  apply Z.leb_gt in E.
  cbn [filter]. rewrite IH. cbn [filter].
  destruct (tieb cmp k x) eqn:Hx, (tieb cmp k y) eqn:Hy; try reflexivity.
  apply tieb_key in Hx, Hy.
  assert (cmp x y = 0) by (apply cmp_tie; congruence). lia.
Qed.

Lemma sortBy_stable (k : A) (l : list A) :
  filter (tieb cmp k) (sortBy cmp l) = filter (tieb cmp k) l.
Proof.
  induction l as [|x l IH]; [reflexivity|].
  cbn [sortBy fold_right]. fold (sortBy cmp l).
  rewrite insertBy_stable. cbn [filter]. rewrite IH. reflexivity.
Qed.

Lemma stable_sorted_unique (l1 l2 : list A) :
  StronglySorted (before cmp) l1 ->
  StronglySorted (before cmp) l2 ->
  (forall k, filter (tieb cmp k) l1 = filter (tieb cmp k) l2) ->
  l1 = l2.
Proof.
  revert l2. induction l1 as [|x l1 IH]; intros l2 Hs1 Hs2 Hf.
  - destruct l2 as [|y l2]; [reflexivity|].
    specialize (Hf y). cbn [filter] in Hf. rewrite tieb_refl in Hf. discriminate Hf.
  - destruct l2 as [|y l2].
    { specialize (Hf x). cbn [filter] in Hf. rewrite tieb_refl in Hf. discriminate Hf. }
    inversion Hs1 as [|? ? Hs1' Hx]; subst.
    inversion Hs2 as [|? ? Hs2' Hy]; subst.
    assert (Hxy : before cmp x y).
    { assert (Hin : In y (filter (tieb cmp y) (x :: l1))).
      { rewrite Hf. cbn [filter]. rewrite tieb_refl. left. reflexivity. }
      apply filter_In in Hin. destruct Hin as [[Hin|Hin] _].
      - subst. unfold before. apply cmp_le.
        destruct (le_total y y); assumption.
      - rewrite Forall_forall in Hx. apply Hx. exact Hin. }
    assert (Hyx : before cmp y x).
    { assert (Hin : In x (filter (tieb cmp x) (y :: l2))).
      { rewrite <- Hf. cbn [filter]. rewrite tieb_refl. left. reflexivity. }
      apply filter_In in Hin. destruct Hin as [[Hin|Hin] _].
      - subst. unfold before. apply cmp_le.
        destruct (le_total x x); assumption.
      - rewrite Forall_forall in Hy. apply Hy. exact Hin. }
    assert (Hk : key x = key y).
    { apply le_antisym; apply cmp_le; assumption. }
    assert (Heq : x = y).
    { pose proof (Hf x) as H. cbn [filter] in H.
      rewrite tieb_refl, (proj2 (tieb_key x y) Hk) in H. congruence. }
    subst y. f_equal. apply IH; try assumption.
    intros k. specialize (Hf k). cbn [filter] in Hf.
    destruct (tieb cmp k x); congruence.
Qed.

End StableSort.

(** ** sortedNotes *)

Lemma unitsCompare_refl (x : list N) : unitsCompare x x = Eq.
Proof.
  induction x as [|a x IH]; simpl; [reflexivity|].
  rewrite N.compare_refl. exact IH.
Qed.

Lemma unitsCompare_eq (x y : list N) : unitsCompare x y = Eq -> x = y.
Proof.
  revert y. induction x as [|a x IH]; intros [|b y]; simpl; try discriminate;
    [reflexivity|].
  destruct (N.compare_spec a b) as [Hab|Hab|Hab]; try discriminate.
  intros H. subst b. f_equal. apply IH. exact H.
Qed.

Lemma unitsCompare_antisym (x y : list N) :
  unitsCompare y x = CompOpp (unitsCompare x y).
Proof.
  revert y. induction x as [|a x IH]; intros [|b y]; simpl; try reflexivity.
  rewrite (N.compare_antisym a b).
  destruct (a ?= b)%N; simpl; [apply IH | reflexivity | reflexivity].
Qed.

Lemma unitsCompare_trans (c : comparison) (x y z : list N) :
  unitsCompare x y = c -> unitsCompare y z = c -> unitsCompare x z = c.
Proof.
  revert y z. induction x as [|a x IH]; intros [|b y] [|d z]; simpl;
    try congruence.
  destruct (N.compare_spec a b) as [Hab|Hab|Hab];
  destruct (N.compare_spec b d) as [Hbd|Hbd|Hbd];
  destruct (N.compare_spec a d) as [Had|Had|Had];
    try lia; try congruence; try apply IH.
Qed.

Lemma unitsLeb_total (x y : list N) : unitsLeb x y = true \/ unitsLeb y x = true.
Proof.
  unfold unitsLeb. rewrite (unitsCompare_antisym x y).
  destruct (unitsCompare x y); simpl; auto.
Qed.

Lemma unitsLeb_trans (x y z : list N) :
  unitsLeb x y = true -> unitsLeb y z = true -> unitsLeb x z = true.
Proof.
  unfold unitsLeb.
  destruct (unitsCompare x y) eqn:H12; intros H1; try discriminate H1;
  destruct (unitsCompare y z) eqn:H23; intros H2; try discriminate H2.
  - apply unitsCompare_eq in H12. subst. rewrite H23. reflexivity.
  - apply unitsCompare_eq in H12. subst. rewrite H23. reflexivity.
  - apply unitsCompare_eq in H23. subst. rewrite H12. reflexivity.
  - rewrite (unitsCompare_trans Lt _ _ _ H12 H23). reflexivity.
Qed.

Lemma unitsLeb_antisym (x y : list N) :
  unitsLeb x y = true -> unitsLeb y x = true -> x = y.
Proof.
  unfold unitsLeb. rewrite (unitsCompare_antisym x y).
  destruct (unitsCompare x y) eqn:H; simpl; try discriminate.
  intros _ _. apply unitsCompare_eq. exact H.
Qed.

Lemma timeOr0_not_NaN (t : option JsNum) : timeOr0 t <> NaN.
Proof. destruct t as [[| | |]|]; discriminate. Qed.

Lemma noteOrder_le (eng : StringEngine) (a b : Note) :
  noteOrder eng a b <= 0 <-> keyLe (noteKey eng a) (noteKey eng b).
Proof.
  unfold noteOrder, comparator, keyLe, noteKey, stringLt, unitsLeb. cbn [fst snd].
  pose proof (timeOr0_not_NaN (updatedAt a)) as Ha.
  pose proof (timeOr0_not_NaN (updatedAt b)) as Hb.
  set (ua := codeUnits eng (titleKey eng (title a))).
  set (ub := codeUnits eng (titleKey eng (title b))).
  destruct (timeOr0 (updatedAt a)) as [|ta| |], (timeOr0 (updatedAt b)) as [|tb| |];
    try (contradiction Ha; reflexivity); try (contradiction Hb; reflexivity);
    cbn [js_sub notZero compareValue isFinite timeLt];
    try (split; [intros H; try lia; try (left; exact I); right; auto
                | intros [H|[H _]]; try lia; try contradiction; discriminate H]).
  destruct (Z.eqb_spec (tb - ta) 0) as [E|E]; cbn [negb compareValue].
  - rewrite (unitsCompare_antisym ua ub).
    destruct (unitsCompare ua ub); cbn [CompOpp compareValue]; split; intros H;
      try lia; try (right; split; [f_equal; lia | reflexivity]);
      try (destruct H as [H|[_ H]]; [lia | discriminate H]).
  - split; intros H; [left; lia|]. destruct H as [H|[H _]]; [lia|].
    inversion H. lia.
Qed.

Lemma noteOrder_tie (eng : StringEngine) (a b : Note) :
  noteOrder eng a b = 0 <-> noteKey eng a = noteKey eng b.
Proof.
  unfold noteOrder, comparator, noteKey, stringLt.
  pose proof (timeOr0_not_NaN (updatedAt a)) as Ha.
  pose proof (timeOr0_not_NaN (updatedAt b)) as Hb.
  set (ua := codeUnits eng (titleKey eng (title a))).
  set (ub := codeUnits eng (titleKey eng (title b))).
  destruct (timeOr0 (updatedAt a)) as [|ta| |], (timeOr0 (updatedAt b)) as [|tb| |];
    try (contradiction Ha; reflexivity); try (contradiction Hb; reflexivity);
    cbn [js_sub notZero compareValue isFinite];
    try (split; intros H; [try lia; reflexivity | try discriminate H; reflexivity]).
  destruct (Z.eqb_spec (tb - ta) 0) as [E|E]; cbn [negb compareValue].
  - rewrite (unitsCompare_antisym ua ub).
    destruct (unitsCompare ua ub) eqn:Hc; cbn [CompOpp compareValue]; split; intros H;
      try lia.
    + apply unitsCompare_eq in Hc. rewrite Hc. do 2 f_equal. lia.
    + inversion H as [[Ht Hs]]. rewrite Hs, unitsCompare_refl in Hc. discriminate Hc.
    + inversion H as [[Ht Hs]]. rewrite Hs, unitsCompare_refl in Hc. discriminate Hc.
  - split; intros H; [lia|]. inversion H. lia.
Qed.

Lemma keyLe_total (eng : StringEngine) (a b : Note) :
  keyLe (noteKey eng a) (noteKey eng b) \/ keyLe (noteKey eng b) (noteKey eng a).
Proof.
  rewrite <- !noteOrder_le. unfold noteOrder, comparator, stringLt.
  pose proof (timeOr0_not_NaN (updatedAt a)) as Ha.
  pose proof (timeOr0_not_NaN (updatedAt b)) as Hb.
  set (ua := codeUnits eng (titleKey eng (title a))).
  set (ub := codeUnits eng (titleKey eng (title b))).
  destruct (timeOr0 (updatedAt a)) as [|ta| |], (timeOr0 (updatedAt b)) as [|tb| |];
    try (contradiction Ha; reflexivity); try (contradiction Hb; reflexivity);
    cbn [js_sub notZero compareValue]; try lia.
  destruct (Z.eqb_spec (tb - ta) 0) as [E|E], (Z.eqb_spec (ta - tb) 0) as [E'|E'];
    cbn [negb compareValue]; try lia.
  rewrite (unitsCompare_antisym ua ub).
  destruct (unitsCompare ua ub); cbn [CompOpp compareValue]; lia.
Qed.

Lemma timeLt_trans (x y z : JsNum) : timeLt x y -> timeLt y z -> timeLt x z.
Proof. destruct x, y, z; simpl; try tauto. lia. Qed.

Lemma timeLt_irrefl (x : JsNum) : ~ timeLt x x.
Proof. destruct x; simpl; try tauto. lia. Qed.

Lemma keyLe_trans (x y z : JsNum * list N) : keyLe x y -> keyLe y z -> keyLe x z.
Proof.
  unfold keyLe. intros [H1|[H1 L1]] [H2|[H2 L2]].
  - left. exact (timeLt_trans _ _ _ H2 H1).
  - left. rewrite <- H2. exact H1.
  - left. rewrite H1. exact H2.
  - right. split; [congruence|]. exact (unitsLeb_trans _ _ _ L1 L2).
Qed.

Lemma keyLe_antisym (x y : JsNum * list N) : keyLe x y -> keyLe y x -> x = y.
Proof.
  unfold keyLe. destruct x as [tx sx], y as [ty sy]. cbn [fst snd].
  intros [H1|[H1 L1]] [H2|[H2 L2]].
  - exfalso. exact (timeLt_irrefl _ (timeLt_trans _ _ _ H1 H2)).
  - exfalso. subst. exact (timeLt_irrefl _ H1).
  - exfalso. subst. exact (timeLt_irrefl _ H2).
  - f_equal; [exact H1|]. apply unitsLeb_antisym; assumption.
Qed.

Lemma precedes_iff (eng : StringEngine) (a b : Note) :
  precedes eng a b <-> noteOrder eng a b <= 0.
Proof.
  rewrite noteOrder_le. unfold precedes, keyLe, noteKey. cbn [fst snd].
  destruct (isFinite (timeOr0 (updatedAt a))) eqn:Fa.
  - split; (intros [H|[H L]]; [left; exact H|right; split; [exact H|]]).
    + rewrite <- H, Fa. apply L. reflexivity.
    + intros _. rewrite <- H, Fa in L. exact L.
  - split; (intros [H|[H L]]; [left; exact H|right; split; [exact H|]]).
    + rewrite <- H, Fa. reflexivity.
    + intros F. discriminate F.
Qed.

Lemma StronglySorted_impl {A : Type} (R S : A -> A -> Prop) (l : list A) :
  (forall a b, R a b -> S a b) -> StronglySorted R l -> StronglySorted S l.
Proof.
  intros HRS Hs. induction Hs as [|a l Hs IH Ha]; constructor; [exact IH|].
  eapply Forall_impl; [|exact Ha]. intros b. apply HRS.
Qed.

(** The order of [sortedNotes].  It returns a permutation of [notes] in
    which every note precedes all the notes after it: later [updatedAt]
    first, and at equal finite [updatedAt] the smaller title first, titles
    compared lower-cased and by code units.  Of two notes one precedes the
    other, and the sort is stable (the notes the comparator rates equal
    keep the order they have in [notes]); hence the result is the only
    one: any ordered list that keeps the notes rated equal in their order
    is the list [sortedNotes] returns.  The comparator rates two notes
    equal when their times are equal and either infinite, or finite with
    lower-cased titles of the same code units.  For the notes of Scenario
    B the ids come out as ["2"; "1"]. *)
Theorem sortedNotes_stable_order :
  forall (eng : StringEngine) (s : State),
    Permutation (notes s) (sortedNotes eng s) /\
    StronglySorted (precedes eng) (sortedNotes eng s) /\
    (forall a b, precedes eng a b \/ precedes eng b a) /\
    (forall k n, tiedWith eng k n = true <->
                 timeOr0 (updatedAt k) = timeOr0 (updatedAt n) /\
                 (isFinite (timeOr0 (updatedAt k)) = true ->
                  codeUnits eng (titleKey eng (title k))
                    = codeUnits eng (titleKey eng (title n)))) /\
    (forall k, filter (tiedWith eng k) (sortedNotes eng s)
               = filter (tiedWith eng k) (notes s)) /\
    (forall l,
        StronglySorted (precedes eng) l ->
        (forall k, filter (tiedWith eng k) l = filter (tiedWith eng k) (notes s)) ->
        l = sortedNotes eng s) /\
    map id (sortedNotes eng scenarioB) = ["2"; "1"]%string.
Proof.
  intros eng s. unfold sortedNotes.
  split; [apply sortBy_perm|].
  split.
  { apply StronglySorted_impl with (R := before (noteOrder eng)).
    - intros a b. apply precedes_iff.
    - apply (sortBy_sorted Note _ (noteOrder eng) (noteKey eng) keyLe
               (noteOrder_le eng) (keyLe_total eng) keyLe_trans). }
  split.
  { intros a b. rewrite !precedes_iff, !noteOrder_le. apply keyLe_total. }
  split.
  { intros k n. unfold tiedWith. rewrite Z.eqb_eq, noteOrder_tie. unfold noteKey.
    split.
    - cbv zeta. intros H. injection H as Ht Hu. split; [exact Ht|].
      intros F. rewrite <- Ht, F in Hu. exact Hu.
    - cbv zeta. intros [H1 H2]. rewrite <- H1.
      destruct (isFinite (timeOr0 (updatedAt k))); [|reflexivity].
      rewrite (H2 eq_refl). reflexivity. }
  split.
  { intros k. apply (sortBy_stable Note _ (noteOrder eng) (noteKey eng)
                       (noteOrder_tie eng)). }
  split; [|reflexivity].
  intros l Hl Hf.
  apply (stable_sorted_unique Note _ (noteOrder eng) (noteKey eng) keyLe
           (noteOrder_le eng) (noteOrder_tie eng) (keyLe_total eng) keyLe_antisym).
  - apply StronglySorted_impl with (R := precedes eng); [|exact Hl].
    intros a b. apply precedes_iff.
  - apply (sortBy_sorted Note _ (noteOrder eng) (noteKey eng) keyLe
             (noteOrder_le eng) (keyLe_total eng) keyLe_trans).
  - intros k. transitivity (filter (tiedWith eng k) (notes s)); [exact (Hf k)|].
    symmetry.
    apply (sortBy_stable Note _ (noteOrder eng) (noteKey eng) (noteOrder_tie eng)).
Qed.

Lemma sortedNotes_stable_order_witness :
  StronglySorted (precedes utf8Engine)
    [mkNote "2" (Some "apple") (Some "") (Some (Num 100)) (Some (Num 2));
     mkNote "1" (Some "Banana") (Some "") (Some (Num 100)) (Some (Num 1))] /\
  [mkNote "2" (Some "apple") (Some "") (Some (Num 100)) (Some (Num 2));
   mkNote "1" (Some "Banana") (Some "") (Some (Num 100)) (Some (Num 1))]
    = sortedNotes utf8Engine (titledAt (Num 100)).
Proof.
  destruct (sortedNotes_stable_order utf8Engine (titledAt (Num 100)))
    as (_ & Hsorted & _ & _ & Hstable & Huniq & _).
  split; [exact Hsorted|].
  apply Huniq; [exact Hsorted | exact Hstable].
Defined.

(** C7.  Two notes whose [updatedAt] is the same infinity are left in the
    order they have in [notes], whatever their titles: the difference of
    the two times is [NaN], which the comparator returns without looking
    at the titles and which [sort] reads as a tie.  Such notes reach the
    store through loadNotes, from a list whose entries carry an
    [updatedAt] beyond the range of the finite numbers.  At an equal
    finite [updatedAt] the same two notes come out by title, case ignored:
    'apple' before 'Banana', and 'é' and 'É' rated equal. *)
Lemma sortedNotes_ignores_titles_at_infinity :
  (exists wf,
      loadNotes
        (remoteEnv
           (Response true 200 None
              (Some (VArr [VObj [("id", VStr "1"); ("title", VStr "Banana");
                                 ("content", VStr ""); ("updatedAt", VNum PosInf);
                                 ("createdAt", VNum (Num 1))];
                           VObj [("id", VStr "2"); ("title", VStr "apple");
                                 ("content", VStr ""); ("updatedAt", VNum PosInf);
                                 ("createdAt", VNum (Num 2))]]))))
        emptyWorld = (Returned tt, wf) /\
      notes (st wf) = notes (titledAt PosInf) /\
      error (st wf) = None) /\
  comparator utf8Engine
    (mkNote "1" (Some "Banana") (Some "") (Some PosInf) (Some (Num 1)))
    (mkNote "2" (Some "apple") (Some "") (Some PosInf) (Some (Num 2))) = NaN /\
  map id (sortedNotes utf8Engine (titledAt PosInf)) = ["1"; "2"]%string /\
  map id (sortedNotes utf8Engine (titledAt (Num 100))) = ["2"; "1"]%string /\
  map id (sortedNotes utf8Engine
            (mkState [mkNote "1" (Some "é") None (Some (Num 100)) None;
                      mkNote "2" (Some "É") None (Some (Num 100)) None;
                      mkNote "3" (Some "Éa") None (Some (Num 100)) None;
                      mkNote "4" (Some "éB") None (Some (Num 100)) None]
                     None false None)) = ["1"; "2"; "3"; "4"]%string.
Proof.
  split; [eexists; split; [reflexivity|split; reflexivity]|].
  split; [reflexivity|]. split; [reflexivity|]. split; reflexivity.
Qed.

(** ** The persisted snapshot (C9) *)

(** C9 as stated fails: without an API the snapshot is still not written
    when there is no [window], nor when the storage refuses the write; the
    action succeeds all the same. *)
Lemma local_write_is_guarded :
  (USE_API noWindowEnv = false /\
   exists n wf,
     addNote noWindowEnv (VObj [("title", VStr "Groceries")]) emptyWorld
       = (Returned (Some n), wf) /\
     notes (st wf) = [n] /\ localStorage wf = None) /\
  (USE_API fullStorageEnv = false /\
   exists n wf,
     addNote fullStorageEnv (VObj [("title", VStr "Groceries")]) emptyWorld
       = (Returned (Some n), wf) /\
     notes (st wf) = [n] /\ localStorage wf = None).
Proof.
  split; (split; [reflexivity|]); eexists _, _;
    (split; [vm_compute; reflexivity|]); split; reflexivity.
Qed.

(** C9, amended.  Without an API and with a [window]: every accepted
    action (so every successful mutating one) ends with an emission that
    writes the snapshot, so that, when the storage accepts that write, the
    item under the storage key is the serialisation of the final state,
    whose [notes] property is the full note array; when the notes were
    canonical before the action they are canonical after it and so is each
    serialised entry.  The item is read when the module is loaded, to
    build the initial state: a snapshot the store wrote restores the state
    it was written from, no item gives the default state; and no action
    reads the item afterwards (its outcome and the resulting state do not
    depend on it). *)
Theorem local_snapshot_written_and_read :
  forall env : Env,
    USE_API env = false ->
    hasWindow env = true ->
    (forall (a : Action) (w : World),
        accepted a = true ->
        exists r wf,
          perform env a w = (Returned r, wf) /\
          (setItemAccepts env (encodeState (st wf)) = true ->
           localStorage wf = Some (Json (encodeState (st wf))) /\
           getProp (encodeState (st wf)) "notes"
             = VArr (map encodeNote (notes (st wf)))) /\
          (forallb isCanonical (notes (st w)) = true ->
           forallb isCanonical (notes (st wf)) = true /\
           Forall canonicalJson (map encodeNote (notes (st wf)))))
    /\
    (forall s : State,
        forallb noNaN (notes s) = true ->
        initialState env (Some (Json (encodeState s))) = Some s)
    /\
    initialState env None = Some defaultState
    /\
    (forall (a : Action) (w : World) (item : option StoredItem),
        fst (perform env a (setLocalStorage item w)) = fst (perform env a w) /\
        st (snd (perform env a (setLocalStorage item w)))
          = st (snd (perform env a w)))
    /\
    (forall (idv : JsVal) (w : World) (item : option StoredItem),
        st (snd (selectNote env idv (setLocalStorage item w)))
          = st (snd (selectNote env idv w))).
Proof.
  intros env Hapi Hwin. split; [|split; [|split; [|split]]].
  - intros a w Hacc.
    destruct (perform_settles env a w Hacc) as (r & o & w2 & w3 & Hrun & Hd & Hnotes).
    exists r, (settled env w3). split; [exact Hrun|]. split.
    + intros Hok. split; [|reflexivity].
      unfold settled in *. apply localStorage_setStateWorld; assumption.
    + intros Hcan.
      assert (Hcan' : forallb isCanonical (notes (st (settled env w3))) = true).
      { rewrite st_settled. simpl. rewrite Hnotes.
        apply (delegated_local_canonical env a (entered env w) w2 o Hapi); [|exact Hd].
        rewrite st_entered. exact Hcan. }
      split; [exact Hcan'|].
      apply Forall_map. rewrite forallb_forall in Hcan'. apply Forall_forall.
      intros n Hn. apply encodeNote_canonical, Hcan', Hn.
  - intros s Hs. unfold initialState. rewrite Hapi, Hwin. simpl.
    apply decodeState_encodeState. exact Hs.
  - unfold initialState. rewrite Hapi, Hwin. reflexivity.
  - intros a w item.
    destruct (blind_perform env a _ _ (sameStore_setLocalStorage item w)) as [Hr Hw].
    split; [exact Hr | apply Hw].
  - intros idv w item.
    destruct (blind_selectNote env idv _ _ (sameStore_setLocalStorage item w)) as [_ Hw].
    apply Hw.
Qed.

Lemma local_snapshot_written_and_read_witness :
  (exists r wf,
      perform localEnv (AddNote (VObj [("title", VStr "Groceries")])) emptyWorld
        = (Returned r, wf) /\
      localStorage wf = Some (Json (encodeState (st wf))) /\
      Forall canonicalJson (map encodeNote (notes (st wf)))) /\
  initialState localEnv storedB = Some scenarioB.
Proof.
  destruct (local_snapshot_written_and_read localEnv eq_refl eq_refl)
    as (Hwrite & Hread & _).
  split.
  - destruct (Hwrite (AddNote (VObj [("title", VStr "Groceries")])) emptyWorld eq_refl)
      as (r & wf & Hrun & Hstore & Hcan).
    exists r, wf. split; [exact Hrun|]. split.
    + apply Hstore. reflexivity.
    + apply Hcan. reflexivity.
  - apply (Hread scenarioB). reflexivity.
Defined.

(** * Further properties of the store and of its callers *)

(** ** More facts about the actions *)

Section MoreStoreFacts.

Variable env : Env.

Lemma clockReads_emitWorld (w : World) : clockReads (emitWorld env w) = clockReads w.
Proof.
  unfold emitWorld, persistWorld.
  destruct (negb (USE_API env) && hasWindow env)%bool; [|reflexivity].
  destruct (setItemAccepts env _); reflexivity.
Qed.

Lemma clockReads_entered (w : World) : clockReads (entered env w) = clockReads w.
Proof. unfold entered, setStateWorld. rewrite clockReads_emitWorld. reflexivity. Qed.



Lemma emitted_setStateWorld (p : Patch) (w : World) :
  emitted (setStateWorld env p w) = (emitted w ++ [applyPatch (st w) p])%list.
Proof.
  unfold setStateWorld, emitWorld, persistWorld.
  destruct (negb (USE_API env) && hasWindow env)%bool; [|reflexivity].
  destruct (setItemAccepts env _); reflexivity.
Qed.

Lemma emitted_emitWorld (w : World) :
  emitted (emitWorld env w) = (emitted w ++ [st w])%list.
Proof.
  unfold emitWorld, persistWorld.
  destruct (negb (USE_API env) && hasWindow env)%bool; [|reflexivity].
  destruct (setItemAccepts env _); reflexivity.
Qed.

(** *** updateNote when the note is found *)

Lemma find_idIs_VStr (idv : JsVal) (l : list Note) (n : Note) :
  find (idIs idv) l = Some n -> idv = VStr (id n) /\ In n l.
Proof.
  intros H. apply find_some in H. destruct H as [Hin Hid]. split; [|exact Hin].
  destruct idv; try discriminate Hid. simpl in Hid.
  apply String.eqb_eq in Hid. rewrite Hid. reflexivity.
Qed.

Lemma find_some_of_existsb {A : Type} (f : A -> bool) (l : list A) :
  existsb f l = true -> exists x, find f l = Some x.
Proof.
  induction l as [|x l IH]; simpl; [discriminate|].
  destruct (f x); [intros _; exists x; reflexivity | exact IH].
Qed.

Lemma updateNote_body_found (idv updates : JsVal) (existing u : Note) (w w1 : World) :
  find (idIs idv) (notes (st w)) = Some existing ->
  nullish updates = false ->
  reviseNote env idv existing
    (payloadField env updates "title" (title existing))
    (payloadField env updates "content" (content existing)) w = (Returned u, w1) ->
  updateNote_body env idv updates w =
  (Returned u,
   setStateWorld env
     (mkPatch (Some (map (fun n => if idIs idv n then u else n) (notes (st w))))
              None None None) w1).
Proof.
  intros Hfind Hnull Hrev.
  unfold updateNote_body. unfold bind at 1. unfold thisState at 1. rewrite Hfind.
  unfold member. rewrite Hnull. unfold bind at 1. unfold ret at 1. cbv zeta.
  unfold bind at 1. unfold ret at 1. unfold bind at 1.
  match goal with
  | |- context [reviseNote env idv existing ?a ?b w] =>
      change a with (payloadField env updates "title" (title existing));
      change b with (payloadField env updates "content" (content existing))
  end.
  rewrite Hrev.
  rewrite (commit_eq env
             (fun s' => mkPatch (Some (map (fun n => if idIs idv n then u else n) (notes s')))
                                None None None) u w1).
  destruct (quiet_reviseNote env idv existing _ _ _ _ _ Hrev) as (Hst & _).
  rewrite Hst. reflexivity.
Qed.

Lemma updateNote_body_null (idv : JsVal) (existing : Note) (w : World) :
  find (idIs idv) (notes (st w)) = Some existing ->
  updateNote_body env idv VNull w = (Thrown (JsError (readNullMessage "title")), w).
Proof.
  intros Hfind. unfold updateNote_body. unfold bind at 1. unfold thisState at 1.
  rewrite Hfind. reflexivity.
Qed.

Lemma reviseNote_local (idv : JsVal) (existing : Note) (pt pc : option string) (w : World) :
  USE_API env = false ->
  exists w1,
    reviseNote env idv existing pt pc w =
    (Returned (mkNote (id existing) pt pc
                      (Some (Num (dateNow env (clockReads w)))) (createdAt existing)), w1).
Proof.
  intros Hapi. unfold reviseNote. rewrite Hapi. eexists. reflexivity.
Qed.


Lemma map_id_replace (s : string) (u : Note) (l : list Note) :
  id u = s ->
  map id (map (fun n => if idIs (VStr s) n then u else n) l) = map id l.
Proof.
  intros Hu. induction l as [|n l IH]; [reflexivity|].
  cbn [map]. rewrite IH. destruct (idIs (VStr s) n) eqn:E; [|reflexivity].
  simpl in E. apply String.eqb_eq in E. congruence.
Qed.

End MoreStoreFacts.

Lemma payloadField_withDefault (env : Env) (updates : JsVal) (k : string)
    (old : option string) :
  payloadField env (withDefault updates (VObj [])) k old = payloadField env updates k old.
Proof. destruct updates; reflexivity. Qed.

Lemma nullish_withDefault (updates : JsVal) :
  updates <> VNull -> nullish (withDefault updates (VObj [])) = false.
Proof. destruct updates; try reflexivity. intros H. contradiction H. reflexivity. Qed.

(** ** updateNote when it succeeds *)

(** A successful updateNote without an API: the run and the state it
    ends in. *)
Lemma updateNote_local_run (env : Env) (s : string) (updates : JsVal) (w : World)
    (existing : Note) :
  USE_API env = false ->
  s <> "" ->
  updates <> VNull ->
  find (idIs (VStr s)) (notes (st w)) = Some existing ->
  let u := mkNote s (payloadField env updates "title" (title existing))
                    (payloadField env updates "content" (content existing))
                    (Some (Num (dateNow env (clockReads w))))
                    (createdAt existing) in
  exists wf,
    updateNote env (VStr s) updates w = (Returned (Some u), wf) /\
    st wf = mkState (map (fun n => if String.eqb (id n) s then u else n) (notes (st w)))
                    (selectedNoteId (st w)) false None.
Proof.
  intros Hapi Hs Hupd Hfind u.
  assert (Hfind' : find (idIs (VStr s)) (notes (st (entered env w))) = Some existing).
  { rewrite st_entered. exact Hfind. }
  destruct (find_idIs_VStr _ _ _ Hfind) as [Hid _]. injection Hid as Hs'.
  destruct (reviseNote_local env (VStr s) existing
              (payloadField env (withDefault updates (VObj [])) "title" (title existing))
              (payloadField env (withDefault updates (VObj [])) "content" (content existing))
              (entered env w) Hapi) as (w1 & Hrev).
  pose proof (updateNote_body_found env (VStr s) (withDefault updates (VObj [])) existing _
                (entered env w) w1 Hfind' (nullish_withDefault updates Hupd) Hrev) as Hbody.
  rewrite !payloadField_withDefault, clockReads_entered, <- Hs' in Hbody.
  fold u in Hbody.
  eexists. rewrite (updateNote_accepted env (VStr s) updates (truthy_VStr s Hs)).
  rewrite (_runAsync_returned env "updateNote" _ w _ _ Hbody).
  split; [reflexivity|].
  rewrite st_settled, st_setStateWorld.
  destruct (quiet_reviseNote env _ _ _ _ _ _ _ Hrev) as (Hst & _).
  rewrite Hst, st_entered. reflexivity.
Qed.





(** X3.  updateNote with a truthy id that a note carries and [null] as
    [updates] does not reject: reading [updates.title] fails inside the
    delegated function, before any request is built, so the promise
    resolves to [null], [error] is set, no request is sent, and [notes]
    and [selectedNoteId] are unchanged. *)
Theorem updateNote_null_updates_recorded :
  forall (env : Env) (idv : JsVal) (w : World),
    truthy idv = true ->
    existsb (idIs idv) (notes (st w)) = true ->
    exists wf,
      updateNote env idv VNull w = (Returned None, wf) /\
      error (st wf) <> None /\
      requests wf = requests w /\
      notes (st wf) = notes (st w) /\
      selectedNoteId (st wf) = selectedNoteId (st w) /\
      loading (st wf) = false.
Proof.
  intros env idv w Hid Hex.
  destruct (find_some_of_existsb _ _ Hex) as [existing Hfind].
  assert (Hfind' : find (idIs idv) (notes (st (entered env w))) = Some existing).
  { rewrite st_entered. exact Hfind. }
  pose proof (updateNote_body_null env idv existing (entered env w) Hfind') as Hbody.
  eexists. rewrite (updateNote_accepted env idv VNull Hid).
  change (withDefault VNull (VObj [])) with VNull.
  rewrite (_runAsync_thrown env "updateNote" _ w _ _ Hbody).
  split; [reflexivity|].
  assert (Hreq : requests (settled env (failed env (JsError (readNullMessage "title"))
                                          (entered env w))) = requests w).
  { unfold settled, failed. rewrite !requests_setStateWorld. apply requests_entered. }
  rewrite (st_settled_failed env _ w (entered env w) eq_refl). simpl.
  split; [discriminate|]. split; [exact Hreq|repeat split].
Qed.

Lemma updateNote_null_updates_recorded_witness :
  exists wf,
    updateNote (remoteEnv (NetworkFailure (JsError "Failed to fetch"))) (VStr "1") VNull worldB
      = (Returned None, wf) /\
    error (st wf) <> None /\ requests wf = [] /\ notes (st wf) = notes scenarioB.
Proof.
  destruct (updateNote_null_updates_recorded
              (remoteEnv (NetworkFailure (JsError "Failed to fetch"))) (VStr "1") worldB
              eq_refl eq_refl) as (wf & Hrun & Herr & Hreq & Hnotes & _).
  exists wf. auto.
Defined.

(** ** What no step of an action does

    A relation between worlds that is reflexive and transitive and that
    the elementary steps respect (a clock read, a random read, a request
    when an API is configured, an emission, a state update) is respected
    by every action, by [selectNote] and by the keyboard shortcuts. *)

Section Within.

Variable env : Env.
Variable R : World -> World -> Prop.

Hypothesis R_refl : forall w, R w w.
Hypothesis R_trans : forall w1 w2 w3, R w1 w2 -> R w2 w3 -> R w1 w3.
Hypothesis R_now : forall w, R w (snd (now env w)).
Hypothesis R_random36 : forall w, R w (snd (random36 env w)).
Hypothesis R_apiFetch :
  USE_API env = true ->
  forall path method body w, R w (snd (apiFetch env path method body w)).
Hypothesis R_emit : forall w, R w (emitWorld env w).
Hypothesis R_setState : forall p w, R w (setStateWorld env p w).

Lemma within_ret {A : Type} (a : A) : within R (ret a).
Proof. intros w r w' H. inversion H. apply R_refl. Qed.

Lemma within_throw {A : Type} (e : Exn) : within R (@throw A e).
Proof. intros w r w' H. inversion H. apply R_refl. Qed.

Lemma within_bind {A B : Type} (m : M A) (k : A -> M B) :
  within R m -> (forall a, within R (k a)) -> within R (bind m k).
Proof.
  intros Hm Hk w r w' H. unfold bind in H.
  destruct (m w) as [[a|e] w1] eqn:E.
  - exact (R_trans _ _ _ (Hm _ _ _ E) (Hk a _ _ _ H)).
  - inversion H; subst. exact (Hm _ _ _ E).
Qed.

Lemma within_tryCatch {A : Type} (m : M A) (h : Exn -> M A) :
  within R m -> (forall e, within R (h e)) -> within R (tryCatch m h).
Proof.
  intros Hm Hh w r w' H. unfold tryCatch in H.
  destruct (m w) as [[a|e] w1] eqn:E.
  - inversion H; subst. exact (Hm _ _ _ E).
  - exact (R_trans _ _ _ (Hm _ _ _ E) (Hh e _ _ _ H)).
Qed.

Lemma within_tryFinally {A : Type} (m : M A) (f : M unit) :
  within R m -> within R f -> within R (tryFinally m f).
Proof.
  intros Hm Hf w r w' H. unfold tryFinally in H.
  destruct (m w) as [r1 w1] eqn:E. destruct (f w1) as [[u|e] w2] eqn:E2;
    inversion H; subst; exact (R_trans _ _ _ (Hm _ _ _ E) (Hf _ _ _ E2)).
Qed.

Lemma within_thisState : within R thisState.
Proof. intros w r w' H. inversion H. apply R_refl. Qed.

Lemma within_now : within R (now env).
Proof. intros w r w' H. pose proof (R_now w) as Hn. rewrite H in Hn. exact Hn. Qed.

Lemma within_random36 : within R (random36 env).
Proof. intros w r w' H. pose proof (R_random36 w) as Hn. rewrite H in Hn. exact Hn. Qed.

Lemma within_apiFetch (path method : string) (body : option JsVal) :
  USE_API env = true -> within R (apiFetch env path method body).
Proof.
  intros Hapi w r w' H. pose proof (R_apiFetch Hapi path method body w) as Hn.
  rewrite H in Hn. exact Hn.
Qed.

Lemma within_emit : within R (_emit env).
Proof. intros w r w' H. rewrite _emit_eq in H. inversion H. apply R_emit. Qed.

Lemma within_setState (p : Patch) : within R (_setState env p).
Proof. intros w r w' H. rewrite _setState_eq in H. inversion H. apply R_setState. Qed.

Lemma within_mapM {A B : Type} (f : A -> M B) (l : list A) :
  (forall a, within R (f a)) -> within R (mapM f l).
Proof.
  intros Hf. induction l as [|a l IH]; simpl.
  - apply within_ret.
  - apply within_bind; [apply Hf|]. intros b.
    apply within_bind; [apply IH|]. intros bs. apply within_ret.
Qed.

Lemma within_actions :
  within R (loadNotes env) /\
  (forall arg, within R (addNote env arg)) /\
  (forall idv updates, within R (updateNote env idv updates)) /\
  (forall idv, within R (deleteNote env idv)) /\
  (forall idv, within R (selectNote env idv)).
Proof.
  split; [|split; [|split; [|split]]]; intros;
    unfold loadNotes, loadNotes_body, addNote, addNote_body, createNote,
      updateNote, updateNote_body, member, reviseNote,
      deleteNote, deleteNote_body, removeRemote, selectNote, _runAsync;
    (assert (Hcase : USE_API env = true \/ USE_API env = false)
       by (destruct (USE_API env); auto));
    destruct Hcase as [Hapi|Hapi]; rewrite ?Hapi; cbn [negb]; cbv iota;
    try (destruct (withDefault arg (VObj [])));
    repeat first
      [ apply within_ret | apply within_throw | apply within_thisState
      | apply within_now | apply within_random36
      | apply within_apiFetch; exact Hapi
      | apply within_setState | apply within_emit
      | apply within_tryFinally | apply within_tryCatch; [|intro]
      | apply within_bind; [|intro]
      | apply within_mapM; intro;
        unfold normalizeListed, stringOrUid, numberOrNow, uid
      | progress unfold stringOrUid, numberOrNow, uid
      | match goal with
        | |- within R (if ?b then _ else _) => destruct b
        | |- within R (match ?x with _ => _ end) => destruct x
        | |- within R (let _ := _ in _) => cbv zeta
        end ].
Qed.

Lemma within_perform (a : Action) : within R (perform env a).
Proof.
  destruct within_actions as (Hload & Hadd & Hupdate & Hdelete & _).
  destruct a; simpl; (apply within_bind; [|intro; apply within_ret]).
  - exact Hload.
  - apply Hadd.
  - apply Hupdate.
  - apply Hdelete.
Qed.

Lemma within_selectNote (idv : JsVal) : within R (selectNote env idv).
Proof. apply within_actions. Qed.

Lemma within_shortcuts :
  within R (shortcutAdd env) /\ within R (shortcutSave env) /\
  (forall confirmed, within R (shortcutDelete env confirmed)).
Proof.
  destruct within_actions as (_ & Hadd & Hupdate & Hdelete & Hselect).
  unfold shortcutAdd, shortcutSave, shortcutDelete.
  split; [|split; [|intros confirmed]].
  - apply within_bind; [apply Hadd|]. intros [n|]; [|apply within_ret].
    destruct (nonEmpty (id n)); [apply Hselect | apply within_ret].
  - apply within_bind; [apply within_thisState|]. intros s.
    destruct (selectedNote s); [|apply within_ret].
    apply within_bind; [apply Hupdate|]. intros _. apply within_ret.
  - apply within_bind; [apply within_thisState|]. intros s.
    destruct (selectedNote s); [|apply within_ret].
    destruct confirmed; [|apply within_ret].
    apply within_bind; [apply Hdelete|]. intros _. apply within_ret.
Qed.

End Within.

Lemma localStorage_emitWorld_off (env : Env) (w : World) :
  USE_API env = true \/ hasWindow env = false ->
  localStorage (emitWorld env w) = localStorage w.
Proof.
  intros H. unfold emitWorld, persistWorld. simpl.
  destruct H as [H|H]; rewrite H; [reflexivity|].
  rewrite andb_false_r. reflexivity.
Qed.

(** X4.  When an API is configured, or when there is no [window], nothing
    the store does writes to localStorage: after any action (whatever its
    arguments and its outcome), after selectNote and after each of the
    keyboard shortcuts the stored item is the one found before. *)
Theorem storage_untouched_outside_local_mode :
  forall env : Env,
    USE_API env = true \/ hasWindow env = false ->
    (forall a, within (fun w wf => localStorage wf = localStorage w) (perform env a)) /\
    (forall idv, within (fun w wf => localStorage wf = localStorage w) (selectNote env idv)) /\
    within (fun w wf => localStorage wf = localStorage w) (shortcutAdd env) /\
    within (fun w wf => localStorage wf = localStorage w) (shortcutSave env) /\
    (forall confirmed,
        within (fun w wf => localStorage wf = localStorage w) (shortcutDelete env confirmed)).
Proof.
  intros env Hoff.
  assert (Hrefl : forall w : World, localStorage w = localStorage w) by reflexivity.
  assert (Htrans : forall w1 w2 w3 : World,
             localStorage w2 = localStorage w1 -> localStorage w3 = localStorage w2 ->
             localStorage w3 = localStorage w1) by (intros; congruence).
  assert (Hnow : forall w, localStorage (snd (now env w)) = localStorage w) by reflexivity.
  assert (Hrnd : forall w, localStorage (snd (random36 env w)) = localStorage w)
    by reflexivity.
  assert (Hfetch : USE_API env = true -> forall path method body w,
             localStorage (snd (apiFetch env path method body w)) = localStorage w)
    by reflexivity.
  assert (Hemit : forall w, localStorage (emitWorld env w) = localStorage w).
  { intros w. apply localStorage_emitWorld_off. exact Hoff. }
  assert (Hset : forall p w, localStorage (setStateWorld env p w) = localStorage w).
  { intros p w. unfold setStateWorld. rewrite Hemit. reflexivity. }
  split; [|split].
  - intros a. exact (within_perform env _ Hrefl Htrans Hnow Hrnd Hfetch Hemit Hset a).
  - intros idv. exact (within_selectNote env _ Hrefl Htrans Hnow Hrnd Hfetch Hemit Hset idv).
  - exact (within_shortcuts env _ Hrefl Htrans Hnow Hrnd Hfetch Hemit Hset).
Qed.

Lemma storage_untouched_outside_local_mode_witness :
  localStorage
    (snd (perform (remoteEnv (Response true 201 None (Some (VObj [("id", VStr "7")]))))
            (AddNote (VObj [("title", VStr "Groceries")]))
            (newStore scenarioB storedB))) = storedB.
Proof.
  destruct (storage_untouched_outside_local_mode
              (remoteEnv (Response true 201 None (Some (VObj [("id", VStr "7")]))))
              (or_introl eq_refl)) as [H _].
  apply (H (AddNote (VObj [("title", VStr "Groceries")])) (newStore scenarioB storedB)
           (fst (perform (remoteEnv (Response true 201 None (Some (VObj [("id", VStr "7")]))))
                   (AddNote (VObj [("title", VStr "Groceries")]))
                   (newStore scenarioB storedB)))).
  apply surjective_pairing.
Defined.

(** X5.  When no API is configured the store never calls [fetch]: no
    action, whatever its arguments and its outcome, and no keyboard
    shortcut adds a request to those issued before. *)
Theorem local_mode_sends_no_request :
  forall env : Env,
    USE_API env = false ->
    (forall a, within (fun w wf => requests wf = requests w) (perform env a)) /\
    within (fun w wf => requests wf = requests w) (shortcutAdd env) /\
    within (fun w wf => requests wf = requests w) (shortcutSave env) /\
    (forall confirmed,
        within (fun w wf => requests wf = requests w) (shortcutDelete env confirmed)).
Proof.
  intros env Hlocal.
  assert (Hrefl : forall w : World, requests w = requests w) by reflexivity.
  assert (Htrans : forall w1 w2 w3 : World,
             requests w2 = requests w1 -> requests w3 = requests w2 ->
             requests w3 = requests w1) by (intros; congruence).
  assert (Hnow : forall w, requests (snd (now env w)) = requests w) by reflexivity.
  assert (Hrnd : forall w, requests (snd (random36 env w)) = requests w) by reflexivity.
  assert (Hfetch : USE_API env = true -> forall path method body w,
             requests (snd (apiFetch env path method body w)) = requests w).
  { intros Hapi. rewrite Hlocal in Hapi. discriminate Hapi. }
  assert (Hemit : forall w, requests (emitWorld env w) = requests w)
    by (intros w; apply requests_emitWorld).
  assert (Hset : forall p w, requests (setStateWorld env p w) = requests w)
    by (intros p w; apply requests_setStateWorld).
  split.
  - intros a. exact (within_perform env _ Hrefl Htrans Hnow Hrnd Hfetch Hemit Hset a).
  - exact (within_shortcuts env _ Hrefl Htrans Hnow Hrnd Hfetch Hemit Hset).
Qed.

Lemma local_mode_sends_no_request_witness :
  requests (snd (perform localEnv (DeleteNote (VStr "2")) worldB)) = [].
Proof.
  destruct (local_mode_sends_no_request localEnv eq_refl) as [H _].
  apply (H (DeleteNote (VStr "2")) worldB
           (fst (perform localEnv (DeleteNote (VStr "2")) worldB))).
  apply surjective_pairing.
Defined.

(** ** The shape of a run of an action *)

Section Runs.

Variable env : Env.

(** *** Computations that emit once *)

Lemma emitsOnce_throw {A : Type} (e : Exn) : emitsOnce (@throw A e).
Proof. intros w r w' H. inversion H. reflexivity. Qed.

Lemma emitsOnce_bind {A B : Type} (m : M A) (k : A -> M B) :
  quiet m -> (forall a, emitsOnce (k a)) -> emitsOnce (bind m k).
Proof.
  intros Hm Hk w r w' H. unfold bind in H.
  destruct (m w) as [[a|e] w1] eqn:E.
  - destruct (Hm _ _ _ E) as (_ & _ & Hem). rewrite <- Hem. exact (Hk a _ _ _ H).
  - inversion H; subst. exact (proj2 (proj2 (Hm _ _ _ E))).
Qed.

Lemma emitsOnce_emit : emitsOnce (_emit env).
Proof.
  intros w r w' H. rewrite _emit_eq in H. inversion H; subst.
  rewrite emitted_emitWorld, st_emitWorld. reflexivity.
Qed.

Lemma emitsOnce_setState (p : Patch) : emitsOnce (_setState env p).
Proof.
  intros w r w' H. rewrite _setState_eq in H. inversion H; subst.
  rewrite emitted_setStateWorld, st_setStateWorld. reflexivity.
Qed.

Lemma emitsOnce_setState_ret {A : Type} (p : Patch) (a : A) :
  emitsOnce (_setState env p ;; ret a).
Proof.
  intros w r w' H. unfold bind in H. rewrite _setState_eq in H. inversion H; subst.
  rewrite emitted_setStateWorld, st_setStateWorld. reflexivity.
Qed.

Lemma emitsOnce_drop {A : Type} (m : M A) : emitsOnce m -> emitsOnce (m ;; ret tt).
Proof.
  intros Hm w r w' H. unfold bind in H.
  destruct (m w) as [[a|e] w1] eqn:E; inversion H; subst; exact (Hm _ _ _ E).
Qed.

Lemma emitsOnce_delegated (a : Action) : emitsOnce (delegated env a).
Proof.
  destruct a; simpl.
  - unfold loadNotes_body. destruct (negb (USE_API env)); [apply emitsOnce_emit|].
    apply emitsOnce_bind; [apply quiet_apiFetch|]. intros data.
    destruct data; try apply emitsOnce_throw.
    apply emitsOnce_bind; [apply quiet_mapM, quiet_normalizeListed|].
    intros ns. apply emitsOnce_setState.
  - apply emitsOnce_drop. unfold addNote_body.
    apply emitsOnce_bind; [apply quiet_createNote|]. intros created.
    apply emitsOnce_bind; [apply quiet_thisState|]. intros s.
    apply emitsOnce_setState_ret.
  - apply emitsOnce_drop. unfold updateNote_body.
    apply emitsOnce_bind; [apply quiet_thisState|]. intros s.
    destruct (find (idIs idv) (notes s)) as [existing|]; [|apply emitsOnce_throw].
    apply emitsOnce_bind; [apply quiet_member|]. intros ut. cbv zeta.
    apply emitsOnce_bind; [apply quiet_member|]. intros uc.
    apply emitsOnce_bind; [apply quiet_reviseNote|]. intros updated.
    apply emitsOnce_bind; [apply quiet_thisState|]. intros s'.
    apply emitsOnce_setState_ret.
  - apply emitsOnce_drop. unfold deleteNote_body.
    apply emitsOnce_bind; [apply quiet_thisState|]. intros s.
    destruct (negb (existsb (idIs idv) (notes s))); [apply emitsOnce_throw|].
    apply emitsOnce_bind; [apply quiet_removeRemote|]. intros _.
    apply emitsOnce_bind; [apply quiet_thisState|]. intros s'. cbv zeta.
    apply emitsOnce_setState_ret.
Qed.

(** *** The three ways an action ends *)

Lemma perform_cases (a : Action) (w : World) (r : Outcome Settled) (wf : World) :
  perform env a w = (r, wf) ->
  (accepted a = false /\ r = Thrown (JsError (rejectionMessage a)) /\ wf = w) \/
  (accepted a = true /\
   exists e w2,
     delegated env a (entered env w) = (Thrown e, w2) /\
     r = Returned (failureValue a) /\ wf = settled env (failed env e w2)) \/
  (accepted a = true /\
   exists v w2,
     delegated env a (entered env w) = (Returned tt, w2) /\
     r = Returned v /\ wf = settled env w2).
Proof.
  intros H. destruct (accepted a) eqn:Hacc.
  - right. destruct (delegated env a (entered env w)) as [[[]|e] w2] eqn:Hd.
    + right. split; [reflexivity|].
      destruct (perform_success env a w w2 Hacc Hd) as [v Hv].
      rewrite Hv in H. inversion H; subst. exists v, w2. auto.
    + left. split; [reflexivity|].
      rewrite (perform_failure env a w w2 e Hacc Hd) in H. inversion H; subst.
      exists e, w2. auto.
  - left. rewrite (perform_rejected env a w Hacc) in H. inversion H; subst. auto.
Qed.

Lemma updateNote_body_returned (idv updates : JsVal) (w w2 : World) (u : Note) :
  updateNote_body env idv updates w = (Returned u, w2) ->
  exists existing,
    find (idIs idv) (notes (st w)) = Some existing /\
    st w2 = mkState (map (fun n => if idIs idv n then u else n) (notes (st w)))
                    (selectedNoteId (st w)) (loading (st w)) (error (st w)) /\
    (USE_API env = false ->
     u = mkNote (id existing)
                (payloadField env updates "title" (title existing))
                (payloadField env updates "content" (content existing))
                (Some (Num (dateNow env (clockReads w)))) (createdAt existing)).
Proof.
  intros H.
  destruct (find (idIs idv) (notes (st w))) as [existing|] eqn:Hfind.
  - exists existing. split; [reflexivity|].
    destruct (nullish updates) eqn:Hnull.
    + exfalso. revert H. unfold updateNote_body. unfold bind at 1. unfold thisState at 1.
      rewrite Hfind. unfold member. rewrite Hnull. unfold bind at 1. unfold throw.
      discriminate.
    + destruct (reviseNote env idv existing
                  (payloadField env updates "title" (title existing))
                  (payloadField env updates "content" (content existing)) w)
        as [[u'|e] w1] eqn:Hrev.
      * rewrite (updateNote_body_found env idv updates existing u' w w1 Hfind Hnull Hrev)
          in H.
        inversion H; subst. rewrite st_setStateWorld.
        destruct (quiet_reviseNote env _ _ _ _ _ _ _ Hrev) as (Hst & _). rewrite Hst.
        split; [reflexivity|]. intros Hlocal.
        destruct (reviseNote_local env idv existing
                    (payloadField env updates "title" (title existing))
                    (payloadField env updates "content" (content existing)) w Hlocal)
          as (w1' & Hrev').
        rewrite Hrev' in Hrev. inversion Hrev. reflexivity.
      * exfalso. revert H. unfold updateNote_body. unfold bind at 1.
        unfold thisState at 1. rewrite Hfind. unfold member. rewrite Hnull.
        unfold bind at 1. unfold ret at 1. cbv zeta.
        unfold bind at 1. unfold ret at 1. unfold bind at 1.
        match goal with
        | |- context [reviseNote env idv existing ?a ?b w] =>
            change a with (payloadField env updates "title" (title existing));
            change b with (payloadField env updates "content" (content existing))
        end.
        rewrite Hrev. discriminate.
  - rewrite (updateNote_body_absent env idv updates w) in H; [discriminate H|].
    destruct (existsb (idIs idv) (notes (st w))) eqn:Hex; [|reflexivity].
    destruct (find_some_of_existsb _ _ Hex) as [x Hx]. congruence.
Qed.

Lemma loadNotes_body_returned (w w2 : World) :
  loadNotes_body env w = (Returned tt, w2) ->
  selectedNoteId (st w2) = selectedNoteId (st w) /\
  (USE_API env = false -> notes (st w2) = notes (st w)).
Proof.
  intros H. destruct (USE_API env) eqn:Hapi.
  - split; [|discriminate]. revert H. unfold loadNotes_body. rewrite Hapi. cbn [negb].
    unfold bind at 1.
    destruct (apiFetch env "/notes" "GET" None w) as [[data|e] w1] eqn:Hf; [|discriminate].
    destruct (quiet_apiFetch env _ _ _ _ _ _ Hf) as (Hst & _).
    destruct data; try (unfold throw; discriminate).
    unfold bind.
    destruct (mapM (normalizeListed env) (filter objectLike items) w1)
      as [[ns|e] w1'] eqn:Hm; [|discriminate].
    destruct (quiet_mapM _ _ (quiet_normalizeListed env) _ _ _ Hm) as (Hst' & _).
    rewrite _setState_eq. intros H. inversion H; subst.
    rewrite st_setStateWorld. simpl. congruence.
  - rewrite (loadNotes_body_local env w Hapi) in H. inversion H; subst.
    rewrite st_emitWorld. auto.
Qed.

(** What an action makes of [notes] and [selectedNoteId]: nothing, or what
    its successful run sets. *)
Lemma perform_state (a : Action) (w : World) (r : Outcome Settled) (wf : World) :
  perform env a w = (r, wf) ->
  (notes (st wf) = notes (st w) /\ selectedNoteId (st wf) = selectedNoteId (st w)) \/
  match a with
  | LoadNotes =>
      USE_API env = true /\ selectedNoteId (st wf) = selectedNoteId (st w)
  | AddNote _ =>
      exists n, notes (st wf) = (notes (st w) ++ [n])%list /\
                selectedNoteId (st wf) = Some (id n)
  | UpdateNote idv _ =>
      exists existing u,
        find (idIs idv) (notes (st w)) = Some existing /\
        notes (st wf) = map (fun n => if idIs idv n then u else n) (notes (st w)) /\
        selectedNoteId (st wf) = selectedNoteId (st w) /\
        (USE_API env = false -> id u = id existing)
  | DeleteNote idv =>
      notes (st wf) = remaining idv (notes (st w)) /\
      selectedNoteId (st wf) =
        (if selectedIs idv (selectedNoteId (st w))
         then firstId (remaining idv (notes (st w)))
         else selectedNoteId (st w))
  end.
Proof.
  intros H.
  destruct (perform_cases a w r wf H)
    as [(_ & _ & Hw) | [(Hacc & e & w2 & Hd & _ & Hw) | (Hacc & v & w2 & Hd & _ & Hw)]].
  - left. subst wf. auto.
  - left. subst wf.
    rewrite (st_settled_failed env e w w2 (failsQuietly_delegated env a _ _ _ Hd)).
    auto.
  - subst wf. rewrite st_settled. cbn [notes selectedNoteId].
    destruct a; simpl in Hd.
    + destruct (loadNotes_body_returned _ _ Hd) as [Hsel Hnotes].
      rewrite st_entered in Hsel. cbn [selectedNoteId] in Hsel.
      destruct (USE_API env) eqn:Hapi.
      * right. auto.
      * left. rewrite (Hnotes eq_refl), st_entered. auto.
    + right. apply drop_returned in Hd. destruct Hd as [n Hd].
      destruct (addNote_body_returned env _ _ _ _ _ Hd) as (w1 & _ & Hst).
      exists n. rewrite Hst, st_entered. auto.
    + right. apply drop_returned in Hd. destruct Hd as [u Hd].
      destruct (updateNote_body_returned _ _ _ _ _ Hd) as (existing & Hfind & Hst & Hloc).
      rewrite st_entered in Hfind. cbn [notes] in Hfind.
      exists existing, u. rewrite Hst, st_entered. cbn [notes selectedNoteId].
      split; [exact Hfind|]. split; [reflexivity|]. split; [reflexivity|].
      intros Hlocal. rewrite (Hloc Hlocal). reflexivity.
    + right. apply drop_returned in Hd. destruct Hd as [b Hd].
      destruct (deleteNote_body_returned env _ _ _ _ Hd) as (_ & _ & Hst).
      rewrite Hst, st_entered. auto.
Qed.

End Runs.

Lemma selectNote_eq (env : Env) (idv : JsVal) (w : World) :
  selectNote env idv w =
  (Returned tt,
   setStateWorld env
     (if nullish idv then mkPatch None (Some None) None None
      else if existsb (idIs idv) (notes (st w))
           then mkPatch None (Some (asId idv)) None None
           else mkPatch None None None (Some (Some "Note not found"))) w).
Proof.
  unfold selectNote. destruct (nullish idv).
  - apply _setState_eq.
  - unfold bind, thisState.
    destruct (existsb (idIs idv) (notes (st w))); cbn [negb]; apply _setState_eq.
Qed.

Lemma In_ids_remaining (idv : JsVal) (i : string) (l : list Note) :
  In i (map id l) ->
  selectedIs idv (Some i) = false ->
  In i (map id (remaining idv l)).
Proof.
  intros Hin Hsel. unfold remaining. apply in_map_iff in Hin.
  destruct Hin as (n & Hid & Hn). apply in_map_iff. exists n. split; [exact Hid|].
  apply filter_In. split; [exact Hn|].
  destruct idv; try reflexivity. simpl in *. rewrite Hid. rewrite Hsel. reflexivity.
Qed.

Lemma firstId_In (l : list Note) (i : string) :
  firstId l = Some i -> In i (map id l).
Proof. destruct l as [|n l]; simpl; [discriminate|]. intros H. inversion H. auto. Qed.

Lemma NoDup_ids_remaining (idv : JsVal) (l : list Note) :
  NoDup (map id l) -> NoDup (map id (remaining idv l)).
Proof.
  unfold remaining. induction l as [|n l IH]; simpl; intros H; [constructor|].
  inversion H as [|x xs Hnot Hrest]; subst.
  destruct (negb (idIs idv n)); [|auto].
  simpl. constructor; [|auto].
  intros Hin. apply Hnot. apply in_map_iff in Hin. destruct Hin as (m & Hid & Hm).
  apply filter_In in Hm. apply in_map_iff. exists m. tauto.
Qed.

Lemma NoDup_ids_app_one (l : list Note) (n : Note) :
  NoDup (map id l) -> ~ In (id n) (map id l) -> NoDup (map id (l ++ [n])).
Proof.
  induction l as [|m l IH]; simpl; intros H Hn.
  - constructor; [tauto | constructor].
  - inversion H as [|x xs Hnot Hrest]; subst. constructor.
    + rewrite map_app, in_app_iff. simpl. intros [Hin|[Heq|[]]]; [tauto|].
      apply Hn. left. congruence.
    + apply IH; [exact Hrest|]. tauto.
Qed.

(** ** Emissions *)

(** X6.  An action that passes its entry check notifies the subscribers
    exactly three times, whatever its outcome: first with the state found
    and [loading] true and [error] null, then with the [notes],
    [selectedNoteId] and [error] it ends with while [loading] is still
    true, last with the final state. *)
Theorem action_emits_three_snapshots :
  forall (env : Env) (a : Action) (w : World) (r : Outcome Settled) (wf : World),
    accepted a = true ->
    perform env a w = (r, wf) ->
    emitted wf =
      (emitted w ++
       [mkState (notes (st w)) (selectedNoteId (st w)) true None;
        mkState (notes (st wf)) (selectedNoteId (st wf)) true (error (st wf));
        st wf])%list /\
    loading (st wf) = false.
Proof.
  intros env a w r wf Hacc H.
  assert (Hent : emitted (entered env w) =
                 (emitted w ++ [mkState (notes (st w)) (selectedNoteId (st w)) true None])%list).
  { unfold entered. rewrite emitted_setStateWorld. reflexivity. }
  destruct (perform_cases env a w r wf H)
    as [(Hrej & _) | [(_ & e & w2 & Hd & _ & Hw) | (_ & v & w2 & Hd & _ & Hw)]].
  - rewrite Hacc in Hrej. discriminate Hrej.
  - subst wf. pose proof (emitsOnce_delegated env a _ _ _ Hd) as Hem. cbv beta iota in Hem.
    pose proof (failsQuietly_delegated env a _ _ _ Hd) as Hst.
    unfold settled at 1. rewrite emitted_setStateWorld. unfold failed at 1.
    rewrite emitted_setStateWorld, Hem, Hent.
    rewrite (st_settled_failed env e w w2 Hst). unfold failed.
    rewrite st_setStateWorld, Hst, st_entered. simpl.
    rewrite <- !app_assoc. auto.
  - subst wf. pose proof (emitsOnce_delegated env a _ _ _ Hd) as Hem. cbv beta iota in Hem.
    destruct (keepsFlags_delegated env a _ _ _ Hd) as [Hload Herr].
    rewrite st_entered in Hload, Herr. simpl in Hload, Herr.
    unfold settled at 1. rewrite emitted_setStateWorld, Hem, Hent.
    rewrite st_settled. simpl. rewrite <- !app_assoc. simpl.
    split; [|reflexivity]. do 3 f_equal.
    destruct (st w2) as [ns sel ld er]. simpl in *. subst ld. reflexivity.
Qed.

Lemma action_emits_three_snapshots_witness :
  emitted (snd (perform localEnv (DeleteNote (VStr "1")) worldB)) =
    [mkState (notes scenarioB) (Some "1") true None;
     mkState [mkNote "2" None None (Some (Num 200)) None] (Some "2") true None;
     mkState [mkNote "2" None None (Some (Num 200)) None] (Some "2") false None].
Proof.
  destruct (action_emits_three_snapshots localEnv (DeleteNote (VStr "1")) worldB
              (fst (perform localEnv (DeleteNote (VStr "1")) worldB))
              (snd (perform localEnv (DeleteNote (VStr "1")) worldB))
              eq_refl (surjective_pairing _)) as [H _].
  rewrite H. reflexivity.
Defined.

(** ** Invariants of [notes] and [selectedNoteId] *)

(** X7.  If [selectedNoteId] is null or the id of a note of the store, it
    still is after selectNote, after addNote and after deleteNote,
    whatever their arguments, their outcome and the answers of the
    backend, and, when no API is configured, after every action. *)
Theorem selection_stays_valid :
  forall (env : Env) (w : World),
    selectionValid (st w) ->
    (forall (a : Action) (r : Outcome Settled) (wf : World),
        keepsSelection a = true \/ USE_API env = false ->
        perform env a w = (r, wf) ->
        selectionValid (st wf)) /\
    (forall (idv : JsVal) (r : Outcome unit) (wf : World),
        selectNote env idv w = (r, wf) ->
        selectionValid (st wf)).
Proof.
  intros env w Hvalid. unfold selectionValid in *. split.
  - intros a r wf Hmode H.
    destruct (perform_state env a w r wf H) as [[Hn Hs] | Hcase].
    + rewrite Hn, Hs. exact Hvalid.
    + destruct a.
      * destruct Hcase as [Hapi _]. destruct Hmode as [Hk|Hl]; [discriminate Hk|].
        rewrite Hl in Hapi. discriminate Hapi.
      * destruct Hcase as (n & Hn & Hs). rewrite Hn, Hs, map_app, in_app_iff.
        right. simpl. auto.
      * destruct Hcase as (existing & u & Hfind & Hn & Hs & Hid).
        destruct Hmode as [Hk|Hl]; [discriminate Hk|].
        destruct (find_idIs_VStr _ _ _ Hfind) as [Hidv _]. subst idv.
        rewrite Hn, Hs, (map_id_replace (id existing) u); [exact Hvalid | auto].
      * destruct Hcase as (Hn & Hs). rewrite Hn, Hs.
        destruct (selectedNoteId (st w)) as [i|] eqn:Hsel.
        -- destruct (selectedIs idv (Some i)) eqn:Hi.
           ++ destruct (firstId (remaining idv (notes (st w)))) as [j|] eqn:Hf; [|exact I].
              apply firstId_In. exact Hf.
           ++ apply In_ids_remaining; assumption.
        -- destruct (selectedIs idv None); [|exact I].
           destruct (firstId (remaining idv (notes (st w)))) as [j|] eqn:Hf; [|exact I].
           apply firstId_In. exact Hf.
  - intros idv r wf H. rewrite selectNote_eq in H. inversion H; subst.
    rewrite st_setStateWorld.
    destruct (nullish idv); [exact I|].
    destruct (existsb (idIs idv) (notes (st w))) eqn:Hex; simpl; [|exact Hvalid].
    destruct (find_some_of_existsb _ _ Hex) as [n Hfind].
    destruct (find_idIs_VStr _ _ _ Hfind) as [Hidv _]. subst idv. simpl.
    apply existsb_idIs_In. exact Hex.
Qed.

Lemma selection_stays_valid_witness :
  selectionValid (st (snd (perform localEnv (DeleteNote (VStr "1")) worldB))).
Proof.
  assert (Hv : selectionValid (st worldB)) by (left; reflexivity).
  destruct (selection_stays_valid localEnv worldB Hv) as [H _].
  apply (H (DeleteNote (VStr "1"))
           (fst (perform localEnv (DeleteNote (VStr "1")) worldB))).
  - left. reflexivity.
  - apply surjective_pairing.
Defined.

(** X8.  If no two notes of the store share an id, none do after
    deleteNote, whatever its outcome; after loadNotes and updateNote when
    no API is configured; and after addNote provided the id of the created
    note is not already that of a note. *)
Theorem ids_stay_distinct :
  forall (env : Env) (a : Action) (w : World) (r : Outcome Settled) (wf : World),
    NoDup (map id (notes (st w))) ->
    perform env a w = (r, wf) ->
    keepsIdsDistinct env a w r ->
    NoDup (map id (notes (st wf))).
Proof.
  intros env a w r wf Hnd H Hkeeps.
  destruct a; simpl in Hkeeps.
  - destruct (perform_state env _ w r wf H) as [[Hn _] | [Hapi _]].
    + rewrite Hn. exact Hnd.
    + rewrite Hkeeps in Hapi. discriminate Hapi.
  - destruct (perform_cases env _ w r wf H)
      as [(_ & _ & Hw) | [(_ & e & w2 & Hd & _ & Hw) | (Hacc & v & w2 & Hd & _ & Hw)]].
    + subst wf. exact Hnd.
    + subst wf.
      rewrite (st_settled_failed env e w w2 (failsQuietly_delegated env _ _ _ _ Hd)).
      exact Hnd.
    + simpl in Hd. apply drop_returned in Hd. destruct Hd as [n Hd].
      revert H. unfold perform.
      rewrite (addNote_accepted env arg (accepted_AddNote arg Hacc)).
      unfold bind. rewrite (_runAsync_returned env "addNote" _ w w2 n Hd).
      unfold ret. intros H. inversion H as [[Hr Hwf]].
      destruct (addNote_body_returned env _ _ _ _ _ Hd) as (w1 & _ & Hst).
      rewrite st_settled, Hst, st_entered. simpl.
      apply NoDup_ids_app_one; [exact Hnd|]. apply Hkeeps. symmetry. exact Hr.
  - destruct (perform_state env _ w r wf H)
      as [[Hn _] | (existing & u & Hfind & Hn & _ & Hid)].
    + rewrite Hn. exact Hnd.
    + destruct (find_idIs_VStr _ _ _ Hfind) as [Hidv _]. subst idv.
      rewrite Hn, (map_id_replace (id existing) u); [exact Hnd | auto].
  - destruct (perform_state env _ w r wf H) as [[Hn _] | [Hn _]].
    + rewrite Hn. exact Hnd.
    + rewrite Hn. apply NoDup_ids_remaining. exact Hnd.
Qed.

Lemma ids_stay_distinct_witness :
  NoDup (map id (notes (st (snd (perform localEnv
                                   (UpdateNote (VStr "2") (VObj [("title", VStr "b")]))
                                   worldB))))).
Proof.
  assert (Hnd : NoDup (map id (notes (st worldB)))).
  { simpl. constructor; [simpl; intros [E|[]]; discriminate E|].
    constructor; [simpl; tauto | constructor]. }
  apply (ids_stay_distinct localEnv (UpdateNote (VStr "2") (VObj [("title", VStr "b")]))
           worldB
           (fst (perform localEnv (UpdateNote (VStr "2") (VObj [("title", VStr "b")]))
                   worldB)) _ Hnd (surjective_pairing _)).
  reflexivity.
Defined.

(** ** The selectors *)

Lemma selectedNote_some (s : State) (n : Note) :
  selectedNote s = Some n ->
  selectedNoteId s = Some (id n) /\ id n <> "" /\ In n (notes s).
Proof.
  unfold selectedNote. destruct (selectedNoteId s) as [i|]; [|discriminate].
  destruct (nonEmpty i) eqn:Hi; [|discriminate]. intros Hfind.
  apply find_some in Hfind. destruct Hfind as [Hin Heq].
  apply String.eqb_eq in Heq. subst i.
  split; [reflexivity|]. split; [|exact Hin].
  intros E. rewrite E in Hi. discriminate Hi.
Qed.

(** X9.  selectedNote() after selectNote(id): null when [id] is null or
    undefined; the first note of that id when [id] is the non-empty id of
    a note; what it was before when no note has that id.  The empty
    string, when it is the id of a note, becomes [selectedNoteId], and
    selectedNote() is then null.  Whenever selectedNote() is a note, it is
    a note of the store whose id is [selectedNoteId] and is not empty. *)
Theorem selectedNote_after_selectNote :
  forall (env : Env) (idv : JsVal) (w : World) (r : Outcome unit) (wf : World),
    selectNote env idv w = (r, wf) ->
    (nullish idv = true -> selectedNote (st wf) = None) /\
    (forall s, idv = VStr s -> In s (map id (notes (st w))) ->
       selectedNoteId (st wf) = Some s /\
       if nonEmpty s
       then exists n, selectedNote (st wf) = Some n /\ id n = s /\
                      find (fun m => String.eqb (id m) s) (notes (st w)) = Some n
       else selectedNote (st wf) = None) /\
    (nullish idv = false -> existsb (idIs idv) (notes (st w)) = false ->
       selectedNote (st wf) = selectedNote (st w)) /\
    (forall n, selectedNote (st wf) = Some n ->
       selectedNoteId (st wf) = Some (id n) /\ id n <> "" /\ In n (notes (st wf))).
Proof.
  intros env idv w r wf H. rewrite selectNote_eq in H. inversion H; subst. clear H.
  rewrite st_setStateWorld.
  split; [|split; [|split]].
  - intros Hnull. rewrite Hnull. reflexivity.
  - intros s Hs Hin. subst idv. cbn [nullish].
    rewrite (proj2 (existsb_idIs_In s (notes (st w))) Hin).
    unfold selectedNote. simpl. split; [reflexivity|].
    destruct (nonEmpty s); [|reflexivity].
    apply existsb_idIs_In in Hin.
    destruct (find_some_of_existsb _ _ Hin) as [n Hfind].
    exists n. destruct (find_idIs_VStr _ _ _ Hfind) as [Hid _]. injection Hid as Hs.
    split; [exact Hfind|]. split; [symmetry; exact Hs | exact Hfind].
  - intros Hnull Hex. rewrite Hnull, Hex. reflexivity.
  - intros n. apply selectedNote_some.
Qed.

Lemma selectedNote_after_selectNote_witness :
  selectedNote (st (snd (selectNote localEnv (VStr "2") worldB)))
    = Some (mkNote "2" None None (Some (Num 200)) None).
Proof.
  destruct (selectedNote_after_selectNote localEnv (VStr "2") worldB
              (fst (selectNote localEnv (VStr "2") worldB))
              (snd (selectNote localEnv (VStr "2") worldB))
              (surjective_pairing _)) as (_ & H & _).
  destruct (H "2" eq_refl) as [_ (n & Hn & _ & Hfind)].
  - simpl. auto.
  - rewrite Hn. rewrite <- Hfind. reflexivity.
Defined.

Lemma sortBy_fixes_sorted {A : Type} (cmp : A -> A -> Z) (l : list A) :
  StronglySorted (before cmp) l -> sortBy cmp l = l.
Proof.
  induction 1 as [|x l Hsorted IH Hall]; [reflexivity|].
  simpl. fold (sortBy cmp l). rewrite IH.
  destruct l as [|y l']; [reflexivity|].
  simpl. inversion Hall as [|? ? Hxy _]; subst. unfold before in Hxy.
  apply Z.leb_le in Hxy. rewrite Hxy. reflexivity.
Qed.

Lemma sortBy_noteOrder_sorted (eng : StringEngine) (l : list Note) :
  StronglySorted (before (noteOrder eng)) (sortBy (noteOrder eng) l).
Proof.
  apply (sortBy_sorted Note _ (noteOrder eng) (noteKey eng) keyLe
           (noteOrder_le eng) (keyLe_total eng) keyLe_trans).
Qed.

(** X10.  sortedNotes() returns [notes] as it is when [notes] is already
    in order (later [updatedAt] first, then, at an equal finite
    [updatedAt], the title that is smaller once lower-cased); so sorting
    the result of sortedNotes() again changes nothing. *)
Theorem sortedNotes_fixes_ordered :
  forall (eng : StringEngine) (s : State),
    (StronglySorted (precedes eng) (notes s) -> sortedNotes eng s = notes s) /\
    sortedNotes eng (mkState (sortedNotes eng s) (selectedNoteId s) (loading s) (error s))
      = sortedNotes eng s.
Proof.
  intros eng s. unfold sortedNotes. split.
  - intros Hs. apply sortBy_fixes_sorted.
    apply (StronglySorted_impl (precedes eng)); [|exact Hs].
    intros a b Hab. apply precedes_iff. exact Hab.
  - simpl. apply sortBy_fixes_sorted, sortBy_noteOrder_sorted.
Qed.

Lemma sortedNotes_fixes_ordered_witness :
  sortedNotes utf8Engine
    (mkState [mkNote "2" (Some "apple") None (Some (Num 100)) None;
              mkNote "1" (Some "Banana") None (Some (Num 100)) None;
              mkNote "3" (Some "Éclair") None (Some (Num 100)) None;
              mkNote "4" (Some "zebra") None (Some (Num 50)) None]
             None false None)
    = [mkNote "2" (Some "apple") None (Some (Num 100)) None;
       mkNote "1" (Some "Banana") None (Some (Num 100)) None;
       mkNote "3" (Some "Éclair") None (Some (Num 100)) None;
       mkNote "4" (Some "zebra") None (Some (Num 50)) None].
Proof.
  apply (proj1 (sortedNotes_fixes_ordered utf8Engine
                  (mkState [mkNote "2" (Some "apple") None (Some (Num 100)) None;
                            mkNote "1" (Some "Banana") None (Some (Num 100)) None;
                            mkNote "3" (Some "Éclair") None (Some (Num 100)) None;
                            mkNote "4" (Some "zebra") None (Some (Num 50)) None]
                           None false None))).
  cbn [notes].
  repeat constructor; unfold precedes; cbn [updatedAt timeOr0 timeLt isFinite];
    try (left; lia); right; (split; [reflexivity | intros _; vm_compute; reflexivity]).
Defined.

Lemma timeLt_le (x y : JsNum) : timeLt x y -> timeLe x y.
Proof. destruct x, y; simpl; try tauto. lia. Qed.

Lemma timeLe_refl (x : JsNum) : x <> NaN -> timeLe x x.
Proof. destruct x; simpl; try tauto. lia. Qed.

Lemma precedes_time (eng : StringEngine) (a b : Note) :
  precedes eng a b -> timeLe (timeOr0 (updatedAt b)) (timeOr0 (updatedAt a)).
Proof.
  intros [H|[H _]]; [apply timeLt_le; exact H|].
  rewrite H. apply timeLe_refl, timeOr0_not_NaN.
Qed.

Lemma timeLe_not_lt (x y : JsNum) : timeLe x y -> timeLt y x -> False.
Proof. destruct x, y; simpl; try tauto. lia. Qed.

Lemma sortBy_head_newest (eng : StringEngine) (l : list Note) (n : Note) :
  In n l ->
  (forall m, In m l ->
     m = n \/ timeLt (timeOr0 (updatedAt m)) (timeOr0 (updatedAt n))) ->
  hd_error (sortBy (noteOrder eng) l) = Some n.
Proof.
  intros Hin Hnew.
  pose proof (sortBy_noteOrder_sorted eng l) as Hsorted.
  pose proof (sortBy_perm Note (noteOrder eng) l) as Hperm.
  destruct (sortBy (noteOrder eng) l) as [|h rest] eqn:Hs.
  - apply Permutation_sym, Permutation_nil in Hperm. subst l. contradiction Hin.
  - simpl. f_equal.
    assert (Hh : In h l).
    { apply (Permutation_in h (Permutation_sym Hperm)). left. reflexivity. }
    destruct (Hnew h Hh) as [Heq|Hlt]; [exact Heq|].
    assert (Hn : In n (h :: rest)) by (apply (Permutation_in n Hperm); exact Hin).
    destruct Hn as [Heq|Hn]; [exact Heq|].
    inversion Hsorted as [|? ? _ Hall]; subst.
    rewrite Forall_forall in Hall. specialize (Hall n Hn).
    unfold before in Hall. apply precedes_iff, precedes_time in Hall.
    exfalso. exact (timeLe_not_lt _ _ Hall Hlt).
Qed.

(** X11.  When the store holds notes, the first element of sortedNotes()
    is a note of the store whose [updatedAt] (0 when missing, null or
    NaN) is the greatest; a note whose [updatedAt] is greater than that of
    every other note is that first element. *)
Theorem sortedNotes_newest_first :
  forall (eng : StringEngine) (s : State),
    notes s <> [] ->
    exists h,
      hd_error (sortedNotes eng s) = Some h /\
      In h (notes s) /\
      (forall m, In m (notes s) ->
         timeLe (timeOr0 (updatedAt m)) (timeOr0 (updatedAt h))) /\
      (forall n, In n (notes s) ->
         (forall m, In m (notes s) ->
            m = n \/ timeLt (timeOr0 (updatedAt m)) (timeOr0 (updatedAt n))) ->
         h = n).
Proof.
  intros eng s Hne. unfold sortedNotes.
  pose proof (sortBy_noteOrder_sorted eng (notes s)) as Hsorted.
  pose proof (sortBy_perm Note (noteOrder eng) (notes s)) as Hperm.
  destruct (sortBy (noteOrder eng) (notes s)) as [|h rest] eqn:Hs.
  - apply Permutation_sym, Permutation_nil in Hperm. contradiction.
  - exists h. split; [reflexivity|].
    assert (Hh : In h (notes s)).
    { apply (Permutation_in h (Permutation_sym Hperm)). left. reflexivity. }
    split; [exact Hh|]. split.
    + intros m Hm. apply (Permutation_in m Hperm) in Hm. destruct Hm as [Hm|Hm].
      * subst m. apply timeLe_refl, timeOr0_not_NaN.
      * inversion Hsorted as [|? ? _ Hall]; subst.
        rewrite Forall_forall in Hall. specialize (Hall m Hm).
        unfold before in Hall. apply precedes_iff, precedes_time in Hall. exact Hall.
    + intros n Hn Hnew.
      pose proof (sortBy_head_newest eng (notes s) n Hn Hnew) as Hhead.
      rewrite Hs in Hhead. simpl in Hhead. congruence.
Qed.

Lemma sortedNotes_newest_first_witness :
  exists h,
    hd_error (sortedNotes utf8Engine scenarioB) = Some h /\
    forall m, In m (notes scenarioB) ->
      timeLe (timeOr0 (updatedAt m)) (timeOr0 (updatedAt h)).
Proof.
  assert (Hne : notes scenarioB <> []) by discriminate.
  destruct (sortedNotes_newest_first utf8Engine scenarioB Hne)
    as (h & Hhead & _ & Hmax & _).
  exists h. split; [exact Hhead | exact Hmax].
Defined.

(** ** Runs without an API *)





(** *** Generated ids *)

Lemma digits36_nonEmpty (fuel : nat) (n : N) (acc : string) :
  nonEmpty acc = true -> nonEmpty (digits36 fuel n acc) = true.
Proof.
  revert n acc. induction fuel as [|fuel IH]; intros n acc Hacc; simpl; [exact Hacc|].
  destruct (n <? 36)%N; [reflexivity|]. apply IH. reflexivity.
Qed.

Lemma toString36_nonEmpty (z : Z) : nonEmpty (toString36 z) = true.
Proof.
  unfold toString36. cbv zeta. destruct (z <? 0); [reflexivity|].
  cbn [digits36]. destruct (_ <? 36)%N; [reflexivity|].
  apply digits36_nonEmpty. reflexivity.
Qed.

Lemma upperAscii_not_lower (c : ascii) : isLowerAscii (upperAscii c) = false.
Proof. destruct c as [[] [] [] [] [] [] [] []]; reflexivity. Qed.

Lemma toUpperCase_no_lower (s : string) :
  allChars (fun c => negb (isLowerAscii c)) (toUpperCase s) = true.
Proof.
  induction s as [|c s IH]; [reflexivity|].
  simpl. rewrite upperAscii_not_lower. exact IH.
Qed.

Lemma toUpperCase_nonEmpty (s : string) : nonEmpty (toUpperCase s) = nonEmpty s.
Proof. destruct s; reflexivity. Qed.

Lemma nonEmpty_app_l (s1 s2 : string) : nonEmpty s1 = true -> nonEmpty (s1 ++ s2) = true.
Proof. destruct s1; [discriminate | reflexivity]. Qed.

Lemma nonEmpty_neq (s : string) : nonEmpty s = true -> s <> "".
Proof. intros H E. subst s. discriminate H. Qed.

Lemma generated_id_nonEmpty (t : Z) (r : string) :
  nonEmpty (toUpperCase (toString36 t ++ r)) = true.
Proof.
  rewrite toUpperCase_nonEmpty. apply nonEmpty_app_l, toString36_nonEmpty.
Qed.

(** X12.  uid() always yields a non-empty string without lower-case ASCII
    letters, made of one clock read and one random read; hence a generated
    id is truthy and passes the entry checks of updateNote and
    deleteNote. *)
Theorem uid_is_truthy_upper_case :
  forall (env : Env) (w : World),
    exists i w',
      uid env w = (Returned i, w') /\
      i <> "" /\
      truthy (VStr i) = true /\
      allChars (fun c => negb (isLowerAscii c)) i = true /\
      clockReads w' = S (clockReads w) /\ randomReads w' = S (randomReads w) /\
      st w' = st w.
Proof.
  intros env w. eexists _, _. split; [reflexivity|].
  split; [apply nonEmpty_neq, generated_id_nonEmpty|].
  split; [apply generated_id_nonEmpty|].
  split; [apply toUpperCase_no_lower|].
  repeat split.
Qed.





Lemma action_loading_false (env : Env) (a : Action) (w : World) (r : Outcome Settled)
    (wf : World) :
  accepted a = true -> perform env a w = (r, wf) -> loading (st wf) = false.
Proof.
  intros Hacc H.
  destruct (perform_cases env a w r wf H)
    as [(Hrej & _) | [(_ & e & w2 & _ & _ & Hw) | (_ & v & w2 & _ & _ & Hw)]].
  - rewrite Hacc in Hrej. discriminate Hrej.
  - subst wf. unfold settled. rewrite st_setStateWorld. auto.
  - subst wf. rewrite st_settled. auto.
Qed.

(** ** The keyboard shortcuts *)

(** X15.  The Ctrl/Cmd+N handler never fails: it ends in the state
    addNote({ title: 'Untitled', content: '' }) alone leaves.  Its call of
    selectNote selects what addNote has already selected: it changes
    nothing in the state, sends no request, and only notifies the
    subscribers once more; it is skipped when addNote resolved to null or
    to a note with an empty id. *)
Theorem shortcutAdd_state_as_addNote :
  forall (env : Env) (w : World),
    exists created wa wf,
      addNote env (VObj [("title", VStr "Untitled"); ("content", VStr "")]) w
        = (Returned created, wa) /\
      shortcutAdd env w = (Returned tt, wf) /\
      st wf = st wa /\
      requests wf = requests wa /\
      match created with
      | Some n =>
          if nonEmpty (id n) then emitted wf = (emitted wa ++ [st wa])%list else wf = wa
      | None => wf = wa
      end.
Proof.
  intros env w. unfold shortcutAdd.
  assert (Harg : VObj [("title", VStr "Untitled"); ("content", VStr "")] <> VNull)
    by discriminate.
  rewrite (addNote_accepted env _ Harg). unfold bind at 1.
  destruct (addNote_body env
              (submittedTitle (VObj [("title", VStr "Untitled"); ("content", VStr "")]))
              (submittedContent (VObj [("title", VStr "Untitled"); ("content", VStr "")]))
              (entered env w)) as [[n|e] w2] eqn:Hbody.
  - rewrite (_runAsync_returned env "addNote" _ w w2 n Hbody).
    destruct (addNote_body_returned env _ _ _ _ _ Hbody) as (w1 & _ & Hst).
    exists (Some n), (settled env w2).
    destruct (nonEmpty (id n)).
    + rewrite selectNote_eq. eexists. split; [reflexivity|]. split; [reflexivity|].
      cbn [nullish].
      assert (Hex : existsb (idIs (VStr (id n))) (notes (st (settled env w2))) = true).
      { apply existsb_idIs_In. rewrite st_settled, Hst. cbn [notes].
        rewrite map_app, in_app_iff. right. left. reflexivity. }
      rewrite Hex. rewrite st_setStateWorld, requests_setStateWorld, emitted_setStateWorld.
      assert (Hsame : applyPatch (st (settled env w2))
                        (mkPatch None (Some (asId (VStr (id n)))) None None)
                      = st (settled env w2)).
      { rewrite st_settled, Hst. reflexivity. }
      rewrite Hsame. auto.
    + exists (settled env w2). auto.
  - rewrite (_runAsync_thrown env "addNote" _ w w2 e Hbody).
    exists None, (settled env (failed env e w2)), (settled env (failed env e w2)). auto.
Qed.

Lemma updateNote_as_perform (env : Env) (idv updates : JsVal) (w wf : World)
    (o : Outcome (option Note)) :
  updateNote env idv updates w = (o, wf) ->
  exists r, perform env (UpdateNote idv updates) w = (r, wf).
Proof.
  intros H. unfold perform, bind. rewrite H. destruct o; eexists; reflexivity.
Qed.

Lemma selectedNote_find (s : State) (n : Note) :
  selectedNote s = Some n -> find (idIs (VStr (id n))) (notes s) = Some n.
Proof.
  intros H. destruct (selectedNote_some s n H) as (Hsel & _ & _).
  unfold selectedNote in H. rewrite Hsel in H.
  destruct (nonEmpty (id n)); [exact H | discriminate H].
Qed.

(** X16.  The Ctrl/Cmd+S handler does nothing at all when selectedNote()
    is null.  Otherwise it never fails and leaves [selectedNoteId] as it
    is; without an API, for a selected note whose title and content are
    strings, it changes nothing but the [updatedAt] of the notes with the
    selected id, set to the current time: title, content, [createdAt],
    the order of [notes] and the other notes are as before. *)
Theorem shortcutSave_touches_updatedAt :
  forall (env : Env) (w : World),
    (selectedNote (st w) = None -> shortcutSave env w = (Returned tt, w)) /\
    (forall note,
       selectedNote (st w) = Some note ->
       exists wf,
         shortcutSave env w = (Returned tt, wf) /\
         selectedNoteId (st wf) = selectedNoteId (st w) /\
         loading (st wf) = false /\
         (USE_API env = false ->
          title note <> None -> content note <> None ->
          notes (st wf) =
            map (fun n => if String.eqb (id n) (id note)
                          then mkNote (id note) (title note) (content note)
                                      (Some (Num (dateNow env (clockReads w))))
                                      (createdAt note)
                          else n) (notes (st w)) /\
          error (st wf) = None)).
Proof.
  intros env w. split.
  - intros Hnone. unfold shortcutSave, bind, thisState. rewrite Hnone. reflexivity.
  - intros note Hsel. unfold shortcutSave. unfold bind at 1. unfold thisState at 1.
    rewrite Hsel.
    destruct (selectedNote_some _ _ Hsel) as (Hid & Hne & _).
    pose proof (selectedNote_find _ _ Hsel) as Hfind.
    set (updates := VObj [("title", optStrVal (title note));
                          ("content", optStrVal (content note))]).
    assert (Hupd : updates <> VNull) by discriminate.
    unfold bind.
    destruct (updateNote env (VStr (id note)) updates w) as [o wf] eqn:Hrun.
    assert (Hret : exists v, o = Returned v).
    { rewrite (updateNote_accepted env _ updates (truthy_VStr _ Hne)) in Hrun.
      destruct (_runAsync_total env "updateNote"
                  (updateNote_body env (VStr (id note)) (withDefault updates (VObj []))) w)
        as (v & wf' & Hv).
      rewrite Hv in Hrun. inversion Hrun. exists v. reflexivity. }
    destruct Hret as [v Hv]. subst o. exists wf. split; [reflexivity|].
    destruct (updateNote_as_perform env _ _ _ _ _ Hrun) as [r Hperf].
    split; [|split].
    + destruct (perform_state env _ _ _ _ Hperf)
        as [[_ Hs] | (_ & _ & _ & _ & Hs & _)]; exact Hs.
    + exact (action_loading_false env (UpdateNote (VStr (id note)) updates) _ _ _
               (truthy_VStr _ Hne) Hperf).
    + intros Hapi Ht Hc.
      destruct (updateNote_local_run env (id note) updates w note Hapi Hne Hupd Hfind)
        as (wf' & Hrun' & Hst).
      rewrite Hrun' in Hrun. inversion Hrun; subst wf'. rewrite Hst.
      cbn [notes error]. split; [|reflexivity].
      destruct (title note) as [t0|] eqn:Et; [|contradiction Ht; reflexivity].
      destruct (content note) as [c0|] eqn:Ec; [|contradiction Hc; reflexivity].
      reflexivity.
Qed.

Lemma shortcutSave_touches_updatedAt_witness :
  exists wf,
    shortcutSave localEnv
      (newStore (mkState [mkNote "1" (Some "Plan") (Some "Buy milk") (Some (Num 100))
                                 (Some (Num 50))] (Some "1") false None) None)
      = (Returned tt, wf) /\
    notes (st wf) = [mkNote "1" (Some "Plan") (Some "Buy milk") (Some (Num 1700000000000))
                            (Some (Num 50))].
Proof.
  destruct (shortcutSave_touches_updatedAt localEnv
              (newStore (mkState [mkNote "1" (Some "Plan") (Some "Buy milk")
                                         (Some (Num 100)) (Some (Num 50))]
                                 (Some "1") false None) None)) as [_ H].
  destruct (H (mkNote "1" (Some "Plan") (Some "Buy milk") (Some (Num 100)) (Some (Num 50)))
              eq_refl) as (wf & Hrun & _ & _ & Hlocal).
  exists wf. split; [exact Hrun|].
  destruct (Hlocal eq_refl) as [Hnotes _]; [discriminate | discriminate |].
  rewrite Hnotes. reflexivity.
Defined.

(** X17.  The Delete-key handler does nothing at all when selectedNote()
    is null or when the confirmation is declined.  Otherwise it never
    fails, and either the deletion went through ([notes] without the
    notes of the selected id, [selectedNoteId] the id of the first note
    left or null, [error] null) or it failed and [notes] and
    [selectedNoteId] are as before with [error] set; without an API it
    always goes through. *)
Theorem shortcutDelete_removes_selected :
  forall (env : Env) (w : World),
    (forall confirmed,
       confirmed = false \/ selectedNote (st w) = None ->
       shortcutDelete env confirmed w = (Returned tt, w)) /\
    (forall current,
       selectedNote (st w) = Some current ->
       exists wf,
         shortcutDelete env true w = (Returned tt, wf) /\
         loading (st wf) = false /\
         ((notes (st wf) = remaining (VStr (id current)) (notes (st w)) /\
           selectedNoteId (st wf) = firstId (remaining (VStr (id current)) (notes (st w))) /\
           error (st wf) = None) \/
          (USE_API env = true /\
           notes (st wf) = notes (st w) /\
           selectedNoteId (st wf) = selectedNoteId (st w) /\
           error (st wf) <> None))).
Proof.
  intros env w. split.
  - intros confirmed [Hc|Hnone]; unfold shortcutDelete, bind, thisState.
    + subst confirmed. destruct (selectedNote (st w)); reflexivity.
    + rewrite Hnone. reflexivity.
  - intros current Hsel. unfold shortcutDelete. unfold bind at 1. unfold thisState at 1.
    rewrite Hsel.
    destruct (selectedNote_some _ _ Hsel) as (Hid & Hne & Hin).
    assert (Hex : existsb (idIs (VStr (id current))) (notes (st (entered env w))) = true).
    { rewrite st_entered. apply existsb_idIs_In, in_map. exact Hin. }
    rewrite (deleteNote_accepted env _ (truthy_VStr _ Hne)). unfold bind.
    destruct (deleteNote_body env (VStr (id current)) (entered env w))
      as [[b|e] w2] eqn:Hbody.
    + rewrite (_runAsync_returned env "deleteNote" _ w w2 b Hbody).
      exists (settled env w2). split; [reflexivity|].
      destruct (deleteNote_body_returned env _ _ _ _ Hbody) as (_ & _ & Hst).
      rewrite st_entered in Hst. cbn [notes selectedNoteId loading error] in Hst.
      rewrite st_settled, Hst. cbn [notes selectedNoteId loading error].
      split; [reflexivity|]. left.
      rewrite (proj2 (selectedIs_VStr (id current) (selectedNoteId (st w))) Hid).
      auto.
    + rewrite (_runAsync_thrown env "deleteNote" _ w w2 e Hbody).
      exists (settled env (failed env e w2)). split; [reflexivity|].
      rewrite (st_settled_failed env e w w2
                 (failsQuietly_deleteNote_body env _ _ _ _ Hbody)).
      cbn [notes selectedNoteId loading error].
      split; [reflexivity|]. right.
      split; [|split; [reflexivity|split; [reflexivity|discriminate]]].
      destruct (USE_API env) eqn:Hapi; [reflexivity|].
      destruct (deleteNote_body_present env (VStr (id current)) (entered env w) Hex
                  (or_introl Hapi)) as [w2' Hok].
      rewrite Hok in Hbody. discriminate Hbody.
Qed.

Lemma shortcutDelete_removes_selected_witness :
  exists wf,
    shortcutDelete localEnv true worldB = (Returned tt, wf) /\
    map id (notes (st wf)) = ["2"] /\ selectedNoteId (st wf) = Some "2".
Proof.
  destruct (shortcutDelete_removes_selected localEnv worldB) as [_ H].
  destruct (H (mkNote "1" None None (Some (Num 100)) None) eq_refl)
    as (wf & Hrun & _ & [(Hnotes & Hsel & _) | (Hapi & _)]).
  - exists wf. split; [exact Hrun|]. rewrite Hnotes, Hsel. split; reflexivity.
  - discriminate Hapi.
Defined.

(** ** Requests *)

Lemma stripLeadingSlashes_spec (s : string) :
  exists k, s = slashes k ++ stripLeadingSlashes s /\
            startsWithSlash (stripLeadingSlashes s) = false.
Proof.
  induction s as [|c r IH]; [exists O; auto|].
  simpl. destruct (Ascii.eqb c slash) eqn:E.
  - apply Ascii.eqb_eq in E. subst c. destruct IH as (k & Hk & Hs).
    exists (S k). simpl. split; [f_equal; exact Hk | exact Hs].
  - exists O. simpl. auto.
Qed.

Lemma stripTrailingSlashes_spec (s : string) :
  exists k, s = stripTrailingSlashes s ++ slashes k /\
            endsWithSlash (stripTrailingSlashes s) = false.
Proof.
  induction s as [|c r IH]; [exists O; auto|].
  destruct IH as (k & Hk & Hs). simpl.
  destruct (stripTrailingSlashes r) as [|c' r'] eqn:Hr.
  - simpl in Hk. destruct (Ascii.eqb c slash) eqn:E.
    + apply Ascii.eqb_eq in E. subst c. exists (S k). simpl. rewrite <- Hk. auto.
    + exists k. simpl. rewrite <- Hk, E. auto.
  - exists k. split; [simpl; f_equal; exact Hk|]. exact Hs.
Qed.

(** X18.  The URL apiFetch requests is the API base without its trailing
    slashes, one slash, and the path without its leading slashes: however
    many slashes the base ends with and the path starts with, exactly one
    separates the two parts. *)
Theorem apiUrl_joins_with_one_slash :
  forall (env : Env) (path : string),
    exists b p k j,
      API_BASE env = b ++ slashes k /\
      path = slashes j ++ p /\
      endsWithSlash b = false /\
      startsWithSlash p = false /\
      apiUrl env path = b ++ "/" ++ p.
Proof.
  intros env path.
  destruct (stripTrailingSlashes_spec (API_BASE env)) as (k & Hk & Hb).
  destruct (stripLeadingSlashes_spec path) as (j & Hj & Hp).
  exists (stripTrailingSlashes (API_BASE env)), (stripLeadingSlashes path), k, j.
  repeat split; assumption || reflexivity.
Qed.

Lemma loadNotes_failed (env : Env) (w : World) (e : Exn) :
  USE_API env = true ->
  (exists data,
      answerTo env w (listRequest env) = Returned data /\
      (forall items, data <> VArr items) /\
      e = JsError "Invalid response from server.") \/
  answerTo env w (listRequest env) = Thrown e ->
  loadNotes env w =
  (Returned tt, settled env (failed env e (requested (listRequest env) (entered env w)))).
Proof.
  intros Hapi Hans.
  assert (Hbody : loadNotes_body env (entered env w)
                  = (Thrown e, requested (listRequest env) (entered env w))).
  { unfold loadNotes_body. rewrite Hapi. cbn [negb]. unfold bind.
    rewrite apiFetch_eq. fold (listRequest env). rewrite answerTo_entered.
    destruct Hans as [(data & Hdata & Hnot & He) | Hthrown].
    - rewrite Hdata. subst e. destruct data; try reflexivity.
      contradiction (Hnot items). reflexivity.
    - rewrite Hthrown. reflexivity. }
  unfold loadNotes, bind.
  rewrite (_runAsync_thrown env "loadNotes" _ w _ e Hbody). reflexivity.
Qed.

(** X19.  With an API, loadNotes whose GET is answered with a status that
    is not ok ends with [error] set to the text of the response, or to
    'Request failed with status N' when the text is empty or cannot be
    read; answered with an ok status and a body that is not a JSON array
    (or cannot be read as JSON) it ends with [error] set to 'Invalid
    response from server.'.  In both cases the promise resolves, one
    request has been sent, and [notes] and [selectedNoteId] are as
    before. *)
Theorem loadNotes_reports_bad_answer :
  forall (env : Env) (w : World) (ok : bool) (status : Z)
         (text : option string) (json : option JsVal),
    USE_API env = true ->
    fetch env (List.length (requests w)) (listRequest env) = Response ok status text json ->
    ok = false \/ (forall items, json <> Some (VArr items)) ->
    exists wf,
      loadNotes env w = (Returned tt, wf) /\
      error (st wf) =
        Some (if ok then "Invalid response from server."
              else if nonEmpty (orElse text "") then orElse text ""
                   else "Request failed with status " ++ decimal status) /\
      notes (st wf) = notes (st w) /\
      selectedNoteId (st wf) = selectedNoteId (st w) /\
      loading (st wf) = false /\
      requests wf = (requests w ++ [listRequest env])%list.
Proof.
  intros env w ok status text json Hapi Hfetch Hbad.
  set (e := JsError (if ok then "Invalid response from server."
                     else if nonEmpty (orElse text "") then orElse text ""
                          else "Request failed with status " ++ decimal status)).
  assert (Hmsg : failureMessage e = message e).
  { unfold failureMessage, e. simpl. destruct ok; [reflexivity|].
    destruct (nonEmpty (orElse text "")) eqn:Ht; [rewrite Ht|]; reflexivity. }
  assert (Hans : (exists data,
                     answerTo env w (listRequest env) = Returned data /\
                     (forall items, data <> VArr items) /\
                     e = JsError "Invalid response from server.") \/
                 answerTo env w (listRequest env) = Thrown e).
  { unfold answerTo. rewrite Hfetch. unfold e. destruct ok; simpl.
    - left. exists (orElse json VNull). split; [reflexivity|]. split; [|reflexivity].
      destruct Hbad as [Hok|Hjson]; [discriminate Hok|].
      intros items Hitems. destruct json as [v|]; simpl in Hitems; [|discriminate Hitems].
      apply (Hjson items). congruence.
    - right. reflexivity. }
  exists (settled env (failed env e (requested (listRequest env) (entered env w)))).
  split; [exact (loadNotes_failed env w e Hapi Hans)|].
  rewrite (st_settled_failed env e w (requested (listRequest env) (entered env w)) eq_refl),
    Hmsg.
  split; [reflexivity|]. split; [reflexivity|]. split; [reflexivity|].
  split; [reflexivity|].
  unfold settled, failed. rewrite !requests_setStateWorld.
  unfold requested. cbn [requests]. rewrite requests_entered. reflexivity.
Qed.

Lemma loadNotes_reports_bad_answer_witness :
  exists wf,
    loadNotes (remoteEnv (Response false 503 (Some "") None)) worldB = (Returned tt, wf) /\
    error (st wf) = Some "Request failed with status 503" /\
    notes (st wf) = notes scenarioB.
Proof.
  destruct (loadNotes_reports_bad_answer (remoteEnv (Response false 503 (Some "") None))
              worldB false 503 (Some "") None eq_refl eq_refl (or_introl eq_refl))
    as (wf & Hrun & Herr & Hnotes & _).
  exists wf. split; [exact Hrun|]. split; [exact Herr | exact Hnotes].
Defined.

(** X20.  updateNote and deleteNote called with a truthy id that no note
    of the store carries send no request, even with an API: updateNote
    resolves to null and deleteNote to false, [error] is 'Note not found',
    and [notes] and [selectedNoteId] are as before. *)
Theorem unknown_id_sends_no_request :
  forall (env : Env) (idv updates : JsVal) (w : World),
    truthy idv = true ->
    existsb (idIs idv) (notes (st w)) = false ->
    exists wu wd,
      updateNote env idv updates w = (Returned None, wu) /\
      deleteNote env idv w = (Returned false, wd) /\
      requests wu = requests w /\ requests wd = requests w /\
      st wu = mkState (notes (st w)) (selectedNoteId (st w)) false (Some "Note not found") /\
      st wd = st wu.
Proof.
  intros env idv updates w Hid Hex.
  assert (Hex' : existsb (idIs idv) (notes (st (entered env w))) = false).
  { rewrite st_entered. exact Hex. }
  pose proof (updateNote_body_absent env idv (withDefault updates (VObj []))
                (entered env w) Hex') as Hu.
  assert (Hd : deleteNote_body env idv (entered env w)
               = (Thrown (JsError "Note not found"), entered env w)).
  { unfold deleteNote_body. unfold bind at 1. unfold thisState at 1.
    rewrite Hex'. reflexivity. }
  exists (settled env (failed env (JsError "Note not found") (entered env w))),
         (settled env (failed env (JsError "Note not found") (entered env w))).
  rewrite (updateNote_accepted env idv updates Hid).
  rewrite (_runAsync_thrown env "updateNote" _ w _ _ Hu).
  rewrite (deleteNote_accepted env idv Hid). unfold bind.
  rewrite (_runAsync_thrown env "deleteNote" _ w _ _ Hd).
  split; [reflexivity|]. split; [reflexivity|].
  assert (Hreq : requests (settled env (failed env (JsError "Note not found")
                                          (entered env w))) = requests w).
  { unfold settled, failed. rewrite !requests_setStateWorld. apply requests_entered. }
  split; [exact Hreq|]. split; [exact Hreq|].
  split; [|reflexivity].
  apply (st_settled_failed env (JsError "Note not found") w (entered env w) eq_refl).
Qed.

Lemma unknown_id_sends_no_request_witness :
  exists wu wd,
    updateNote (remoteEnv (Response true 200 None None)) (VStr "9") (VObj []) worldB
      = (Returned None, wu) /\
    deleteNote (remoteEnv (Response true 200 None None)) (VStr "9") worldB
      = (Returned false, wd) /\
    requests wu = [] /\ requests wd = [].
Proof.
  destruct (unknown_id_sends_no_request (remoteEnv (Response true 200 None None))
              (VStr "9") (VObj []) worldB eq_refl eq_refl)
    as (wu & wd & Hu & Hd & Hru & Hrd & _).
  exists wu, wd. auto.
Defined.



(** ** Failures and what records them (C1) *)





